(** * The bidirectional tree container of tree.h (aw::TreeTemplate)

    A shallow embedding of the node store, the edge primitives, the
    contraction / trimming / SPR family, the connectivity scan and the
    depth-first iterator, followed by the properties proved about them.

    Conventions of the model.
    - Node ids, the root marker and the counters are [unsigned int]: they
      are values of [N], and every [++] / [--] on a stored counter is
      written with its wrap-around modulo 2^32.
    - A [std::vector] is a list.  The code reads vector sizes through
      [unsigned int]; the model takes them exactly, i.e. it describes the
      states in which every vector holds fewer than [UINT_MAX] cells.
    - [nodes23[v]] with [v] outside the store is undefined behaviour; the
      model stops there with [OutOfBounds].
    - The payload of [Tree = TreeTemplate<util::empty>] carries no data, so
      a node is its adjacency list.
    - [while] loops whose termination depends on the state take a fuel
      argument and stop with [OutOfFuel] when it is used up.
    - [ERROR_exit] ends the program: outcome [Fatal].
    - Three members pass a [Node] reference where the header declares a
      parameter of type [unsigned int] only: [is_connected()] and
      [components()] call [adjacent(n)], and the protected
      [contract_edge] calls [remove_edge(v,u)] and [adjacent(u,adj)].  No
      overload takes a [Node], so the header cannot instantiate these
      members: a program that calls one of them does not compile.  The
      model keeps their bodies and reads each such argument as the id of
      the node referred to ([idx(n)], [vi], [ui]); what is proved of
      them is proved of the bodies so read, not of a member that runs. *)

From Stdlib Require Import NArith Arith List Bool Lia Permutation.
Import ListNotations.
Local Open Scope N_scope.

(** ** Machine integers *)

Definition UINT_RANGE : N := 4294967296.
Definition UINT_MAX : N := 4294967295.
Definition NONODE : N := UINT_MAX.

Definition uint_incr (x : N) : N := (x + 1) mod UINT_RANGE.
Definition uint_decr (x : N) : N := (x + UINT_MAX) mod UINT_RANGE.

Inductive traversal_states : Type :=
| PREORDER | INORDER | POSTORDER | NOTRAVERSAL.

(** ** AdjacentList: the vector [data] of neighbour ids *)

Module AdjacentList.

Abbreviation t := (list N) (only parsing).

Definition size (data : t) : N := N.of_nat (length data).

Definition insert (v : N) (data : t) : t := data ++ [v].

(** [remove]: the first cell holding [v] receives the last cell and the
    vector shrinks by one; [None] stands for the [false] result. *)
Fixpoint remove (v : N) (data : t) : option t :=
  match data with
  | [] => None
  | x :: rest =>
      if x =? v
      then Some (match rest with
                 | [] => []
                 | _ :: _ => last rest x :: removelast rest
                 end)
      else option_map (cons x) (remove v rest)
  end.

Definition exist (v : N) (data : t) : bool := existsb (N.eqb v) data.

End AdjacentList.

(** ** The tree object *)

Record Tree : Type := mkTree {
  nodes23 : list AdjacentList.t;
  root : N;
  edge_count : N
}.

Definition nth_N {A : Type} (l : list A) (v : N) : option A :=
  if v <? N.of_nat (length l) then nth_error l (N.to_nat v) else None.

Fixpoint set_nth {A : Type} (l : list A) (i : nat) (x : A) : list A :=
  match l, i with
  | [], _ => []
  | _ :: r, O => x :: r
  | y :: r, S j => y :: set_nth r j x
  end.

(** ** Outcomes and the state monad of the member functions *)

Inductive outcome (A : Type) : Type :=
| Done (a : A)
| OutOfBounds
| OutOfFuel
| Fatal.
Arguments Done {A} a.
Arguments OutOfBounds {A}.
Arguments OutOfFuel {A}.
Arguments Fatal {A}.

Definition M (A : Type) : Type := Tree -> outcome (A * Tree).

Definition ret {A : Type} (a : A) : M A := fun t => Done (a, t).

Definition bind {A B : Type} (m : M A) (k : A -> M B) : M B :=
  fun t => match m t with
           | Done (a, t') => k a t'
           | OutOfBounds => OutOfBounds
           | OutOfFuel => OutOfFuel
           | Fatal => Fatal
           end.

Definition out_of_bounds {A : Type} : M A := fun _ => OutOfBounds.
Definition out_of_fuel {A : Type} : M A := fun _ => OutOfFuel.

Declare Scope tree_scope.
Delimit Scope tree_scope with tree.
Notation "x <- c1 ;; c2" := (bind c1 (fun x => c2))
  (at level 61, c1 at next level, right associativity) : tree_scope.
Notation "c1 ;; c2" := (bind c1 (fun _ => c2))
  (at level 61, right associativity) : tree_scope.
Local Open Scope tree_scope.

(** *** Field access *)

Definition node_size : M N := fun t => Done (N.of_nat (length (nodes23 t)), t).
Definition get_root : M N := fun t => Done (root t, t).
Definition set_root (r : N) : M unit :=
  fun t => Done (tt, mkTree (nodes23 t) r (edge_count t)).
Definition incr_edge_count : M unit :=
  fun t => Done (tt, mkTree (nodes23 t) (root t) (uint_incr (edge_count t))).
Definition decr_edge_count : M unit :=
  fun t => Done (tt, mkTree (nodes23 t) (root t) (uint_decr (edge_count t))).

(** [adjacent(v)]: a read of [nodes23[v].adjacent_nodes]. *)
Definition adjacent (v : N) : M AdjacentList.t :=
  fun t => match nth_N (nodes23 t) v with
           | Some l => Done (l, t)
           | None => OutOfBounds
           end.

(** A write through the reference [adjacent(v)]. *)
Definition set_adjacent (v : N) (l : AdjacentList.t) : M unit :=
  fun t => match nth_N (nodes23 t) v with
           | Some _ => Done (tt, mkTree (set_nth (nodes23 t) (N.to_nat v) l)
                                        (root t) (edge_count t))
           | None => OutOfBounds
           end.

(** *** Loops over a container *)

Fixpoint foreach {A : Type} (l : list A) (body : A -> M unit) : M unit :=
  match l with
  | [] => ret tt
  | x :: r => body x ;; foreach r body
  end.

(** [BOOST_FOREACH(x, l) if (!body(x)) return false;] followed by
    [return true] or by the rest of the function: the result tells whether
    the loop ran to the end. *)
Fixpoint foreach_ok {A : Type} (l : list A) (body : A -> M bool) : M bool :=
  match l with
  | [] => ret true
  | x :: r => b <- body x ;; if b then foreach_ok r body else ret false
  end.

(** ** Tree core *)

Definition clear : M unit := fun _ => Done (tt, mkTree [] NONODE 0).

(** The default constructor calls [clear()]. *)
Definition empty_tree : Tree := mkTree [] NONODE 0.

Definition empty : M bool :=
  fun t => Done (match nodes23 t with [] => true | _ => false end, t).

(** [children(v, parent, vec)] on a fresh [vec].  Its first statement,
    [vec.reserve(degree(v)-1)], only asks for capacity and leaves the
    contents alone; it is not part of the model (on a node without
    neighbours the request is for [UINT_MAX] cells). *)
Definition children_vector (v parent : N) : M (list N) :=
  l <- adjacent v ;;
  ret (filter (fun u => negb (u =? parent)) l).

Definition degree (v : N) : M N :=
  l <- adjacent v ;; ret (AdjacentList.size l).

Definition is_leaf (v : N) : M bool :=
  d <- degree v ;; ret (d <=? 1).

Definition add_edge (v u : N) : M unit :=
  lv <- adjacent v ;;
  set_adjacent v (AdjacentList.insert u lv) ;;
  lu <- adjacent u ;;
  set_adjacent u (AdjacentList.insert v lu) ;;
  incr_edge_count.

Definition remove_edge (v u : N) : M bool :=
  lv <- adjacent v ;;
  match AdjacentList.remove u lv with
  | None => ret false
  | Some lv' =>
      set_adjacent v lv' ;;
      lu <- adjacent u ;;
      match AdjacentList.remove v lu with
      | None => ret false
      | Some lu' =>
          set_adjacent u lu' ;;
          decr_edge_count ;;
          ret true
      end
  end.

Definition new_node : M N :=
  fun t => let l := N.of_nat (length (nodes23 t)) in
           Done (l, mkTree (nodes23 t ++ [[]]) (root t) (edge_count t)).

(** [disconnect_node]: while [degree(v) != 0], remove the edge from [v]
    to the first cell of its adjacency. *)
Fixpoint disconnect_node (fuel : nat) (v : N) : M unit :=
  l <- adjacent v ;;
  match l with
  | [] => ret tt
  | u :: _ =>
      match fuel with
      | O => out_of_fuel
      | S f => remove_edge v u ;; disconnect_node f v
      end
  end.

Definition is_rooted : M bool := r <- get_root ;; ret (negb (r =? NONODE)).
Definition is_unrooted : M bool := r <- get_root ;; ret (r =? NONODE).
Definition unroot : M unit := set_root NONODE.

(** ** Contraction *)

(** [contract_edge(v,u)].  The body, tree.h:390-396, takes the node
    references [v], [u] and the ids [vi], [ui], and calls
    [remove_edge(v,u)] and [adjacent(u,adj)] with the references;
    [remove_edge] and [adjacent] are declared for ids only, so the member
    cannot be instantiated as written.  The model passes the ids [vi] and
    [ui] in these two calls. *)
Definition contract_edge (v u : N) : M unit :=
  remove_edge v u ;;
  adj <- adjacent u ;;
  foreach adj (fun i => remove_edge i u ;; add_edge i v).

(** The two-cell array [l] is filled from the adjacency of [v], whose size
    was just tested to be 2. *)
Definition contract_chain_node (v : N) : M bool :=
  d <- degree v ;;
  if negb (d =? 2) then ret false else
  r <- get_root ;;
  if v =? r then ret false else
  adj <- adjacent v ;;
  match adj with
  | [l0; l1] =>
      remove_edge l0 v ;;
      remove_edge l1 v ;;
      add_edge l0 l1 ;;
      ret true
  | _ => out_of_bounds
  end.

(** The inner loop of [contract_chain]: push every neighbour of degree 2.
    The head of the list is the top of the [std::stack]. *)
Fixpoint push_chain_nodes (l : list N) (adj : list N) : M (list N) :=
  match l with
  | [] => ret adj
  | i :: r =>
      d <- degree i ;;
      push_chain_nodes r (if d =? 2 then i :: adj else adj)
  end.

Fixpoint contract_chain_loop (fuel : nat) (adj : list N) : M bool :=
  match adj with
  | [] => ret true
  | u :: rest =>
      match fuel with
      | O => out_of_fuel
      | S f =>
          l <- adjacent u ;;
          adj' <- push_chain_nodes l rest ;;
          b <- contract_chain_node u ;;
          if b then contract_chain_loop f adj' else ret false
      end
  end.

Definition contract_chain (fuel : nat) (v : N) : M bool :=
  contract_chain_loop fuel [v].

Definition contract_all_chains : M bool :=
  fun t => foreach_ok (map N.of_nat (seq 0 (length (nodes23 t))))
             contract_chain_node t.

(** ** Trimming *)

Definition trim_leaf (fuel : nat) (v : N) : M bool :=
  d <- degree v ;;
  if negb (d =? 1) then ret false else
  adj <- adjacent v ;;
  match adj with
  | [] => out_of_bounds
  | p :: _ =>
      remove_edge v p ;;
      contract_chain fuel p ;;
      ret true
  end.

Definition trim_leaves (fuel : nat) (leaves : list N) : M bool :=
  foreach_ok leaves (trim_leaf fuel).

Fixpoint trim_root_loop (fuel : nat) : M unit :=
  r <- get_root ;;
  d <- degree r ;;
  if d =? 1 then
    match fuel with
    | O => out_of_fuel
    | S f =>
        adj <- adjacent r ;;
        match adj with
        | [] => out_of_bounds
        | c :: _ => remove_edge c r ;; set_root c ;; trim_root_loop f
        end
    end
  else ret tt.

Definition trim_root (fuel : nat) : M bool :=
  rooted <- is_rooted ;;
  if negb rooted then ret false else
  r <- get_root ;;
  d <- degree r ;;
  if negb (d =? 1) then ret false else
  trim_root_loop fuel ;; ret true.

Definition trim_leaves_rooted (fuel : nat) (leaves : list N) : M bool :=
  b <- trim_leaves fuel leaves ;;
  trim_root fuel ;;
  ret b.

(** ** ChildrenList: the adjacency of a node seen without its parent *)

Module ChildrenList.

(** An iterator is a cursor into the adjacency vector together with the
    hidden parent id.  The cursor is kept as the cells from its position
    to the end of the vector, so the end iterator has no cell left and
    two cursors into one vector are equal when as many cells remain. *)
Record Iterator : Type := mkIterator { itr : list N; parent : N }.

Definition begin (adj : AdjacentList.t) (p : N) : Iterator := mkIterator adj p.
Definition end_ (p : N) : Iterator := mkIterator [] p.

Definition same_cell (l r : Iterator) : bool :=
  Nat.eqb (length (itr l)) (length (itr r)).

(** [operator==] moves its left operand past a cell holding the parent;
    the operand comes back with the answer. *)
Definition eq (l r : Iterator) : outcome (bool * Iterator) :=
  if same_cell l r then Done (true, l)
  else match itr l with
       | [] => OutOfBounds
       | x :: rest =>
           if x =? parent l
           then let l' := mkIterator rest (parent l) in
                Done (same_cell l' r, l')
           else Done (false, l)
       end.

Definition neq (l r : Iterator) : bool := negb (same_cell l r).

Definition incr (l : Iterator) : outcome Iterator :=
  match itr l with
  | [] => OutOfBounds
  | _ :: rest => Done (mkIterator rest (parent l))
  end.

(** The dereference operator: when the cell under the cursor holds the
    parent the cursor moves on one cell; the cell then under the cursor
    is returned. *)
Definition deref (l : Iterator) : outcome (N * Iterator) :=
  match itr l with
  | [] => OutOfBounds
  | x :: rest =>
      if x =? parent l
      then match rest with
           | [] => OutOfBounds
           | y :: _ => Done (y, mkIterator rest (parent l))
           end
      else Done (x, l)
  end.

Definition size (adj : AdjacentList.t) (p : N) : N :=
  if AdjacentList.exist p adj
  then AdjacentList.size adj - 1 else AdjacentList.size adj.

Definition exist (adj : AdjacentList.t) (p v : N) : bool :=
  if v =? p then false else AdjacentList.exist v adj.

End ChildrenList.

(** ** Subtree rearrangement *)

(** The text shared by [spr_to_root], [spr] and [reroot]: with [x] the
    node to keep attached to [p], detach every other neighbour of [p] and
    reconnect those neighbours among themselves.  The result is [false]
    where the enclosing function returns [false] from inside the loop. *)
Definition prune (p x : N) : M bool :=
  ch <- children_vector p x ;;
  ok <- foreach_ok ch (fun i => remove_edge p i) ;;
  if negb ok then ret false else
  match ch with
  | [] | [_] => ret true
  | [c0; c1] => add_edge c0 c1 ;; ret true
  | _ =>
      n <- new_node ;;
      foreach ch (fun i => add_edge n i) ;;
      ret true
  end.

Definition spr_to_root (u pu : N) : M bool :=
  rooted <- is_rooted ;;
  if negb rooted then ret false else
  r <- get_root ;;
  if u =? r then ret false else
  if pu =? r then ret true else
  ok <- prune pu u ;;
  if negb ok then ret false else
  r' <- get_root ;;
  add_edge pu r' ;;
  set_root pu ;;
  ret true.

(** The loop of [spr_from_root] walks [children(root,c)] while its body
    erases from that very adjacency vector.  The cursor and the end cached
    by the loop keep addressing the cells of the vector as it was when the
    loop began; a shrinking [resize] neither releases nor rewrites the
    cells it drops.  [mem] is that block of cells, [cur] the cursor. *)
Fixpoint spr_from_root_prune (fuel : nat) (mem : list N)
    (cur : ChildrenList.Iterator) : M bool :=
  let p := ChildrenList.parent cur in
  match ChildrenList.eq cur (ChildrenList.end_ p) with
  | Done (true, _) => ret true
  | Done (false, cur1) =>
      match ChildrenList.deref cur1 with
      | Done (i, cur2) =>
          match fuel with
          | O => out_of_fuel
          | S f =>
              r <- get_root ;;
              b <- remove_edge r i ;;
              if negb b then ret false else
              adj <- adjacent r ;;
              let mem' := adj ++ skipn (length adj) mem in
              let pos := (length mem - length (ChildrenList.itr cur2))%nat in
              match ChildrenList.incr
                      (ChildrenList.mkIterator (skipn pos mem') p) with
              | Done cur3 => spr_from_root_prune f mem' cur3
              | _ => out_of_bounds
              end
          end
      | _ => out_of_bounds
      end
  | _ => out_of_bounds
  end.

Definition spr_from_root (c r u v : N) : M bool :=
  rooted <- is_rooted ;;
  if negb rooted then ret false else
  r0 <- get_root ;;
  if (r0 =? u) || (r0 =? v) then ret true else
  adj <- adjacent r0 ;;
  ok <- spr_from_root_prune (length adj) adj (ChildrenList.begin adj c) ;;
  if negb ok then ret false else
  b <- remove_edge u v ;;
  if negb b then ret false else
  r1 <- get_root ;;
  add_edge r1 u ;;
  r2 <- get_root ;;
  add_edge r2 v ;;
  set_root r ;;
  ret true.

Definition spr (n pn u v : N) : M bool :=
  if pn =? u then ret true else
  if pn =? v then ret true else
  ok <- prune pn n ;;
  if negb ok then ret false else
  b <- remove_edge u v ;;
  if negb b then ret false else
  add_edge pn u ;;
  add_edge pn v ;;
  ret true.

Definition reroot (n pn u v : N) : M bool :=
  if n =? u then ret true else
  if n =? v then ret true else
  ok <- prune n pn ;;
  if negb ok then ret false else
  b <- remove_edge u v ;;
  if negb b then ret false else
  add_edge n u ;;
  add_edge n v ;;
  ret true.

(** ** Connectivity scan

    [is_connected()] and [components()] share their marking loops.  The
    inner loop is written over [adjacent(n)], with [n] the [Node]
    reference of the outer loop; [adjacent] is declared for a node id
    only (tree.h:219, 222, 238), so neither member can be instantiated
    as written.  The model passes the id [i = idx(n)], which the loop
    computes on the line before: [adjacent(i)], the adjacency of the
    node at position [i] of the store. *)

(** [BOOST_FOREACH(j, adjacent(n)) if (j>i) visited[j] = 1;] *)
Fixpoint mark_larger (i : N) (adj : list N) (visited : list bool)
  : outcome (list bool) :=
  match adj with
  | [] => Done visited
  | j :: r =>
      if i <? j
      then match nth_N visited j with
           | Some _ => mark_larger i r (set_nth visited (N.to_nat j) true)
           | None => OutOfBounds
           end
      else mark_larger i r visited
  end.

(** The outer loop over [nodes23]; [i] is [idx(n)], the position of the
    node [n] in the store, and the inner loop runs over the adjacency of
    that node (the call [adjacent(n)] read as [adjacent(i)], see
    above). *)
Fixpoint scan_nodes (i : N) (ns : list AdjacentList.t) (visited : list bool)
  : outcome (list bool) :=
  match ns with
  | [] => Done visited
  | adj :: r =>
      match mark_larger i adj visited with
      | Done visited' => scan_nodes (i + 1) r visited'
      | OutOfBounds => OutOfBounds
      | OutOfFuel => OutOfFuel
      | Fatal => Fatal
      end
  end.

(** The bitset after [visited[0] = 1] and the marking loops. *)
Definition visited_bits (t : Tree) : outcome (list bool) :=
  match nodes23 t with
  | [] => OutOfBounds
  | _ :: _ =>
      scan_nodes 0 (nodes23 t)
        (set_nth (repeat false (length (nodes23 t))) 0%nat true)
  end.

Definition count_unvisited (visited : list bool) (comp : N) : N :=
  fold_left (fun (c : N) (b : bool) => if b then c else uint_incr c)
    visited comp.

Definition components : M N :=
  fun t => match visited_bits t with
           | Done visited => Done (count_unvisited visited 1, t)
           | OutOfBounds => OutOfBounds
           | OutOfFuel => OutOfFuel
           | Fatal => Fatal
           end.

Definition is_connected : M bool :=
  fun t => match visited_bits t with
           | Done visited => Done (forallb (fun b => b) visited, t)
           | OutOfBounds => OutOfBounds
           | OutOfFuel => OutOfFuel
           | Fatal => Fatal
           end.

(** ** The depth-first iterator *)

Module Iterator_dfs.

(** [dfs_item]: a node with the cursor over its children and their end. *)
Record dfs_item : Type := mkItem {
  first : N;
  second : ChildrenList.Iterator;
  third : ChildrenList.Iterator
}.

(** The head of [dfs_stack] is the back of the vector. *)
Record t : Type := mk {
  idx : N;
  lvl : N;
  parent : N;
  direction : traversal_states;
  dfs_stack : list dfs_item
}.

(** The constructors set [ptr] and [idx] only; [lvl], [parent] and
    [direction] keep what their storage held. *)
Record storage : Type := mkStorage {
  s_lvl : N;
  s_parent : N;
  s_direction : traversal_states
}.

Definition raw (s : storage) (idx_ : N) : t :=
  mk idx_ (s_lvl s) (s_parent s) (s_direction s) [].

Definition dfs_end (it : t) : bool :=
  match dfs_stack it with [] => true | _ :: _ => false end.

Definition get_parent (stack : list dfs_item) : N :=
  match stack with
  | _ :: w :: _ => first w
  | _ => NONODE
  end.

(** Push the frame of [v] seen from parent [p]. *)
Definition push_children (tr : Tree) (v p : N) (stack : list dfs_item)
  : outcome (list dfs_item) :=
  match nth_N (nodes23 tr) v with
  | Some adj =>
      Done (mkItem v (ChildrenList.begin adj p) (ChildrenList.end_ p) :: stack)
  | None => OutOfBounds
  end.

(** [dfs_init(v,p)].  The capacity request [dfs_stack.reserve(...)] at its
    head does not touch the contents of the stack and is left out. *)
Definition dfs_init2 (tr : Tree) (v p : N) (it : t) : outcome t :=
  match push_children tr v p (dfs_stack it) with
  | Done stack => Done (mk v 0 p PREORDER stack)
  | OutOfBounds => OutOfBounds
  | OutOfFuel => OutOfFuel
  | Fatal => Fatal
  end.

(** [dfs_init()].  The [WARNING] printed for a tree without root has no
    effect on the state. *)
Definition dfs_init (tr : Tree) (it : t) : outcome t :=
  let root_ := if root tr =? NONODE then 0 else root tr in
  let it1 :=
    match nodes23 tr with
    | [] => mk UINT_MAX 0 UINT_MAX NOTRAVERSAL (dfs_stack it)
    | _ :: _ => mk root_ 0 NONODE PREORDER (dfs_stack it)
    end in
  match push_children tr (idx it1) (parent it1) (dfs_stack it1) with
  | Done stack =>
      Done (mk (idx it1) (lvl it1) (parent it1) (direction it1) stack)
  | OutOfBounds => OutOfBounds
  | OutOfFuel => OutOfFuel
  | Fatal => Fatal
  end.

(** The two constructors. *)
Definition make (s : storage) (idx_ : N) (tr : Tree) : outcome t :=
  if negb (idx_ =? N.of_nat (length (nodes23 tr)))
  then dfs_init tr (raw s idx_) else Done (raw s idx_).

Definition make2 (s : storage) (idx_ : N) (tr : Tree) (v p : N) : outcome t :=
  if negb (idx_ =? N.of_nat (length (nodes23 tr)))
  then dfs_init2 tr v p (raw s idx_) else Done (raw s idx_).

(** The branch "not leaf" of [dfs_next]: step down to the child under
    the cursor of the top frame [w]. *)
Definition descend (tr : Tree) (it : t) (w : dfs_item)
    (rest : list dfs_item) : outcome t :=
  match ChildrenList.deref (second w) with
  | Done (c, sec) =>
      match push_children tr c (idx it)
              (mkItem (first w) sec (third w) :: rest) with
      | Done stack => Done (mk c (uint_incr (lvl it)) (idx it) PREORDER stack)
      | OutOfBounds => OutOfBounds
      | OutOfFuel => OutOfFuel
      | Fatal => Fatal
      end
  | _ => OutOfBounds
  end.

Definition dfs_next (tr : Tree) (it : t) : outcome t :=
  match dfs_stack it with
  | [] => Done it
  | w :: rest =>
      match direction it with
      | PREORDER =>
          match ChildrenList.eq (second w) (third w) with
          | Done (true, sec) =>
              Done (mk (idx it) (lvl it) (parent it) INORDER
                       (mkItem (first w) sec (third w) :: rest))
          | Done (false, sec) =>
              descend tr it (mkItem (first w) sec (third w)) rest
          | _ => OutOfBounds
          end
      | INORDER =>
          match ChildrenList.eq (second w) (third w) with
          | Done (true, sec) =>
              Done (mk (idx it) (lvl it) (parent it) POSTORDER
                       (mkItem (first w) sec (third w) :: rest))
          | Done (false, sec) =>
              descend tr it (mkItem (first w) sec (third w)) rest
          | _ => OutOfBounds
          end
      | POSTORDER =>
          match rest with
          | [] => Done (mk UINT_MAX 0 UINT_MAX NOTRAVERSAL [])
          | w' :: rest' =>
              match ChildrenList.incr (second w') with
              | Done sec1 =>
                  match ChildrenList.eq sec1 (third w') with
                  | Done (b, sec2) =>
                      Done (mk (first w') (uint_decr (lvl it))
                               (get_parent rest)
                               (if b then POSTORDER else INORDER)
                               (mkItem (first w') sec2 (third w') :: rest'))
                  | _ => OutOfBounds
                  end
              | _ => OutOfBounds
              end
          end
      | NOTRAVERSAL => Fatal
      end
  end.

(** [operator++] *)
Definition incr (tr : Tree) (it : t) : outcome t :=
  match dfs_next tr it with
  | Done it' =>
      if dfs_end it'
      then Done (mk (N.of_nat (length (nodes23 tr))) (lvl it') (parent it')
                    (direction it') (dfs_stack it'))
      else Done it'
  | o => o
  end.

Definition eq (l r : t) : bool := idx l =? idx r.
Definition neq (l r : t) : bool := negb (idx l =? idx r).

End Iterator_dfs.

Definition begin_dfs (s : Iterator_dfs.storage) (tr : Tree)
  : outcome Iterator_dfs.t := Iterator_dfs.make s 0 tr.

Definition begin_dfs2 (s : Iterator_dfs.storage) (tr : Tree) (v p : N)
  : outcome Iterator_dfs.t := Iterator_dfs.make2 s 0 tr v p.

Definition end_dfs (s : Iterator_dfs.storage) (tr : Tree)
  : outcome Iterator_dfs.t :=
  Iterator_dfs.make s (N.of_nat (length (nodes23 tr))) tr.

(** An event of the traversal is what a loop body reads from the iterator:
    the node and the direction. *)
Abbreviation event := (N * traversal_states)%type (only parsing).

(** [for (it = first; it != end_dfs(); ++it) visit(it.idx, it.direction);]
    gives the list of what was visited. *)
Fixpoint traverse (fuel : nat) (tr : Tree) (it : Iterator_dfs.t)
  : outcome (list event) :=
  if Iterator_dfs.idx it =? N.of_nat (length (nodes23 tr)) then Done []
  else match fuel with
       | O => OutOfFuel
       | S f =>
           match Iterator_dfs.incr tr it with
           | Done it' =>
               match traverse f tr it' with
               | Done evs =>
                   Done ((Iterator_dfs.idx it, Iterator_dfs.direction it) :: evs)
               | o => o
               end
           | OutOfBounds => OutOfBounds
           | OutOfFuel => OutOfFuel
           | Fatal => Fatal
           end
       end.

(** ** The iterators over node ids *)

(** [Iterator_allnodes] is the id [idx]. *)
Module Iterator_allnodes.

Definition eq (l r : N) : bool := l =? r.
Definition neq (l r : N) : bool := negb (l =? r).
Definition incr (idx : N) : N := uint_incr idx.
Definition deref (idx : N) : N := idx.

End Iterator_allnodes.

Definition begin_ : M N := ret 0.
Definition end_ : M N := node_size.

(** [Iterator_leafnodes] and [Iterator_internalnodes] are one text up to
    the negation in front of [is_leaf]: [leaf] is [true] for the former
    and [false] for the latter, and [wanted] is the test [is_leaf(idx)],
    respectively [!is_leaf(idx)]. *)
Module Iterator_somenodes.

Section Kind.

Variable leaf : bool.

Definition wanted (idx : N) : M bool :=
  l <- is_leaf idx ;; ret (Bool.eqb l leaf).

(** [operator++]: [while (++idx < ptr->node_size()) if (wanted) break;] *)
Fixpoint incr (fuel : nat) (idx : N) : M N :=
  match fuel with
  | O => out_of_fuel
  | S f =>
      let idx1 := uint_incr idx in
      n <- node_size ;;
      if idx1 <? n
      then w <- wanted idx1 ;; if w then ret idx1 else incr f idx1
      else ret idx1
  end.

(** The constructor: when [idx != ptr->node_size()] and the id is not a
    wanted one, the iterator is incremented once. *)
Definition make (fuel : nat) (idx_ : N) : M N :=
  n <- node_size ;;
  if negb (idx_ =? n)
  then w <- wanted idx_ ;; if negb w then incr fuel idx_ else ret idx_
  else ret idx_.

End Kind.

End Iterator_somenodes.

Module Iterator_leafnodes.

Definition incr : nat -> N -> M N := Iterator_somenodes.incr true.
Definition make : nat -> N -> M N := Iterator_somenodes.make true.

End Iterator_leafnodes.

Module Iterator_internalnodes.

Definition incr : nat -> N -> M N := Iterator_somenodes.incr false.
Definition make : nat -> N -> M N := Iterator_somenodes.make false.

End Iterator_internalnodes.

Definition begin_leafnodes (fuel : nat) : M N := Iterator_leafnodes.make fuel 0.
Definition end_leafnodes (fuel : nat) : M N :=
  n <- node_size ;; Iterator_leafnodes.make fuel n.

Definition begin_internalnodes (fuel : nat) : M N :=
  Iterator_internalnodes.make fuel 0.
Definition end_internalnodes (fuel : nat) : M N :=
  n <- node_size ;; Iterator_internalnodes.make fuel n.

(** The loop [for (it = first; it != last(); ++it)] that visits the id
    under [it], written once for the three kinds of iterator: [last] is
    the call that makes the end iterator and [next] the increment. *)
Fixpoint visit_ids (last : M N) (next : N -> M N) (fuel : nat) (idx : N)
  : M (list N) :=
  match fuel with
  | O => out_of_fuel
  | S f =>
      e <- last ;;
      if Iterator_allnodes.neq idx e
      then idx' <- next idx ;;
           rest <- visit_ids last next f idx' ;;
           ret (Iterator_allnodes.deref idx :: rest)
      else ret []
  end.

Definition allnodes (fuel : nat) : M (list N) :=
  b <- begin_ ;;
  visit_ids end_ (fun idx => ret (Iterator_allnodes.incr idx)) fuel b.

Definition leafnodes (fuel : nat) : M (list N) :=
  b <- begin_leafnodes fuel ;;
  visit_ids (end_leafnodes fuel) (Iterator_leafnodes.incr fuel) fuel b.

Definition internalnodes (fuel : nat) : M (list N) :=
  b <- begin_internalnodes fuel ;;
  visit_ids (end_internalnodes fuel) (Iterator_internalnodes.incr fuel) fuel b.

(** ** The iterators derived from the depth-first iterator *)

(** [direction == d] *)
Definition same_direction (a b : traversal_states) : bool :=
  match a, b with
  | PREORDER, PREORDER | INORDER, INORDER
  | POSTORDER, POSTORDER | NOTRAVERSAL, NOTRAVERSAL => true
  | _, _ => false
  end.

(** [Iterator_eulertour], [Iterator_preorder], [Iterator_inorder] and
    [Iterator_postorder] are one text up to the body of [is_candidate],
    which is the parameter here. *)
Module Iterator_selected.

Section Candidate.

Variable is_candidate : Tree -> Iterator_dfs.t -> outcome bool.

(** [operator++]: [dfs_next()] is repeated until the traversal has ended,
    where [idx] becomes [ptr->node_size()], or a candidate is reached. *)
Fixpoint incr (fuel : nat) (tr : Tree) (it : Iterator_dfs.t)
  : outcome Iterator_dfs.t :=
  match fuel with
  | O => OutOfFuel
  | S f =>
      match Iterator_dfs.dfs_next tr it with
      | Done it1 =>
          if Iterator_dfs.dfs_end it1
          then Done (Iterator_dfs.mk (N.of_nat (length (nodes23 tr)))
                       (Iterator_dfs.lvl it1) (Iterator_dfs.parent it1)
                       (Iterator_dfs.direction it1)
                       (Iterator_dfs.dfs_stack it1))
          else match is_candidate tr it1 with
               | Done true => Done it1
               | Done false => incr f tr it1
               | OutOfBounds => OutOfBounds
               | OutOfFuel => OutOfFuel
               | Fatal => Fatal
               end
      | OutOfBounds => OutOfBounds
      | OutOfFuel => OutOfFuel
      | Fatal => Fatal
      end
  end.

(** The body of the two constructors, run on what the constructor of
    [Iterator_dfs] has built: when [idx != ptr->node_size()] and the state
    is no candidate, the iterator is incremented once. *)
Definition settle (fuel : nat) (tr : Tree) (base : outcome Iterator_dfs.t)
  : outcome Iterator_dfs.t :=
  match base with
  | Done it =>
      if negb (Iterator_dfs.idx it =? N.of_nat (length (nodes23 tr)))
      then match is_candidate tr it with
           | Done true => Done it
           | Done false => incr fuel tr it
           | OutOfBounds => OutOfBounds
           | OutOfFuel => OutOfFuel
           | Fatal => Fatal
           end
      else Done it
  | o => o
  end.

Definition make (fuel : nat) (s : Iterator_dfs.storage) (idx_ : N) (tr : Tree)
  : outcome Iterator_dfs.t :=
  settle fuel tr (Iterator_dfs.make s idx_ tr).

Definition make2 (fuel : nat) (s : Iterator_dfs.storage) (idx_ : N)
    (tr : Tree) (v p : N) : outcome Iterator_dfs.t :=
  settle fuel tr (Iterator_dfs.make2 s idx_ tr v p).

(** [for (it = first; it != end; ++it) visit(it.idx, it.direction);] *)
Fixpoint traverse (fuel : nat) (tr : Tree) (it : Iterator_dfs.t)
  : outcome (list event) :=
  if Iterator_dfs.idx it =? N.of_nat (length (nodes23 tr)) then Done []
  else match fuel with
       | O => OutOfFuel
       | S f =>
           match incr fuel tr it with
           | Done it' =>
               match traverse f tr it' with
               | Done evs =>
                   Done ((Iterator_dfs.idx it, Iterator_dfs.direction it) :: evs)
               | o => o
               end
           | OutOfBounds => OutOfBounds
           | OutOfFuel => OutOfFuel
           | Fatal => Fatal
           end
       end.

End Candidate.

End Iterator_selected.

Module Iterator_eulertour.

(** [(!ptr->is_leaf(idx)) || (direction == INORDER)] *)
Definition is_candidate (tr : Tree) (it : Iterator_dfs.t) : outcome bool :=
  match is_leaf (Iterator_dfs.idx it) tr with
  | Done (l, _) =>
      Done (negb l || same_direction (Iterator_dfs.direction it) INORDER)
  | OutOfBounds => OutOfBounds
  | OutOfFuel => OutOfFuel
  | Fatal => Fatal
  end.

End Iterator_eulertour.

Module Iterator_preorder.

Definition is_candidate (tr : Tree) (it : Iterator_dfs.t) : outcome bool :=
  Done (same_direction (Iterator_dfs.direction it) PREORDER).

End Iterator_preorder.

Module Iterator_inorder.

Definition is_candidate (tr : Tree) (it : Iterator_dfs.t) : outcome bool :=
  Done (same_direction (Iterator_dfs.direction it) INORDER).

End Iterator_inorder.

Module Iterator_postorder.

Definition is_candidate (tr : Tree) (it : Iterator_dfs.t) : outcome bool :=
  Done (same_direction (Iterator_dfs.direction it) POSTORDER).

End Iterator_postorder.

(** [begin_x()], [begin_x(v,p)] (with [begin_x(v)] its case [p = NONODE])
    and [end_x()] for the four derived iterators. *)
Definition begin_eulertour (fuel : nat) (s : Iterator_dfs.storage) (tr : Tree)
  : outcome Iterator_dfs.t :=
  Iterator_selected.make Iterator_eulertour.is_candidate fuel s 0 tr.
Definition begin_eulertour2 (fuel : nat) (s : Iterator_dfs.storage)
    (tr : Tree) (v p : N) : outcome Iterator_dfs.t :=
  Iterator_selected.make2 Iterator_eulertour.is_candidate fuel s 0 tr v p.
Definition end_eulertour (fuel : nat) (s : Iterator_dfs.storage) (tr : Tree)
  : outcome Iterator_dfs.t :=
  Iterator_selected.make Iterator_eulertour.is_candidate fuel s
    (N.of_nat (length (nodes23 tr))) tr.

Definition begin_preorder (fuel : nat) (s : Iterator_dfs.storage) (tr : Tree)
  : outcome Iterator_dfs.t :=
  Iterator_selected.make Iterator_preorder.is_candidate fuel s 0 tr.
Definition begin_preorder2 (fuel : nat) (s : Iterator_dfs.storage)
    (tr : Tree) (v p : N) : outcome Iterator_dfs.t :=
  Iterator_selected.make2 Iterator_preorder.is_candidate fuel s 0 tr v p.
Definition end_preorder (fuel : nat) (s : Iterator_dfs.storage) (tr : Tree)
  : outcome Iterator_dfs.t :=
  Iterator_selected.make Iterator_preorder.is_candidate fuel s
    (N.of_nat (length (nodes23 tr))) tr.

Definition begin_inorder (fuel : nat) (s : Iterator_dfs.storage) (tr : Tree)
  : outcome Iterator_dfs.t :=
  Iterator_selected.make Iterator_inorder.is_candidate fuel s 0 tr.
Definition begin_inorder2 (fuel : nat) (s : Iterator_dfs.storage)
    (tr : Tree) (v p : N) : outcome Iterator_dfs.t :=
  Iterator_selected.make2 Iterator_inorder.is_candidate fuel s 0 tr v p.
Definition end_inorder (fuel : nat) (s : Iterator_dfs.storage) (tr : Tree)
  : outcome Iterator_dfs.t :=
  Iterator_selected.make Iterator_inorder.is_candidate fuel s
    (N.of_nat (length (nodes23 tr))) tr.

Definition begin_postorder (fuel : nat) (s : Iterator_dfs.storage) (tr : Tree)
  : outcome Iterator_dfs.t :=
  Iterator_selected.make Iterator_postorder.is_candidate fuel s 0 tr.
Definition begin_postorder2 (fuel : nat) (s : Iterator_dfs.storage)
    (tr : Tree) (v p : N) : outcome Iterator_dfs.t :=
  Iterator_selected.make2 Iterator_postorder.is_candidate fuel s 0 tr v p.
Definition end_postorder (fuel : nat) (s : Iterator_dfs.storage) (tr : Tree)
  : outcome Iterator_dfs.t :=
  Iterator_selected.make Iterator_postorder.is_candidate fuel s
    (N.of_nat (length (nodes23 tr))) tr.

(** The loop [for (it = first; it != end_x(); ++it)] of each of them. *)
Definition traverse_eulertour : nat -> Tree -> Iterator_dfs.t -> outcome (list event) :=
  Iterator_selected.traverse Iterator_eulertour.is_candidate.
Definition traverse_preorder : nat -> Tree -> Iterator_dfs.t -> outcome (list event) :=
  Iterator_selected.traverse Iterator_preorder.is_candidate.
Definition traverse_inorder : nat -> Tree -> Iterator_dfs.t -> outcome (list event) :=
  Iterator_selected.traverse Iterator_inorder.is_candidate.
Definition traverse_postorder : nat -> Tree -> Iterator_dfs.t -> outcome (list event) :=
  Iterator_selected.traverse Iterator_postorder.is_candidate.

(** ** Further members of the depth-first iterator *)

(** [Iterator_dfs::skip()]: the cursor of the top frame is set to its end.
    On an empty stack [*dfs_stack.rbegin()] is out of bounds. *)
Definition dfs_skip (it : Iterator_dfs.t) : outcome Iterator_dfs.t :=
  match Iterator_dfs.dfs_stack it with
  | [] => OutOfBounds
  | w :: rest =>
      Done (Iterator_dfs.mk (Iterator_dfs.idx it) (Iterator_dfs.lvl it)
              (Iterator_dfs.parent it) (Iterator_dfs.direction it)
              (Iterator_dfs.mkItem (Iterator_dfs.first w)
                 (Iterator_dfs.third w) (Iterator_dfs.third w) :: rest))
  end.

(** [n] times [operator++]. *)
Fixpoint advance (n : nat) (tr : Tree) (it : Iterator_dfs.t)
  : outcome Iterator_dfs.t :=
  match n with
  | O => Done it
  | S k =>
      match Iterator_dfs.incr tr it with
      | Done it' => advance k tr it'
      | o => o
      end
  end.

(** * Vocabulary of the statements *)

Definition node_count (t : Tree) : N := N.of_nat (length (nodes23 t)).

(** The adjacency of [v] as a plain list ([[]] outside the store). *)
Definition adj_of (t : Tree) (v : N) : list N :=
  match nth_N (nodes23 t) v with
  | Some l => l
  | None => []
  end.

(** How many cells of [adjacent(v)] hold [w]. *)
Definition cnt (t : Tree) (v w : N) : nat := count_occ N.eq_dec (adj_of t v) w.

Definition total_degree (t : Tree) : nat :=
  list_sum (map (@length N) (nodes23 t)).

(** Reciprocity as the specification words it. *)
Definition reciprocal (t : Tree) : Prop :=
  forall u v, In u (adj_of t v) <-> In v (adj_of t u).

(** The invariant of the reachable states: adjacency cells come in
    reciprocal pairs (self loops in pairs within one list) and the edge
    counter follows the number of pairs as a 32-bit counter. *)
Record wf (t : Tree) : Prop := mk_wf {
  wf_balanced : forall u v, cnt t u v = cnt t v u;
  wf_loops : forall v, Nat.Even (cnt t v v);
  wf_count : exists E : nat,
      total_degree t = (2 * E)%nat /\
      edge_count t = N.of_nat E mod UINT_RANGE
}.

(** A member function keeps the invariant whenever it returns. *)
Definition preserves {A : Type} (m : M A) : Prop :=
  forall t a t', wf t -> m t = Done (a, t') -> wf t'.

(** The mutating operations, and a sequence of calls on one tree.  The
    results of the calls are dropped; [fuel] bounds each state-dependent
    loop. *)
Inductive operation : Type :=
| Onew_node
| Oadd_edge (v u : N)
| Oremove_edge (v u : N)
| Ocontract_edge (v u : N)
| Ocontract_chain_node (v : N)
| Ocontract_chain (v : N)
| Ocontract_all_chains
| Otrim_leaf (v : N)
| Otrim_leaves (leaves : list N)
| Otrim_leaves_rooted (leaves : list N)
| Otrim_root
| Ospr_to_root (u pu : N)
| Ospr_from_root (c r u v : N)
| Ospr (n pn u v : N)
| Oreroot (n pn u v : N)
| Odisconnect_node (v : N)
| Oclear.

Definition call (fuel : nat) (o : operation) : M unit :=
  match o with
  | Onew_node => new_node ;; ret tt
  | Oadd_edge v u => add_edge v u
  | Oremove_edge v u => remove_edge v u ;; ret tt
  | Ocontract_edge v u => contract_edge v u
  | Ocontract_chain_node v => contract_chain_node v ;; ret tt
  | Ocontract_chain v => contract_chain fuel v ;; ret tt
  | Ocontract_all_chains => contract_all_chains ;; ret tt
  | Otrim_leaf v => trim_leaf fuel v ;; ret tt
  | Otrim_leaves leaves => trim_leaves fuel leaves ;; ret tt
  | Otrim_leaves_rooted leaves => trim_leaves_rooted fuel leaves ;; ret tt
  | Otrim_root => trim_root fuel ;; ret tt
  | Ospr_to_root u pu => spr_to_root u pu ;; ret tt
  | Ospr_from_root c r u v => spr_from_root c r u v ;; ret tt
  | Ospr n pn u v => spr n pn u v ;; ret tt
  | Oreroot n pn u v => reroot n pn u v ;; ret tt
  | Odisconnect_node v => disconnect_node fuel v
  | Oclear => clear
  end.

Definition run (fuel : nat) (ops : list operation) : M unit :=
  foreach ops (call fuel).

(** The two invariants of the data model, as the specification writes
    them; [degree(v)] is the size of [adjacent(v)]. *)
Definition edge_count_is_half_degree_sum (t : Tree) : Prop :=
  edge_count t = N.of_nat (total_degree t / 2).

(** Four nodes, then 2^31 parallel edges [(0,1)] and 2^31 parallel edges
    [(2,3)]: no vector grows beyond 2^31 cells. *)
Definition many : nat := N.to_nat 2147483648.

Definition wrapping_calls : list operation :=
  repeat Onew_node 4 ++
  repeat (Oadd_edge 0 1) many ++ repeat (Oadd_edge 2 3) many.

(** A short session on six nodes, and the tree it ends with. *)
Definition sample_calls : list operation :=
  [Onew_node; Onew_node; Onew_node; Onew_node; Onew_node; Onew_node;
   Oadd_edge 0 1; Oadd_edge 1 2; Oadd_edge 2 3; Oadd_edge 2 4;
   Oadd_edge 4 5; Oadd_edge 5 5;
   Ocontract_chain_node 1; Otrim_leaf 3; Ospr 4 2 0 5].

Definition sample_tree : Tree :=
  mkTree [[2]; []; [0; 5]; []; []; [5; 5; 2]] NONODE 3.

(** A path [0 - 1 - 2] and a single node carrying a self loop. *)
Definition path3 : Tree := mkTree [[1]; [0; 2]; [1]] NONODE 2.
Definition loop1 : Tree := mkTree [[0; 0]] NONODE 1.

(** A star with centre 1 and leaves 0, 2, 3; the path [0 - 1 - 2] beside
    an edge [(3,4)]. *)
Definition star3 : Tree := mkTree [[1]; [0; 2; 3]; [1]; [1]] NONODE 3.
Definition path3_edge : Tree := mkTree [[1]; [0; 2]; [1]; [4]; [3]] NONODE 3.

(** An unrooted star: centre [c], leaves [a], [b], [d], nothing else. *)
Record is_star (t : Tree) (c a b d : N) : Prop := mk_is_star {
  star_nodes : node_count t = 4;
  star_unrooted : root t = NONODE;
  star_edges : edge_count t = 3;
  star_distinct : NoDup [c; a; b; d];
  star_centre : Permutation (adj_of t c) [a; b; d];
  star_leaf_a : adj_of t a = [c];
  star_leaf_b : adj_of t b = [c];
  star_leaf_d : adj_of t d = [c]
}.

(** [succeed_in_turn body xs t t']: the elementary steps [body x], for the
    [x] of [xs] in order, all return success and lead from [t] to [t']. *)
Fixpoint succeed_in_turn {A : Type} (body : A -> M bool) (xs : list A)
    (t t' : Tree) : Prop :=
  match xs with
  | [] => t' = t
  | x :: r => exists t1, body x t = Done (true, t1) /\
                         succeed_in_turn body r t1 t'
  end.

(** The path [1 - 0 - 2]: node 0 is a chain node, nodes 1 and 2 are not. *)
Definition chain0 : Tree := mkTree [[1; 2]; [0]; [0]] NONODE 2.

(** The node ids [0 .. node_size()-1]. *)
Definition node_ids (t : Tree) : list N :=
  map N.of_nat (seq 0 (length (nodes23 t))).

(** The connectivity scan in the words of the specification: node 0 is
    marked, and so is every node listed in the adjacency of a node with a
    strictly smaller id; the ids left unmarked are counted. *)
Definition lower_neighbour (t : Tree) (j : N) : bool :=
  existsb (fun i => (i <? j) && existsb (N.eqb j) (adj_of t i)) (node_ids t).

Definition unmarked (t : Tree) : list N :=
  filter (fun j => negb ((j =? 0) || lower_neighbour t j)) (node_ids t).

(** [asc_reach t m j]: [j] is reached from [m] along edges that each lead
    from the adjacency of a node to a node of larger id. *)
Inductive asc_reach (t : Tree) (m : N) : N -> Prop :=
| asc_here : asc_reach t m m
| asc_step (i j : N) :
    asc_reach t m i -> i < j -> In j (adj_of t i) -> asc_reach t m j.

(** The node ids split into two groups ([inA] tells them apart) with no
    edge between the groups; each group is spanned from its smallest id,
    [mA] or [mB], by ascending edges. *)
Record two_groups (t : Tree) (inA : N -> bool) (mA mB : N) : Prop :=
  mk_two_groups {
  tg_edge : forall i j, In j (adj_of t i) ->
                        j < node_count t /\ inA j = inA i;
  tg_minA : mA < node_count t /\ inA mA = true;
  tg_minB : mB < node_count t /\ inA mB = false;
  tg_spanA : forall j, j < node_count t -> inA j = true -> asc_reach t mA j;
  tg_spanB : forall j, j < node_count t -> inA j = false -> asc_reach t mB j
}.

(** Two paths, [0 - 1 - 2] and [3 - 4]. *)
Definition two_paths : Tree :=
  mkTree [[1]; [0; 2]; [1]; [4]; [3]] NONODE 3.

(** Whether some cell of [adj] holds [j] and is larger than [i]; the same
    over the node store from index [i] on. *)
Definition marked (i : N) (adj : list N) (j : N) : bool :=
  existsb (fun x => (x =? j) && (i <? x)) adj.

Fixpoint marked_from (i : N) (ns : list (list N)) (j : N) : bool :=
  match ns with
  | [] => false
  | adj :: r => marked i adj j || marked_from (i + 1) r j
  end.

(** *** The tree a traversal walks *)

(** A rooted tree of node ids. *)
#[warnings="-register-all"]
Inductive rtree : Type :=
| RNode (v : N) (cs : list rtree).

Definition rroot (r : rtree) : N := match r with RNode v _ => v end.
Definition rchildren (r : rtree) : list rtree :=
  match r with RNode _ cs => cs end.

Fixpoint ids (r : rtree) : list N :=
  match r with RNode v cs => v :: flat_map ids cs end.

(** The children of a node seen from its parent: the adjacency without one
    cell of the parent. *)
Fixpoint children_view (adj : list N) (p : N) : list N :=
  match adj with
  | [] => []
  | x :: r => if x =? p then r else x :: children_view r p
  end.

(** The rooted tree below [v] when [v] is entered from [p], by following
    [children_view] at most [depth] levels down; [None] when the store is
    left or the depth does not suffice (as on a cycle). *)
Fixpoint unfold (t : Tree) (depth : nat) (v p : N) : option rtree :=
  match depth with
  | O => None
  | S k =>
      match nth_N (nodes23 t) v with
      | None => None
      | Some adj =>
          option_map (RNode v)
            ((fix below (cs : list N) : option (list rtree) :=
                match cs with
                | [] => Some []
                | c :: rest =>
                    match unfold t k c v, below rest with
                    | Some rc, Some rr => Some (rc :: rr)
                    | _, _ => None
                    end
                end) (children_view adj p))
      end
  end.

(** The events of the depth-first traversal of a rooted tree: Enter
    (PREORDER) before the first child, Between (INORDER) once for a leaf
    and once between two consecutive children, Leave (POSTORDER) after the
    last child. *)
Fixpoint events (r : rtree) : list event :=
  match r with
  | RNode v cs =>
      (v, PREORDER) ::
      match cs with
      | [] => [(v, INORDER)]
      | c :: rest =>
          events c ++ flat_map (fun c' => (v, INORDER) :: events c') rest
      end ++ [(v, POSTORDER)]
  end.

(** [subtree s r]: [s] is [r] or lies below a child of [r]. *)
Inductive subtree (s : rtree) : rtree -> Prop :=
| sub_here : subtree s s
| sub_below (v : N) (cs : list rtree) (c : rtree) :
    In c cs -> subtree s c -> subtree s (RNode v cs).

(** [d] is a descendant of [a] in the traversal tree [r]. *)
Definition descendant (r : rtree) (a d : N) : Prop :=
  exists ra, subtree ra r /\ rroot ra = a /\
             In d (flat_map ids (rchildren ra)).

(** The parent a frame hides is none of the children it shows. *)
Inductive hides_parent (p : N) : rtree -> Prop :=
| hides_node (v : N) (cs : list rtree) :
    ~ In p (map rroot cs) ->
    (forall c, In c cs -> hides_parent v c) ->
    hides_parent p (RNode v cs).

(** The frame of [v] with cursor cells [s] and hidden parent [p]. *)
Definition frame (v : N) (s : list N) (p : N) : Iterator_dfs.dfs_item :=
  Iterator_dfs.mkItem v (ChildrenList.mkIterator s p) (ChildrenList.end_ p).

(** [Steps t it evs it']: [dfs_next] leads from [it] to [it'] through
    states that are on a node of the store with a non-empty stack; [evs]
    lists the node and direction of each state reached. *)
Inductive Steps (t : Tree) : Iterator_dfs.t -> list event -> Iterator_dfs.t -> Prop :=
| Steps_nil (it : Iterator_dfs.t) : Steps t it [] it
| Steps_cons (it it1 it2 : Iterator_dfs.t) (evs : list event) :
    Iterator_dfs.dfs_next t it = Done it1 ->
    Iterator_dfs.dfs_stack it1 <> [] ->
    Iterator_dfs.idx it1 < node_count t ->
    Steps t it1 evs it2 ->
    Steps t it ((Iterator_dfs.idx it1, Iterator_dfs.direction it1) :: evs) it2.

(** A small tree: 0 with children 1 and 4, 1 with children 2 and 3. *)
Definition bush : Tree :=
  mkTree [[1; 4]; [0; 2; 3]; [1]; [1]; [0]] NONODE 4.

Definition bush_tree : rtree :=
  RNode 0 [RNode 1 [RNode 2 []; RNode 3 []]; RNode 4 []].

(** One directed cell [x -> y] of the edge [(v,u)]. *)
Definition arc (x y v u : N) : nat :=
  if (x =? v) && (y =? u) then 1%nat else 0%nat.

(** A rooted stalk: root 0 above node 1 above node 2, which carries the
    leaves 3 and 4. *)
Definition stalk : Tree := mkTree [[1]; [0; 2]; [1; 3; 4]; [2]; [2]] 0 4.

(** [is_leaf(v)] read off the store: at most one adjacency cell. *)
Definition leaf_degree (t : Tree) (v : N) : bool :=
  N.of_nat (length (adj_of t v)) <=? 1.

(** The node ids from [i] on. *)
Definition ids_from (t : Tree) (i : nat) : list N :=
  map N.of_nat (seq i (length (nodes23 t) - i)).

(** The test of the leaf iterator ([leaf = true]) or of the internal
    iterator ([leaf = false]) on a node of the store, and the first id from
    [i] on that passes it ([node_size()] when there is none). *)
Definition wanted_id (leaf : bool) (t : Tree) (v : N) : bool :=
  Bool.eqb (leaf_degree t v) leaf.

Definition first_wanted (leaf : bool) (t : Tree) (i : nat) : N :=
  hd (node_count t) (filter (wanted_id leaf t) (ids_from t i)).

(** The ids of a rooted tree in the three classical orders; [ids] is the
    pre-order.  In [in_ids] a node stands between every two consecutive
    children, and a node without children stands once. *)
Fixpoint post_ids (r : rtree) : list N :=
  match r with RNode v cs => flat_map post_ids cs ++ [v] end.

Fixpoint in_ids (r : rtree) : list N :=
  match r with
  | RNode v cs =>
      match cs with
      | [] => [v]
      | c :: rest => in_ids c ++ flat_map (fun c' => v :: in_ids c') rest
      end
  end.

Definition at_direction (d : traversal_states) (e : event) : bool :=
  same_direction (snd e) d.

(** What [Iterator_eulertour] stops at: every event of a node with two or
    more neighbours, and the Between events of the others. *)
Definition tour_stop (t : Tree) (e : event) : bool :=
  negb (leaf_degree t (fst e)) || same_direction (snd e) INORDER.

(** The two directed cells of the edge [(v,u)], counted at the cell
    [x -> y]: a tree gains the edge when every [cnt t x y] grows by this
    much, and loses it when it shrinks by as much. *)
Definition edge_cells (x y v u : N) : nat := (arc x y v u + arc x y u v)%nat.

(** A binary tree rooted at 0: the root has children 1 and 2, node 1 has
    children 3 and 4, node 2 has children 5 and 6. *)
Definition binary7 : Tree :=
  mkTree [[1; 2]; [0; 3; 4]; [0; 5; 6]; [1]; [1]; [2]; [2]] 0 6.

(** What the public fields of the iterator tell while its stack is not
    empty: [idx] is the node of the top frame, [lvl] the number of frames
    below it, as a 32-bit counter, and [parent] the node of the frame below
    ([NONODE] when there is none), or still the parent [p0] given at the
    start while the traversal has not returned to the start node. *)
Definition dfs_shape (p0 : N) (it : Iterator_dfs.t) : Prop :=
  match Iterator_dfs.dfs_stack it with
  | [] => True
  | w :: rest =>
      Iterator_dfs.idx it = Iterator_dfs.first w /\
      Iterator_dfs.lvl it = N.of_nat (length rest) mod UINT_RANGE /\
      (Iterator_dfs.parent it = Iterator_dfs.get_parent (w :: rest) \/
       (rest = [] /\ Iterator_dfs.parent it = p0))
  end.

(** A triangle: every node has degree 2 and there is no root. *)
Definition triangle : Tree := mkTree [[1; 2]; [0; 2]; [0; 1]] NONODE 3.

(** [chain_steps stack t done stack' t']: started with [stack] in the
    state [t], the loop of [contract_chain] has gone through the rounds of
    the nodes [done], in this order, each with a successful contraction;
    [stack'] and [t'] are its stack and the tree after the last of them.
    A round takes the top [u] off the stack, pushes the neighbours of [u]
    that have degree 2, in the order of the adjacency, and contracts
    [u]. *)
Inductive chain_steps : list N -> Tree -> list N -> list N -> Tree -> Prop :=
| chain_steps_nil stack t : chain_steps stack t [] stack t
| chain_steps_cons u rest t l stack1 t1 done stack' t' :
    adjacent u t = Done (l, t) ->
    push_chain_nodes l rest t = Done (stack1, t) ->
    contract_chain_node u t = Done (true, t1) ->
    chain_steps stack1 t1 done stack' t' ->
    chain_steps (u :: rest) t (u :: done) stack' t'.

(** The path [3 - 1 - 0 - 2 - 4] rooted at node 2. *)
Definition path5_rooted : Tree :=
  mkTree [[1; 2]; [3; 0]; [0; 4]; [1]; [2]] 2 4.

(** * Lemmas and theorems *)

(** ** The model on small inputs *)

(** [remove] overwrites the first matching cell with the last one. *)
Example remove_moves_last_cell :
  AdjacentList.remove 2 [1; 2; 3; 4] = Some [1; 4; 3] /\
  AdjacentList.remove 4 [1; 2; 3; 4] = Some [1; 2; 3] /\
  AdjacentList.remove 5 [1; 2; 3; 4] = None.
Proof. repeat split. Qed.

(** The stored counters wrap around. *)
Example uint_wraps :
  uint_incr UINT_MAX = 0 /\ uint_decr 0 = UINT_MAX /\ uint_decr 7 = 6.
Proof. repeat split. Qed.

(** [remove_edge] on a missing edge answers [false]; when only the second
    direction is missing the first cell is already gone. *)
Example remove_edge_half_done :
  remove_edge 0 1 (mkTree [[1]; []] NONODE 1)
  = Done (false, mkTree [[]; []] NONODE 1).
Proof. reflexivity. Qed.

(** Reading a node outside the store is a fault of the model. *)
Example adjacent_outside_store :
  adjacent 3 (mkTree [[1]; [0]] NONODE 1) = OutOfBounds.
Proof. reflexivity. Qed.

(** ** Vectors *)

Lemma nth_N_Some {A : Type} (l : list A) (v : N) (x : A) :
  nth_N l v = Some x <-> nth_error l (N.to_nat v) = Some x.
Proof.
  unfold nth_N. destruct (N.ltb_spec v (N.of_nat (length l))) as [Hlt|Hge].
  - tauto.
  - split; [discriminate|]. intros H.
    assert (N.to_nat v < length l)%nat
      by (apply nth_error_Some; congruence).
    lia.
Qed.

Lemma nth_N_lt {A : Type} (l : list A) (v : N) :
  v < N.of_nat (length l) <-> exists x, nth_N l v = Some x.
Proof.
  split.
  - intros H. destruct (nth_error l (N.to_nat v)) as [x|] eqn:E.
    + exists x. now apply nth_N_Some.
    + apply nth_error_None in E. lia.
  - intros [x Hx]. unfold nth_N in Hx.
    destruct (N.ltb_spec v (N.of_nat (length l))); [assumption|discriminate].
Qed.

Lemma nth_N_None {A : Type} (l : list A) (v : N) :
  nth_N l v = None <-> N.of_nat (length l) <= v.
Proof.
  unfold nth_N. destruct (N.ltb_spec v (N.of_nat (length l))) as [Hlt|Hge].
  - split; [|lia]. intros H. apply nth_error_None in H. lia.
  - tauto.
Qed.

Lemma set_nth_length {A : Type} (l : list A) (i : nat) (x : A) :
  length (set_nth l i x) = length l.
Proof.
  revert i; induction l as [|y r IH]; intros [|i]; simpl; auto.
Qed.

Lemma nth_error_set_nth {A : Type} (l : list A) (i j : nat) (x : A) :
  (i < length l)%nat ->
  nth_error (set_nth l i x) j = if Nat.eqb j i then Some x else nth_error l j.
Proof.
  revert i j; induction l as [|y r IH]; intros i j Hi; simpl in Hi; [lia|].
  destruct i as [|i], j as [|j]; simpl; auto.
  apply IH. lia.
Qed.

Lemma nth_N_set_nth {A : Type} (l : list A) (v w : N) (x : A) :
  v < N.of_nat (length l) ->
  nth_N (set_nth l (N.to_nat v) x) w = if w =? v then Some x else nth_N l w.
Proof.
  intros Hv. unfold nth_N. rewrite set_nth_length.
  destruct (N.ltb_spec w (N.of_nat (length l))) as [Hw|Hw].
  - rewrite nth_error_set_nth by lia.
    destruct (N.eqb_spec w v) as [->|Hne].
    + now rewrite Nat.eqb_refl.
    + destruct (Nat.eqb_spec (N.to_nat w) (N.to_nat v)); [lia|reflexivity].
  - destruct (N.eqb_spec w v); [lia|reflexivity].
Qed.

Lemma list_sum_set_nth (l : list (list N)) (i : nat) (x old : list N) :
  nth_error l i = Some old ->
  (list_sum (map (@length N) (set_nth l i x)) + length old
   = list_sum (map (@length N) l) + length x)%nat.
Proof.
  revert i; induction l as [|y r IH]; intros [|i] H; simpl in *;
    try discriminate.
  - injection H as ->. lia.
  - specialize (IH _ H). lia.
Qed.

(** ** The monad *)

Lemma bind_Done {A B : Type} (m : M A) (k : A -> M B) t b t' :
  bind m k t = Done (b, t') ->
  exists a t1, m t = Done (a, t1) /\ k a t1 = Done (b, t').
Proof.
  unfold bind. destruct (m t) as [[a t1]| | |]; try discriminate.
  intros H. now exists a, t1.
Qed.

Lemma ret_Done {A : Type} (a b : A) t t' :
  ret a t = Done (b, t') -> b = a /\ t' = t.
Proof. unfold ret. intros H. injection H as <- <-. auto. Qed.

Lemma adjacent_Done v t l t' :
  adjacent v t = Done (l, t') ->
  t' = t /\ v < node_count t /\ adj_of t v = l.
Proof.
  unfold adjacent, adj_of, node_count.
  destruct (nth_N (nodes23 t) v) eqn:E; [|discriminate].
  intros H. injection H as <- <-. repeat split; auto.
  apply nth_N_lt. eauto.
Qed.

Lemma adjacent_total v t :
  v < node_count t -> adjacent v t = Done (adj_of t v, t).
Proof.
  unfold adjacent, adj_of, node_count. intros H.
  apply nth_N_lt in H. destruct H as [l ->]. reflexivity.
Qed.

Lemma adjacent_out v t :
  node_count t <= v -> adjacent v t = OutOfBounds.
Proof.
  unfold adjacent, node_count. intros H.
  apply nth_N_None in H. now rewrite H.
Qed.

Lemma adj_of_out v t : node_count t <= v -> adj_of t v = [].
Proof.
  unfold adj_of, node_count. intros H. apply nth_N_None in H. now rewrite H.
Qed.

Lemma set_adjacent_Done v l t u t' :
  set_adjacent v l t = Done (u, t') ->
  v < node_count t /\
  node_count t' = node_count t /\ root t' = root t /\
  edge_count t' = edge_count t /\
  (total_degree t' + length (adj_of t v) = total_degree t + length l)%nat /\
  forall w, adj_of t' w = if w =? v then l else adj_of t w.
Proof.
  unfold set_adjacent. destruct (nth_N (nodes23 t) v) as [old|] eqn:E;
    [|discriminate].
  intros H. injection H as _ <-.
  assert (Hv : v < node_count t) by (apply nth_N_lt; eauto).
  unfold node_count, total_degree, adj_of in *. simpl.
  rewrite set_nth_length, E. repeat split; auto.
  - apply list_sum_set_nth. now apply nth_N_Some.
  - intros w. rewrite nth_N_set_nth by assumption. now destruct (w =? v).
Qed.

Lemma set_adjacent_total v l t :
  v < node_count t -> exists t', set_adjacent v l t = Done (tt, t').
Proof.
  unfold set_adjacent, node_count. intros H.
  apply nth_N_lt in H. destruct H as [x ->]. eauto.
Qed.

Lemma same_nodes_adj_of t t' :
  nodes23 t' = nodes23 t -> forall w, adj_of t' w = adj_of t w.
Proof. unfold adj_of. now intros ->. Qed.

Lemma same_nodes_total t t' :
  nodes23 t' = nodes23 t -> total_degree t' = total_degree t.
Proof. unfold total_degree. now intros ->. Qed.

Lemma same_nodes_count t t' :
  nodes23 t' = nodes23 t -> node_count t' = node_count t.
Proof. unfold node_count. now intros ->. Qed.

Lemma set_root_Done r t u t' :
  set_root r t = Done (u, t') ->
  nodes23 t' = nodes23 t /\ root t' = r /\ edge_count t' = edge_count t.
Proof. unfold set_root. intros H. injection H as _ <-. auto. Qed.

Lemma incr_edge_count_Done t u t' :
  incr_edge_count t = Done (u, t') ->
  nodes23 t' = nodes23 t /\ root t' = root t /\
  edge_count t' = uint_incr (edge_count t).
Proof. unfold incr_edge_count. intros H. injection H as _ <-. auto. Qed.

Lemma decr_edge_count_Done t u t' :
  decr_edge_count t = Done (u, t') ->
  nodes23 t' = nodes23 t /\ root t' = root t /\
  edge_count t' = uint_decr (edge_count t).
Proof. unfold decr_edge_count. intros H. injection H as _ <-. auto. Qed.

Lemma get_root_Done t r t' :
  get_root t = Done (r, t') -> r = root t /\ t' = t.
Proof. unfold get_root. intros H. injection H as <- <-. auto. Qed.

(** Break a hypothesis [m t = Done _] along the binds of [m]. *)
Ltac inv_step H :=
  match type of H with
  | bind _ _ _ = Done _ =>
      let a := fresh "a" in let t1 := fresh "t" in let H1 := fresh "H" in
      apply bind_Done in H; destruct H as (a & t1 & H1 & H);
      inv_step H1; inv_step H
  | ret _ _ = Done (_, ?t') =>
      let E := fresh "Hret" in
      apply ret_Done in H; destruct H as [E H];
      first [subst t' | rewrite H in * ]; try subst
  | adjacent _ _ = Done (_, ?t') =>
      let E := fresh "Hadj" in let L := fresh "Hlt" in
      apply adjacent_Done in H; destruct H as (H & L & E);
      first [subst t' | rewrite H in * ]; try (rewrite <- E in * )
  | get_root _ = Done (_, ?t') =>
      let E := fresh "Hroot" in
      apply get_root_Done in H; destruct H as [E H];
      first [subst t' | rewrite H in * ]; try (rewrite E in * )
  | _ => idtac
  end.

(** ** AdjacentList *)

Lemma remove_Permutation v l l' :
  AdjacentList.remove v l = Some l' -> Permutation l (v :: l').
Proof.
  revert l'; induction l as [|x rest IH]; intros l' H; simpl in H.
  - discriminate.
  - destruct (N.eqb_spec x v) as [->|Hne].
    + injection H as <-. constructor.
      destruct rest as [|y r]; [constructor|].
      rewrite (app_removelast_last v (l := y :: r)) at 1 by discriminate.
      apply Permutation_sym, Permutation_cons_append.
    + destruct (AdjacentList.remove v rest) as [r'|]; [|discriminate].
      injection H as <-. specialize (IH _ eq_refl).
      etransitivity; [apply perm_skip, IH|apply perm_swap].
Qed.

Lemma remove_None v l : AdjacentList.remove v l = None <-> ~ In v l.
Proof.
  induction l as [|x rest IH]; simpl.
  - tauto.
  - destruct (N.eqb_spec x v) as [->|Hne].
    + split; [discriminate|]. intros H. exfalso. auto.
    + destruct (AdjacentList.remove v rest); simpl.
      * split; [discriminate|]. intros H. exfalso.
        apply H. right.
        destruct (in_dec N.eq_dec v rest) as [Hi|Hi]; [assumption|].
        apply IH in Hi. discriminate.
      * split; [|reflexivity]. intros _ [Heq|Hin]; [congruence|].
        now apply IH in Hin.
Qed.

Lemma remove_In v l : In v l -> exists l', AdjacentList.remove v l = Some l'.
Proof.
  intros H. destruct (AdjacentList.remove v l) as [l'|] eqn:E; [eauto|].
  apply remove_None in E. contradiction.
Qed.

(** ** The edge primitives on the adjacency view *)

Lemma arc_sym x y v u : arc x y v u = arc y x u v.
Proof. unfold arc. now rewrite andb_comm. Qed.

Lemma count_occ_if (b : bool) (w y : N) :
  count_occ N.eq_dec (if b then [w] else []) y
  = if b && (y =? w) then 1%nat else 0%nat.
Proof.
  destruct b; simpl; [|reflexivity].
  destruct (N.eq_dec w y) as [->|Hne].
  - now rewrite N.eqb_refl.
  - destruct (N.eqb_spec y w); [congruence|reflexivity].
Qed.

Lemma add_edge_spec v u t x t' :
  add_edge v u t = Done (x, t') ->
  v < node_count t /\ u < node_count t /\
  node_count t' = node_count t /\ root t' = root t /\
  edge_count t' = uint_incr (edge_count t) /\
  total_degree t' = (total_degree t + 2)%nat /\
  forall w, adj_of t' w
            = adj_of t w ++ (if w =? v then [u] else [])
                         ++ (if w =? u then [v] else []).
Proof.
  unfold add_edge. intros H.
  inv_step H.
  apply set_adjacent_Done in H0. destruct H0 as (Hv & Hn1 & Hr1 & He1 & Ht1 & Ha1).
  apply set_adjacent_Done in H1. destruct H1 as (Hu & Hn2 & Hr2 & He2 & Ht2 & Ha2).
  apply incr_edge_count_Done in H. destruct H as (Hn3 & Hr3 & He3).
  rewrite (same_nodes_count _ _ Hn3), (same_nodes_total _ _ Hn3).
  unfold AdjacentList.insert in *. rewrite length_app in Ht1, Ht2.
  simpl in Ht1, Ht2.
  repeat split; try congruence; try lia.
  intros w. rewrite (same_nodes_adj_of _ _ Hn3), Ha2, !Ha1.
  destruct (N.eqb_spec w u) as [Hwu|Hwu]; destruct (N.eqb_spec w v) as [Hwv|Hwv];
    subst; try rewrite N.eqb_refl;
    try rewrite <- app_assoc; try rewrite !app_nil_r; try reflexivity.
  destruct (N.eqb_spec u v); [congruence|]. reflexivity.
Qed.

Lemma add_edge_total v u t :
  v < node_count t -> u < node_count t ->
  exists t', add_edge v u t = Done (tt, t').
Proof.
  intros Hv Hu. unfold add_edge, bind.
  rewrite (adjacent_total _ _ Hv).
  destruct (set_adjacent_total v (AdjacentList.insert u (adj_of t v)) t Hv)
    as [t1 E1].
  rewrite E1.
  apply set_adjacent_Done in E1. destruct E1 as (_ & Hn1 & _).
  assert (Hu1 : u < node_count t1) by congruence.
  rewrite (adjacent_total _ _ Hu1).
  destruct (set_adjacent_total u (AdjacentList.insert v (adj_of t1 u)) t1 Hu1)
    as [t2 E2].
  rewrite E2. unfold incr_edge_count. eauto.
Qed.

(** What [remove_edge] does when it returns [true]. *)
Lemma remove_edge_true v u t t' :
  remove_edge v u t = Done (true, t') ->
  v < node_count t /\ u < node_count t /\
  node_count t' = node_count t /\ root t' = root t /\
  edge_count t' = uint_decr (edge_count t) /\
  total_degree t = (total_degree t' + 2)%nat /\
  forall w, Permutation (adj_of t w)
              ((if w =? v then [u] else []) ++ (if w =? u then [v] else [])
               ++ adj_of t' w).
Proof.
  unfold remove_edge. intros H.
  inv_step H.
  destruct (AdjacentList.remove u (adj_of t v)) as [lv'|] eqn:E1;
    [|inv_step H; congruence].
  inv_step H.
  destruct (AdjacentList.remove v (adj_of t0 u)) as [lu'|] eqn:E2;
    [|inv_step H; congruence].
  inv_step H.
  apply set_adjacent_Done in H0. destruct H0 as (Hv & Hn1 & Hr1 & He1 & Ht1 & Ha1).
  apply set_adjacent_Done in H1. destruct H1 as (Hu & Hn2 & Hr2 & He2 & Ht2 & Ha2).
  apply decr_edge_count_Done in H2. destruct H2 as (Hn3 & Hr3 & He3).
  rewrite (same_nodes_count _ _ Hn3), (same_nodes_total _ _ Hn3).
  apply remove_Permutation in E1, E2.
  pose proof (Permutation_length E1) as L1.
  pose proof (Permutation_length E2) as L2. simpl in L1, L2.
  repeat split; try congruence; try lia.
  intros w. rewrite (same_nodes_adj_of _ _ Hn3), Ha2.
  rewrite Ha1 in E2.
  destruct (N.eqb_spec w u) as [Hwu|Hwu]; destruct (N.eqb_spec w v) as [Hwv|Hwv];
    subst; simpl.
  - rewrite N.eqb_refl in E2.
    etransitivity; [exact E1|]. now apply perm_skip.
  - destruct (N.eqb_spec u v); [congruence|]. exact E2.
  - rewrite Ha1, N.eqb_refl. exact E1.
  - rewrite Ha1. destruct (N.eqb_spec w v); [congruence|]. reflexivity.
Qed.

(** [remove_edge] returning [false]: nothing was removed, or the cell of
    [u] in [adjacent(v)] was removed and [adjacent(u)] has no cell for [v]. *)
Lemma remove_edge_false v u t t' :
  remove_edge v u t = Done (false, t') ->
  (t' = t /\ ~ In u (adj_of t v)) \/
  (exists lv', Permutation (adj_of t v) (u :: lv') /\
               ~ In v (if u =? v then lv' else adj_of t u)).
Proof.
  unfold remove_edge. intros H.
  inv_step H.
  destruct (AdjacentList.remove u (adj_of t v)) as [lv'|] eqn:E1.
  - right. exists lv'. split; [now apply remove_Permutation|].
    inv_step H.
    apply set_adjacent_Done in H0.
    destruct H0 as (Hv & Hn1 & Hr1 & He1 & Ht1 & Ha1).
    rewrite Ha1 in H.
    destruct (AdjacentList.remove v (if u =? v then lv' else adj_of t u))
      as [lu'|] eqn:E2.
    + inv_step H. congruence.
    + now apply remove_None in E2.
  - left. inv_step H. split; [reflexivity|]. now apply remove_None.
Qed.

Lemma cnt_perm t t' w l1 y :
  Permutation (adj_of t w) (l1 ++ adj_of t' w) ->
  cnt t w y = (count_occ N.eq_dec l1 y + cnt t' w y)%nat.
Proof.
  intros P. unfold cnt.
  rewrite (proj1 (Permutation_count_occ N.eq_dec _ _) P), count_occ_app.
  reflexivity.
Qed.

Lemma remove_edge_cnt v u t t' :
  remove_edge v u t = Done (true, t') ->
  forall x y, cnt t x y = (arc x y v u + arc x y u v + cnt t' x y)%nat.
Proof.
  intros H x y. apply remove_edge_true in H.
  destruct H as (_ & _ & _ & _ & _ & _ & P).
  specialize (P x). rewrite app_assoc in P.
  rewrite (cnt_perm _ _ _ _ _ P), count_occ_app, !count_occ_if.
  unfold arc. reflexivity.
Qed.

Lemma add_edge_cnt v u t a t' :
  add_edge v u t = Done (a, t') ->
  forall x y, cnt t' x y = (cnt t x y + arc x y v u + arc x y u v)%nat.
Proof.
  intros H x y. apply add_edge_spec in H.
  destruct H as (_ & _ & _ & _ & _ & _ & P).
  unfold cnt. rewrite P, !count_occ_app, !count_occ_if.
  unfold arc. lia.
Qed.

Lemma arc_loop x v u : arc x x v u = arc x x u v.
Proof. unfold arc. now rewrite andb_comm. Qed.

Lemma uint_incr_mod E :
  uint_incr (N.of_nat E mod UINT_RANGE) = N.of_nat (S E) mod UINT_RANGE.
Proof.
  unfold uint_incr. rewrite N.Div0.add_mod_idemp_l. f_equal. lia.
Qed.

Lemma uint_decr_mod E :
  uint_decr (N.of_nat (S E) mod UINT_RANGE) = N.of_nat E mod UINT_RANGE.
Proof.
  unfold uint_decr. rewrite N.Div0.add_mod_idemp_l.
  replace (N.of_nat (S E) + UINT_MAX) with (N.of_nat E + 1 * UINT_RANGE)
    by (unfold UINT_MAX, UINT_RANGE; lia).
  apply N.Div0.mod_add.
Qed.

(** ** The invariant is kept by the primitives *)

Lemma wf_add_edge v u t a t' :
  wf t -> add_edge v u t = Done (a, t') -> wf t'.
Proof.
  intros [B L (E & HE & HC)] H.
  pose proof (add_edge_cnt _ _ _ _ _ H) as C.
  apply add_edge_spec in H.
  destruct H as (_ & _ & _ & _ & He & Ht & _).
  constructor.
  - intros x y. rewrite !C, (B x y), (arc_sym x y v u), (arc_sym x y u v). lia.
  - intros x. rewrite C, (arc_loop x u v).
    destruct (L x) as [k Hk]. exists (k + arc x x v u)%nat. lia.
  - exists (S E). split; [lia|]. rewrite He, HC. apply uint_incr_mod.
Qed.

Lemma wf_remove_edge_atomic v u t t' :
  wf t -> remove_edge v u t = Done (false, t') -> t' = t.
Proof.
  intros [B L _] H. apply remove_edge_false in H.
  destruct H as [[-> _]|(lv' & P & Hn)]; [reflexivity|exfalso].
  destruct (N.eqb_spec u v) as [->|Hne].
  - specialize (L v). unfold cnt in L.
    rewrite (proj1 (Permutation_count_occ N.eq_dec _ _) P) in L.
    rewrite count_occ_cons_eq in L by reflexivity.
    apply (count_occ_not_In N.eq_dec) in Hn. rewrite Hn in L.
    destruct L as [k Hk]. lia.
  - specialize (B v u). unfold cnt in B.
    rewrite (proj1 (Permutation_count_occ N.eq_dec _ _) P) in B.
    rewrite count_occ_cons_eq in B by reflexivity.
    apply (count_occ_not_In N.eq_dec) in Hn. rewrite Hn in B. lia.
Qed.

Lemma wf_remove_edge v u t b t' :
  wf t -> remove_edge v u t = Done (b, t') -> wf t'.
Proof.
  intros W H. destruct b.
  2:{ now rewrite (wf_remove_edge_atomic _ _ _ _ W H). }
  destruct W as [B L (E & HE & HC)].
  pose proof (remove_edge_cnt _ _ _ _ H) as C.
  apply remove_edge_true in H.
  destruct H as (_ & _ & _ & _ & He & Ht & _).
  constructor.
  - intros x y. specialize (B x y). rewrite (C x y), (C y x) in B.
    rewrite (arc_sym y x v u), (arc_sym y x u v) in B. lia.
  - intros x. specialize (L x). rewrite C, (arc_loop x u v) in L.
    destruct L as [k Hk]. exists (k - arc x x v u)%nat. lia.
  - destruct E as [|E]; [lia|]. exists E. split; [lia|].
    rewrite He, HC. apply uint_decr_mod.
Qed.


Lemma wf_same_nodes t t' :
  nodes23 t' = nodes23 t -> edge_count t' = edge_count t -> wf t -> wf t'.
Proof.
  intros Hn He [B L C]. unfold cnt in *.
  constructor; unfold cnt; intros;
    rewrite ?(same_nodes_adj_of _ _ Hn), ?(same_nodes_total _ _ Hn), ?He; auto.
Qed.

Lemma wf_empty_tree : wf empty_tree.
Proof.
  assert (E : forall v, adj_of empty_tree v = [])
    by (intros v; apply adj_of_out; unfold node_count; simpl; lia).
  constructor; unfold cnt.
  - intros u v. now rewrite !E.
  - intros v. rewrite E. exists 0%nat. reflexivity.
  - exists 0%nat. split; reflexivity.
Qed.

Lemma new_node_Done t l t' :
  new_node t = Done (l, t') ->
  l = node_count t /\ node_count t' = node_count t + 1 /\
  root t' = root t /\ edge_count t' = edge_count t /\
  total_degree t' = total_degree t /\
  forall w, adj_of t' w = adj_of t w.
Proof.
  unfold new_node. intros H. injection H as <- <-.
  unfold node_count, total_degree, adj_of. simpl.
  rewrite length_app, map_app, list_sum_app. simpl.
  repeat split; try lia.
  intros w. unfold nth_N. rewrite length_app. simpl.
  destruct (N.ltb_spec w (N.of_nat (length (nodes23 t)))) as [H1|H1].
  - destruct (N.ltb_spec w (N.of_nat (length (nodes23 t) + 1))); [|lia].
    rewrite nth_error_app1 by lia. reflexivity.
  - destruct (N.ltb_spec w (N.of_nat (length (nodes23 t) + 1))) as [H2|H2];
      [|reflexivity].
    rewrite nth_error_app2 by lia.
    replace (N.to_nat w - length (nodes23 t))%nat with 0%nat by lia.
    reflexivity.
Qed.

(** ** Rules for [preserves] *)

Lemma preserves_ret {A : Type} (a : A) : preserves (ret a).
Proof. intros t b t' W H. apply ret_Done in H. now destruct H as [_ ->]. Qed.

Lemma preserves_bind {A B : Type} (m : M A) (k : A -> M B) :
  preserves m -> (forall a, preserves (k a)) -> preserves (bind m k).
Proof.
  intros Hm Hk t b t' W H. apply bind_Done in H.
  destruct H as (a & t1 & H1 & H2). eapply Hk; [|exact H2]. eapply Hm; eauto.
Qed.

Lemma preserves_fail {A : Type} (m : M A) :
  (forall t a t', m t <> Done (a, t')) -> preserves m.
Proof. intros H t a t' _ E. now apply H in E. Qed.

Lemma preserves_read {A : Type} (m : M A) :
  (forall t a t', m t = Done (a, t') -> t' = t) -> preserves m.
Proof. intros H t a t' W E. now rewrite (H _ _ _ E). Qed.

Lemma preserves_adjacent v : preserves (adjacent v).
Proof. apply preserves_read. intros t a t' H. now apply adjacent_Done in H. Qed.

Lemma preserves_get_root : preserves get_root.
Proof. apply preserves_read. intros t a t' H. now inv_step H. Qed.

Lemma preserves_set_root r : preserves (set_root r).
Proof.
  intros t a t' W H. apply set_root_Done in H. destruct H as (Hn & _ & He).
  eapply wf_same_nodes; eauto.
Qed.

Lemma preserves_new_node : preserves new_node.
Proof.
  intros t a t' [B L (E & HE & HC)] H. apply new_node_Done in H.
  destruct H as (_ & _ & _ & He & Ht & Ha).
  constructor; unfold cnt in *; intros; rewrite ?Ha; auto.
  exists E. split; congruence.
Qed.

Lemma preserves_add_edge v u : preserves (add_edge v u).
Proof. intros t a t' W H. eapply wf_add_edge; eauto. Qed.

Lemma preserves_remove_edge v u : preserves (remove_edge v u).
Proof. intros t a t' W H. eapply wf_remove_edge; eauto. Qed.

Lemma preserves_clear : preserves clear.
Proof.
  intros t a t' _ H. unfold clear in H. injection H as _ <-.
  apply wf_empty_tree.
Qed.

Lemma preserves_foreach {A : Type} (l : list A) (body : A -> M unit) :
  (forall x, preserves (body x)) -> preserves (foreach l body).
Proof.
  intros Hb. induction l as [|x r IH]; simpl.
  - apply preserves_ret.
  - apply preserves_bind; auto.
Qed.

Lemma preserves_foreach_ok {A : Type} (l : list A) (body : A -> M bool) :
  (forall x, preserves (body x)) -> preserves (foreach_ok l body).
Proof.
  intros Hb. induction l as [|x r IH]; simpl.
  - apply preserves_ret.
  - apply preserves_bind; auto. intros [|]; auto. apply preserves_ret.
Qed.

Create HintDb pres.
#[export] Hint Resolve preserves_ret preserves_adjacent preserves_get_root
  preserves_set_root preserves_new_node preserves_add_edge
  preserves_remove_edge preserves_clear : pres.

(** Walk through a member function: binds, branches, loops over
    containers, and the primitives from the hint database. *)
Ltac pres :=
  repeat first
    [ progress auto with pres
    | apply preserves_bind; [|intros ?]
    | apply preserves_foreach; intros ?
    | apply preserves_foreach_ok; intros ?
    | apply preserves_fail; intros ? ? ?; discriminate
    | match goal with
      | |- preserves (if ?b then _ else _) => destruct b
      | |- preserves (match ?x with _ => _ end) => destruct x
      end ].

Lemma preserves_degree v : preserves (degree v).
Proof. unfold degree. pres. Qed.

Lemma preserves_children_vector v p : preserves (children_vector v p).
Proof. unfold children_vector. pres. Qed.

Lemma preserves_is_rooted : preserves is_rooted.
Proof. unfold is_rooted. pres. Qed.

#[export] Hint Resolve preserves_degree preserves_children_vector
  preserves_is_rooted : pres.

Lemma preserves_contract_edge v u : preserves (contract_edge v u).
Proof. unfold contract_edge. pres. Qed.

Lemma preserves_contract_chain_node v : preserves (contract_chain_node v).
Proof. unfold contract_chain_node. pres. Qed.

#[export] Hint Resolve preserves_contract_edge preserves_contract_chain_node
  : pres.

Lemma preserves_push_chain_nodes l adj : preserves (push_chain_nodes l adj).
Proof.
  revert adj; induction l as [|i r IH]; intros adj; simpl; pres.
Qed.

#[export] Hint Resolve preserves_push_chain_nodes : pres.

Lemma preserves_contract_chain_loop fuel adj :
  preserves (contract_chain_loop fuel adj).
Proof.
  revert adj; induction fuel as [|f IH]; intros [|u rest]; simpl; pres.
Qed.

Lemma preserves_contract_chain fuel v : preserves (contract_chain fuel v).
Proof. apply preserves_contract_chain_loop. Qed.

Lemma preserves_contract_all_chains : preserves contract_all_chains.
Proof.
  intros t a t' W H. unfold contract_all_chains in H.
  revert H. apply preserves_foreach_ok; auto with pres.
Qed.

#[export] Hint Resolve preserves_contract_chain preserves_contract_all_chains
  : pres.

Lemma preserves_trim_leaf fuel v : preserves (trim_leaf fuel v).
Proof. unfold trim_leaf. pres. Qed.

#[export] Hint Resolve preserves_trim_leaf : pres.

Lemma preserves_trim_leaves fuel leaves : preserves (trim_leaves fuel leaves).
Proof. unfold trim_leaves. pres. Qed.

Lemma preserves_trim_root_loop fuel : preserves (trim_root_loop fuel).
Proof. induction fuel as [|f IH]; simpl; pres. Qed.

#[export] Hint Resolve preserves_trim_leaves preserves_trim_root_loop : pres.

Lemma preserves_trim_root fuel : preserves (trim_root fuel).
Proof. unfold trim_root. pres. Qed.

#[export] Hint Resolve preserves_trim_root : pres.

Lemma preserves_trim_leaves_rooted fuel leaves :
  preserves (trim_leaves_rooted fuel leaves).
Proof. unfold trim_leaves_rooted. pres. Qed.

Lemma preserves_disconnect_node fuel v : preserves (disconnect_node fuel v).
Proof. induction fuel as [|f IH]; simpl; pres. Qed.

Lemma preserves_prune p x : preserves (prune p x).
Proof. unfold prune. pres. Qed.

#[export] Hint Resolve preserves_trim_leaves_rooted preserves_disconnect_node
  preserves_prune : pres.

Lemma preserves_spr_to_root u pu : preserves (spr_to_root u pu).
Proof. unfold spr_to_root. pres. Qed.

Lemma preserves_spr n pn u v : preserves (spr n pn u v).
Proof. unfold spr. pres. Qed.

Lemma preserves_reroot n pn u v : preserves (reroot n pn u v).
Proof. unfold reroot. pres. Qed.

Lemma preserves_spr_from_root_prune fuel mem cur :
  preserves (spr_from_root_prune fuel mem cur).
Proof.
  revert mem cur; induction fuel as [|f IH]; intros mem cur; simpl; pres.
Qed.

#[export] Hint Resolve preserves_spr_from_root_prune : pres.

Lemma preserves_spr_from_root c r u v : preserves (spr_from_root c r u v).
Proof. unfold spr_from_root. pres. Qed.

#[export] Hint Resolve preserves_spr_to_root preserves_spr preserves_reroot
  preserves_spr_from_root : pres.

Lemma preserves_call fuel o : preserves (call fuel o).
Proof. destruct o; simpl; pres. Qed.

Lemma preserves_run fuel ops : preserves (run fuel ops).
Proof. unfold run. apply preserves_foreach. intros o. apply preserves_call. Qed.


(** ** From the invariant to the two invariants of the data model *)

Lemma wf_reciprocal t : wf t -> reciprocal t.
Proof.
  intros [B _ _] u v. unfold cnt in B.
  rewrite !(count_occ_In N.eq_dec), (B v u). reflexivity.
Qed.

Lemma wf_edge_count t :
  wf t -> edge_count t = N.of_nat (total_degree t / 2) mod UINT_RANGE.
Proof.
  intros [_ _ (E & HE & HC)]. rewrite HC, HE. do 2 f_equal.
  rewrite Nat.mul_comm. symmetry. apply Nat.div_mul. discriminate.
Qed.

Lemma wf_in_range t v u : wf t -> In u (adj_of t v) -> u < node_count t.
Proof.
  intros W H. apply (wf_reciprocal _ W) in H.
  destruct (N.ltb_spec u (node_count t)) as [Hlt|Hge]; [assumption|].
  rewrite (adj_of_out _ _ Hge) in H. destruct H.
Qed.

(** ** A run that wraps the edge counter *)

Lemma bind_assoc {A B C : Type} (m : M A) (k : A -> M B) (h : B -> M C) t :
  bind (bind m k) h t = bind m (fun a => bind (k a) h) t.
Proof. unfold bind. destruct (m t) as [[a t1]| | |]; reflexivity. Qed.

Lemma bind_ext {A B : Type} (m : M A) (k k' : A -> M B) t :
  (forall a t1, k a t1 = k' a t1) -> bind m k t = bind m k' t.
Proof. intros H. unfold bind. destruct (m t) as [[a t1]| | |]; auto. Qed.

Lemma run_app fuel ops1 ops2 t :
  run fuel (ops1 ++ ops2) t
  = bind (run fuel ops1) (fun _ => run fuel ops2) t.
Proof.
  unfold run. revert t; induction ops1 as [|o r IH]; intros t; simpl.
  - reflexivity.
  - rewrite bind_assoc. apply bind_ext. intros _ t1. apply IH.
Qed.

Lemma run_add_edges fuel v u k t :
  v < node_count t -> u < node_count t ->
  exists t', run fuel (repeat (Oadd_edge v u) k) t = Done (tt, t') /\
             node_count t' = node_count t /\
             total_degree t' = (total_degree t + 2 * k)%nat /\
             edge_count t' = Nat.iter k uint_incr (edge_count t).
Proof.
  revert t; induction k as [|k IH]; intros t Hv Hu.
  - exists t. simpl. repeat split; auto.
  - destruct (add_edge_total v u t Hv Hu) as [t1 E1].
    pose proof (add_edge_spec _ _ _ _ _ E1) as (_ & _ & Hn & _ & He & Ht & _).
    destruct (IH t1) as (t' & R & Hn' & Ht' & He'); try congruence.
    exists t'. unfold run in *. simpl. unfold bind at 1. rewrite E1.
    repeat split; try congruence; try lia.
    rewrite He', He.
    rewrite <- Nat.iter_succ_r. reflexivity.
Qed.

Lemma iter_uint_incr k e :
  Nat.iter k uint_incr (e mod UINT_RANGE) = (e + N.of_nat k) mod UINT_RANGE.
Proof.
  induction k as [|k IH].
  - simpl. now rewrite N.add_0_r.
  - rewrite Nat.iter_succ, IH. unfold uint_incr.
    rewrite N.Div0.add_mod_idemp_l. f_equal. lia.
Qed.


Lemma run_wrapping_calls :
  exists t, run 0 wrapping_calls empty_tree = Done (tt, t) /\
            total_degree t = (4 * many)%nat /\
            edge_count t = 0.
Proof.
  unfold wrapping_calls.
  set (t4 := mkTree [[]; []; []; []] NONODE 0).
  assert (E4 : run 0 (repeat Onew_node 4) empty_tree = Done (tt, t4))
    by reflexivity.
  assert (N4 : node_count t4 = 4) by reflexivity.
  destruct (run_add_edges 0 0 1 many t4) as (t5 & R5 & N5 & T5 & C5);
    try (rewrite N4; lia).
  destruct (run_add_edges 0 2 3 many t5) as (t6 & R6 & N6 & T6 & C6);
    try (rewrite N5, N4; lia).
  exists t6. split; [|split].
  - rewrite run_app. unfold bind at 1. rewrite E4.
    rewrite run_app. unfold bind at 1. rewrite R5. exact R6.
  - rewrite T6, T5. change (total_degree t4) with 0%nat. lia.
  - rewrite C6, C5. change (edge_count t4) with (0 mod UINT_RANGE).
    rewrite iter_uint_incr, iter_uint_incr.
    unfold many. rewrite N2Nat.id. reflexivity.
Qed.

(** C1, counterexample: after the calls of [wrapping_calls] on an empty
    tree the degrees sum to 2^33 while the 32-bit edge counter has come
    back to 0, so [edge_count = (sum of degrees) / 2] fails. *)
Lemma edge_count_wraps :
  exists t, run 0 wrapping_calls empty_tree = Done (tt, t) /\
            edge_count t = 0 /\
            N.of_nat (total_degree t / 2) = 4294967296 /\
            ~ edge_count_is_half_degree_sum t.
Proof.
  destruct run_wrapping_calls as (t & R & T & C).
  assert (H : N.of_nat (total_degree t / 2) = 4294967296).
  { rewrite T.
    replace (4 * many)%nat with ((2 * many) * 2)%nat by lia.
    rewrite Nat.div_mul by discriminate.
    rewrite Nat2N.inj_mul. unfold many. rewrite N2Nat.id. reflexivity. }
  exists t. split; [exact R|]. split; [exact C|]. split; [exact H|].
  unfold edge_count_is_half_degree_sum. rewrite C, H. discriminate.
Qed.

(** C1 (amended): after every sequence of mutating calls on an empty tree
    that returns, reciprocity holds and [edge_count] equals half the sum
    of the degrees modulo 2^32; it equals it exactly as long as the tree
    has fewer than 2^32 edges. *)
Theorem invariants_after_every_sequence fuel ops t :
  run fuel ops empty_tree = Done (tt, t) ->
  reciprocal t /\
  edge_count t = N.of_nat (total_degree t / 2) mod UINT_RANGE /\
  (N.of_nat (total_degree t / 2) < UINT_RANGE ->
   edge_count_is_half_degree_sum t).
Proof.
  intros H.
  assert (W : wf t) by (eapply preserves_run; [apply wf_empty_tree|exact H]).
  split; [now apply wf_reciprocal|].
  pose proof (wf_edge_count _ W) as E. split; [exact E|].
  intros Hlt. unfold edge_count_is_half_degree_sum.
  rewrite E. now apply N.mod_small.
Qed.


Lemma invariants_after_every_sequence_witness :
  run 8 sample_calls empty_tree = Done (tt, sample_tree) /\
  (reciprocal sample_tree /\
   edge_count sample_tree
   = N.of_nat (total_degree sample_tree / 2) mod UINT_RANGE /\
   (N.of_nat (total_degree sample_tree / 2) < UINT_RANGE ->
    edge_count_is_half_degree_sum sample_tree)).
Proof.
  split; [reflexivity|].
  apply (invariants_after_every_sequence 8 sample_calls sample_tree).
  reflexivity.
Defined.

(** ** The guards of the SPR family *)

(** C8: [spr(n, pn, u, v)] with [pn == u] or [pn == v] returns success
    and leaves every adjacency list, the root marker and the edge counter
    as they were. *)
Theorem spr_target_holds_parent t n pn u v :
  pn = u \/ pn = v -> spr n pn u v t = Done (true, t).
Proof.
  intros H. unfold spr.
  destruct (N.eqb_spec pn u) as [_|Hu]; [reflexivity|].
  destruct (N.eqb_spec pn v) as [_|Hv]; [reflexivity|].
  destruct H; contradiction.
Qed.

Lemma spr_target_holds_parent_witness :
  (1 = 1 \/ 1 = 2) /\ spr 0 1 1 2 path3 = Done (true, path3).
Proof.
  split; [left; reflexivity|].
  apply (spr_target_holds_parent path3 0 1 1 2). left. reflexivity.
Defined.

(** C10: [spr_to_root(u, pu)] returns failure and leaves the tree as it
    was when the tree is unrooted or [u] is the root; otherwise, with [pu]
    the root, it returns success and leaves the tree as it was. *)
Theorem spr_to_root_guards t u pu :
  (root t = NONODE \/ u = root t -> spr_to_root u pu t = Done (false, t)) /\
  (root t <> NONODE -> u <> root t -> pu = root t ->
   spr_to_root u pu t = Done (true, t)).
Proof.
  unfold spr_to_root, is_rooted, get_root, bind, ret. split.
  - intros [H|H].
    + rewrite H. reflexivity.
    + destruct (N.eqb_spec (root t) NONODE); [reflexivity|]. simpl.
      destruct (N.eqb_spec u (root t)); [reflexivity|contradiction].
  - intros H1 H2 H3.
    destruct (N.eqb_spec (root t) NONODE); [contradiction|]. simpl.
    destruct (N.eqb_spec u (root t)); [contradiction|].
    destruct (N.eqb_spec pu (root t)); [reflexivity|contradiction].
Qed.

Lemma spr_to_root_guards_witness :
  (spr_to_root 2 1 path3 = Done (false, path3)) /\
  (spr_to_root 0 1 (mkTree (nodes23 path3) 0 2)
   = Done (false, mkTree (nodes23 path3) 0 2)) /\
  (spr_to_root 2 0 (mkTree (nodes23 path3) 0 2)
   = Done (true, mkTree (nodes23 path3) 0 2)).
Proof.
  split; [|split].
  - apply (proj1 (spr_to_root_guards path3 2 1)). left. reflexivity.
  - apply (proj1 (spr_to_root_guards (mkTree (nodes23 path3) 0 2) 0 1)).
    right. reflexivity.
  - apply (proj2 (spr_to_root_guards (mkTree (nodes23 path3) 0 2) 2 0));
      [discriminate|discriminate|reflexivity].
Defined.


(** ** [remove_edge] on a state satisfying the invariant *)

Lemma remove_edge_defined v u t :
  v < node_count t -> (In u (adj_of t v) -> u < node_count t) ->
  exists b t', remove_edge v u t = Done (b, t').
Proof.
  intros Hv Hu. unfold remove_edge, bind.
  rewrite (adjacent_total _ _ Hv).
  destruct (AdjacentList.remove u (adj_of t v)) as [lv'|] eqn:E1.
  - assert (Hin : In u (adj_of t v)).
    { apply remove_Permutation in E1.
      eapply Permutation_in; [apply Permutation_sym, E1|now left]. }
    destruct (set_adjacent_total v lv' t Hv) as [t1 S1]. rewrite S1.
    apply set_adjacent_Done in S1. destruct S1 as (_ & Hn1 & _).
    assert (Hu1 : u < node_count t1) by (rewrite Hn1; auto).
    rewrite (adjacent_total _ _ Hu1).
    destruct (AdjacentList.remove v (adj_of t1 u)) as [lu'|].
    + destruct (set_adjacent_total u lu' t1 Hu1) as [t2 S2]. rewrite S2.
      unfold decr_edge_count, ret. eauto.
    + unfold ret. eauto.
  - unfold ret. eauto.
Qed.

Lemma wf_remove_edge_false v u t t' :
  wf t -> remove_edge v u t = Done (false, t') ->
  t' = t /\ ~ In u (adj_of t v).
Proof.
  intros W H. split; [eapply wf_remove_edge_atomic; eauto|].
  destruct W as [B L _]. apply remove_edge_false in H.
  destruct H as [[_ H]|(lv' & P & Hn)]; [assumption|exfalso].
  destruct (N.eqb_spec u v) as [->|Hne].
  - specialize (L v). unfold cnt in L.
    rewrite (proj1 (Permutation_count_occ N.eq_dec _ _) P) in L.
    rewrite count_occ_cons_eq in L by reflexivity.
    apply (count_occ_not_In N.eq_dec) in Hn. rewrite Hn in L.
    destruct L as [k Hk]. lia.
  - specialize (B v u). unfold cnt in B.
    rewrite (proj1 (Permutation_count_occ N.eq_dec _ _) P) in B.
    rewrite count_occ_cons_eq in B by reflexivity.
    apply (count_occ_not_In N.eq_dec) in Hn. rewrite Hn in B. lia.
Qed.

Lemma adj_nonempty_in_range t v u : In u (adj_of t v) -> v < node_count t.
Proof.
  intros H. destruct (N.ltb_spec v (node_count t)) as [Hlt|Hge]; [assumption|].
  rewrite (adj_of_out _ _ Hge) in H. destruct H.
Qed.

(** An edge that is present is removed. *)
Lemma wf_remove_edge_total v u t :
  wf t -> In u (adj_of t v) ->
  exists t', remove_edge v u t = Done (true, t').
Proof.
  intros W Hin.
  destruct (remove_edge_defined v u t) as ([|] & t' & R).
  - eapply adj_nonempty_in_range; eauto.
  - intros _. eapply wf_in_range; eauto.
  - eauto.
  - apply (wf_remove_edge_false _ _ _ _ W) in R. tauto.
Qed.

(** ** Contraction of a chain node *)

Lemma uint_decr_pred e :
  0 < e -> e < UINT_RANGE -> uint_decr e + 1 = e.
Proof.
  intros H0 H1. unfold uint_decr.
  replace (e + UINT_MAX) with ((e - 1) + 1 * UINT_RANGE)
    by (unfold UINT_MAX, UINT_RANGE in *; lia).
  rewrite N.Div0.mod_add, N.mod_small by lia. lia.
Qed.

Lemma wf_edge_count_lt t : wf t -> edge_count t < UINT_RANGE.
Proof.
  intros [_ _ (E & _ & ->)]. apply N.mod_lt. discriminate.
Qed.

Lemma contract_chain_node_false v t t' :
  contract_chain_node v t = Done (false, t') -> t' = t.
Proof.
  unfold contract_chain_node, degree. intros H. inv_step H.
  destruct (negb (AdjacentList.size (adj_of t v) =? 2)); [now inv_step H|].
  inv_step H.
  destruct (v =? root t); [now inv_step H|].
  inv_step H.
  destruct (adj_of t v) as [|l0 [|l1 [|? ?]]]; try discriminate.
  inv_step H. congruence.
Qed.

Lemma contract_chain_node_true v t t' :
  contract_chain_node v t = Done (true, t') ->
  length (adj_of t v) = 2%nat /\ v <> root t.
Proof.
  unfold contract_chain_node, degree. intros H. inv_step H.
  destruct (negb (AdjacentList.size (adj_of t v) =? 2)); [inv_step H; congruence|].
  inv_step H.
  destruct (N.eqb_spec v (root t)); [inv_step H; congruence|].
  inv_step H.
  destruct (adj_of t v) as [|l0 [|l1 [|? ?]]]; try discriminate.
  auto.
Qed.

Lemma bind_eq {A B : Type} (m : M A) (k : A -> M B) t a t1 :
  m t = Done (a, t1) -> bind m k t = k a t1.
Proof. unfold bind. now intros ->. Qed.

Lemma remove_edge_frame v u t b t' :
  remove_edge v u t = Done (b, t') ->
  forall w, w <> v -> w <> u -> adj_of t' w = adj_of t w.
Proof.
  unfold remove_edge. intros H w Hv Hu. inv_step H.
  destruct (AdjacentList.remove u (adj_of t v)) as [lv'|];
    [|now inv_step H].
  inv_step H.
  apply set_adjacent_Done in H0. destruct H0 as (_ & _ & _ & _ & _ & Ha1).
  assert (E1 : adj_of t0 w = adj_of t w).
  { rewrite Ha1. destruct (N.eqb_spec w v); [contradiction|reflexivity]. }
  destruct (AdjacentList.remove v (adj_of t0 u)) as [lu'|];
    [|inv_step H; congruence].
  inv_step H.
  match goal with
  | S2 : set_adjacent u lu' t0 = Done _, D : decr_edge_count _ = Done _ |- _ =>
      apply set_adjacent_Done in S2; destruct S2 as (_ & _ & _ & _ & _ & Ha2);
      apply decr_edge_count_Done in D; destruct D as (Hn3 & _)
  end.
  rewrite (same_nodes_adj_of _ _ Hn3), Ha2.
  destruct (N.eqb_spec w u); [contradiction|assumption].
Qed.

(** The contraction proper, on a chain node without a self loop. *)
Lemma contract_chain_node_effect t v a b :
  wf t -> adj_of t v = [a; b] -> v <> root t -> a <> v ->
  exists t',
    contract_chain_node v t = Done (true, t') /\ wf t' /\
    node_count t' = node_count t /\ root t' = root t /\
    adj_of t' v = [] /\
    edge_count t' = uint_decr (edge_count t) /\
    (total_degree t' + 2 = total_degree t)%nat /\
    In b (adj_of t' a) /\ In a (adj_of t' b) /\
    (a <> b -> Permutation (v :: adj_of t' a) (b :: adj_of t a) /\
               Permutation (v :: adj_of t' b) (a :: adj_of t b)) /\
    (forall w, w <> v -> w <> a -> w <> b -> adj_of t' w = adj_of t w).
Proof.
  intros W Hadj Hroot Hav.
  assert (Hv : v < node_count t)
    by (apply (adj_nonempty_in_range t v a); rewrite Hadj; now left).
  assert (Hia : In a (adj_of t v)) by (rewrite Hadj; now left).
  assert (Hib : In b (adj_of t v)) by (rewrite Hadj; right; now left).
  assert (Hbv : b <> v).
  { intros ->. destruct (wf_loops _ W v) as [k Hk]. unfold cnt in Hk.
    rewrite Hadj in Hk. simpl in Hk.
    destruct (N.eq_dec a v); [contradiction|].
    destruct (N.eq_dec v v); [|contradiction]. lia. }
  pose proof (wf_in_range _ _ _ W Hia) as Ha.
  pose proof (wf_in_range _ _ _ W Hib) as Hb.
  (* first edge *)
  destruct (wf_remove_edge_total a v t W) as [t1 R1].
  { now apply (wf_reciprocal _ W). }
  pose proof (wf_remove_edge _ _ _ _ _ W R1) as W1.
  pose proof (remove_edge_frame _ _ _ _ _ R1) as F1.
  pose proof (remove_edge_true _ _ _ _ R1)
    as (_ & _ & Hn1 & Hr1 & He1 & Ht1 & P1).
  assert (A1 : adj_of t1 v = [b]).
  { specialize (P1 v). rewrite Hadj, N.eqb_refl in P1.
    destruct (N.eqb_spec v a); [congruence|]. simpl in P1.
    apply Permutation_cons_inv in P1.
    now apply Permutation_length_1_inv in P1. }
  (* second edge *)
  destruct (wf_remove_edge_total b v t1 W1) as [t2 R2].
  { apply (wf_reciprocal _ W1). rewrite A1. now left. }
  pose proof (wf_remove_edge _ _ _ _ _ W1 R2) as W2.
  pose proof (remove_edge_frame _ _ _ _ _ R2) as F2.
  pose proof (remove_edge_true _ _ _ _ R2)
    as (_ & _ & Hn2 & Hr2 & He2 & Ht2 & P2).
  assert (A2 : adj_of t2 v = []).
  { specialize (P2 v). rewrite A1, N.eqb_refl in P2.
    destruct (N.eqb_spec v b); [congruence|]. simpl in P2.
    apply Permutation_cons_inv in P2.
    now apply Permutation_nil in P2. }
  (* the new edge *)
  destruct (add_edge_total a b t2) as [t3 R3]; try congruence.
  pose proof (wf_add_edge _ _ _ _ _ W2 R3) as W3.
  pose proof (add_edge_spec _ _ _ _ _ R3)
    as (_ & _ & Hn3 & Hr3 & He3 & Ht3 & A3).
  exists t3. split.
  { unfold contract_chain_node, degree, bind, ret, get_root.
    rewrite (adjacent_total _ _ Hv), Hadj.
    replace (negb (AdjacentList.size [a; b] =? 2)) with false by reflexivity.
    destruct (N.eqb_spec v (root t)); [contradiction|].
    rewrite (adjacent_total _ _ Hv), Hadj. cbv beta iota.
    rewrite R1, R2, R3. reflexivity. }
  split; [assumption|].
  split; [congruence|]. split; [congruence|].
  split.
  { rewrite A3, A2.
    destruct (N.eqb_spec v a); [congruence|].
    destruct (N.eqb_spec v b); [congruence|]. reflexivity. }
  split.
  { rewrite He3, He2, He1.
    destruct W as [_ _ (E & HE & HC)].
    destruct W2 as [_ _ (E2 & HE2 & HC2)].
    rewrite HC. assert (E = S (S E2)) as -> by lia.
    rewrite !uint_decr_mod, uint_incr_mod. reflexivity. }
  split; [lia|].
  split.
  { rewrite A3, N.eqb_refl. apply in_or_app. right. apply in_or_app.
    left. now left. }
  split.
  { rewrite A3, N.eqb_refl. apply in_or_app. right. apply in_or_app.
    right. now left. }
  split.
  { intros Hab. split.
    - rewrite A3, N.eqb_refl.
      destruct (N.eqb_spec a b); [contradiction|].
      rewrite app_nil_r, (F2 a) by auto.
      specialize (P1 a). rewrite N.eqb_refl in P1.
      destruct (N.eqb_spec a v); [contradiction|]. simpl in P1.
      rewrite P1.
      etransitivity; [apply perm_skip, Permutation_sym,
                        Permutation_cons_append|].
      apply perm_swap.
    - rewrite A3, N.eqb_refl.
      destruct (N.eqb_spec b a); [congruence|]. simpl.
      specialize (P2 b). rewrite N.eqb_refl in P2.
      destruct (N.eqb_spec b v); [contradiction|]. simpl in P2.
      rewrite <- (F1 b) by auto. rewrite P2.
      etransitivity; [apply perm_skip, Permutation_sym,
                        Permutation_cons_append|].
      apply perm_swap. }
  intros w Hwv Hwa Hwb. rewrite A3.
  destruct (N.eqb_spec w a); [contradiction|].
  destruct (N.eqb_spec w b); [contradiction|].
  rewrite !app_nil_r, F2, F1 by auto. reflexivity.
Qed.

Lemma contract_chain_node_unfold v t :
  v < node_count t ->
  contract_chain_node v t =
  if negb (AdjacentList.size (adj_of t v) =? 2) then Done (false, t)
  else if v =? root t then Done (false, t)
  else match adj_of t v with
       | [l0; l1] =>
           (remove_edge l0 v ;; remove_edge l1 v ;; add_edge l0 l1 ;; ret true) t
       | _ => OutOfBounds
       end.
Proof.
  intros Hv. unfold contract_chain_node, degree, get_root.
  unfold bind at 1 2. rewrite (adjacent_total _ _ Hv). unfold ret at 1.
  destruct (negb (AdjacentList.size (adj_of t v) =? 2)); [reflexivity|].
  unfold bind at 1.
  destruct (v =? root t); [reflexivity|].
  unfold bind at 1. rewrite (adjacent_total _ _ Hv).
  destruct (adj_of t v) as [|l0 [|l1 [|? ?]]]; reflexivity.
Qed.

Lemma degree_eval v t :
  v < node_count t -> degree v t = Done (N.of_nat (length (adj_of t v)), t).
Proof.
  intros Hv. unfold degree, bind. now rewrite (adjacent_total _ _ Hv).
Qed.

(** C6, counterexample: on the node store [[0;0]] (one node with a self
    loop, as [new_node(); add_edge(0,0)] builds it) [contract_chain_node(0)]
    returns success, yet the edge counter is still 1 and node 0 still has
    degree 2. *)
Lemma contract_chain_node_self_loop :
  run 0 [Onew_node; Oadd_edge 0 0] empty_tree = Done (tt, loop1) /\
  contract_chain_node 0 loop1 = Done (true, loop1) /\
  edge_count loop1 = 1 /\ degree 0 loop1 = Done (2, loop1).
Proof. repeat split. Qed.

(** C6 (amended): [contract_chain_node(v)] returns success if and only if
    [degree(v) == 2] and [v] is not the root, and on failure the tree is
    unchanged.  On success, provided [v] is not its own neighbour, both
    edges of [v] are gone and its two former neighbours are joined by a
    new edge: the node count is unchanged, [v] has degree 0, the number of
    adjacency cells drops by one pair and the edge counter is decremented
    once (a decrease by exactly one whenever the counter was not 0). *)
Theorem contract_chain_node_spec t v :
  wf t -> v < node_count t ->
  exists r t',
    contract_chain_node v t = Done (r, t') /\
    (r = true <-> degree v t = Done (2, t) /\ v <> root t) /\
    (r = false -> t' = t) /\
    (r = true -> ~ In v (adj_of t v) ->
     node_count t' = node_count t /\
     degree v t' = Done (0, t') /\
     edge_count t' = uint_decr (edge_count t) /\
     (0 < edge_count t -> edge_count t' + 1 = edge_count t) /\
     (total_degree t' + 2 = total_degree t)%nat /\
     exists a b,
       adj_of t v = [a; b] /\
       In b (adj_of t' a) /\ In a (adj_of t' b) /\
       (a <> b -> Permutation (v :: adj_of t' a) (b :: adj_of t a) /\
                  Permutation (v :: adj_of t' b) (a :: adj_of t b)) /\
       (forall w, w <> v -> w <> a -> w <> b -> adj_of t' w = adj_of t w)).
Proof.
  intros W Hv.
  rewrite (degree_eval _ _ Hv).
  pose proof (contract_chain_node_unfold v t Hv) as U.
  unfold AdjacentList.size in U.
  destruct (N.eqb_spec (N.of_nat (length (adj_of t v))) 2) as [H2|H2];
    simpl negb in U; cbv iota in U.
  2:{ exists false, t. split; [exact U|]. split; [|split]; try tauto.
      - split; [discriminate|]. intros [E _]. congruence.
      - discriminate. }
  destruct (N.eqb_spec v (root t)) as [Hr|Hr].
  { exists false, t. split; [exact U|]. split; [|split]; try tauto.
    - split; [discriminate|]. tauto.
    - discriminate. }
  destruct (adj_of t v) as [|a [|b [|? ?]]] eqn:Hadj; simpl in H2; try lia.
  destruct (N.eq_dec a v) as [Hav|Hav].
  - (* a self loop: the call still returns true *)
    subst a.
    assert (Hin : In v (adj_of t v)) by (rewrite Hadj; now left).
    destruct (wf_remove_edge_total v v t W Hin) as [t1 R1].
    pose proof (remove_edge_true _ _ _ _ R1) as (_ & _ & Hn1 & _).
    assert (Hb : b < node_count t).
    { apply (wf_in_range t v b W). rewrite Hadj. right. now left. }
    destruct (remove_edge_defined b v t1) as (r2 & t2 & R2);
      try (intros; congruence).
    assert (Hn2 : node_count t2 = node_count t1).
    { destruct r2.
      - now apply remove_edge_true in R2.
      - now rewrite (wf_remove_edge_atomic _ _ _ _
                       (wf_remove_edge _ _ _ _ _ W R1) R2). }
    destruct (add_edge_total v b t2) as [t3 R3]; try congruence.
    exists true, t3. split.
    { rewrite U. unfold bind, ret. rewrite R1, R2, R3. reflexivity. }
    split; [tauto|]. split; [discriminate|].
    intros _ Hn. exfalso. apply Hn. now left.
  - destruct (contract_chain_node_effect t v a b W Hadj Hr Hav)
      as (t' & R & W' & Hn & _ & A & He & Ht & I1 & I2 & P & F).
    exists true, t'. split; [exact R|]. split; [tauto|].
    split; [discriminate|]. intros _ _.
    split; [exact Hn|]. split.
    { rewrite degree_eval by congruence. now rewrite A. }
    split; [exact He|]. split.
    { intros H0. rewrite He. apply uint_decr_pred; [assumption|].
      now apply wf_edge_count_lt. }
    split; [exact Ht|].
    exists a, b. auto 10.
Qed.

Lemma wf_path3 : wf path3.
Proof.
  apply (preserves_run 0
           [Onew_node; Onew_node; Onew_node; Oadd_edge 0 1; Oadd_edge 1 2]
           empty_tree tt path3 wf_empty_tree).
  reflexivity.
Defined.

Lemma contract_chain_node_spec_witness :
  wf path3 /\ 1 < node_count path3 /\
  exists r t',
    contract_chain_node 1 path3 = Done (r, t') /\
    (r = true <-> degree 1 path3 = Done (2, path3) /\ 1 <> root path3) /\
    (r = false -> t' = path3) /\
    (r = true -> ~ In 1 (adj_of path3 1) ->
     node_count t' = node_count path3 /\
     degree 1 t' = Done (0, t') /\
     edge_count t' = uint_decr (edge_count path3) /\
     (0 < edge_count path3 -> edge_count t' + 1 = edge_count path3) /\
     (total_degree t' + 2 = total_degree path3)%nat /\
     exists a b,
       adj_of path3 1 = [a; b] /\
       In b (adj_of t' a) /\ In a (adj_of t' b) /\
       (a <> b -> Permutation (1 :: adj_of t' a) (b :: adj_of path3 a) /\
                  Permutation (1 :: adj_of t' b) (a :: adj_of path3 b)) /\
       (forall w, w <> 1 -> w <> a -> w <> b ->
                  adj_of t' w = adj_of path3 w)).
Proof.
  split; [exact wf_path3|]. split; [reflexivity|].
  apply (contract_chain_node_spec path3 1); [exact wf_path3|reflexivity].
Defined.


(** ** The prune step *)

Lemma cnt_In t v w : In w (adj_of t v) <-> (0 < cnt t v w)%nat.
Proof. unfold cnt. apply (count_occ_In N.eq_dec). Qed.

(** The loop [BOOST_FOREACH(i, ch) if (!remove_edge(p,i)) return false;]
    when every cell of [ch] has its edge. *)
Lemma remove_edges_loop p r :
  forall t,
    wf t -> ~ In p r ->
    (forall i, (count_occ N.eq_dec r i <= cnt t p i)%nat) ->
    exists t',
      foreach_ok r (fun i => remove_edge p i) t = Done (true, t') /\
      wf t' /\ node_count t' = node_count t /\ root t' = root t /\
      (total_degree t' + 2 * length r = total_degree t)%nat /\
      (forall y, cnt t p y = (cnt t' p y + count_occ N.eq_dec r y)%nat) /\
      (forall w, w <> p -> ~ In w r -> adj_of t' w = adj_of t w) /\
      (forall w, w <> p ->
                 Permutation (adj_of t w)
                   (repeat p (count_occ N.eq_dec r w) ++ adj_of t' w)).
Proof.
  induction r as [|i r IH]; intros t W Hp Hc.
  - exists t. simpl. unfold ret.
    split; [reflexivity|]. split; [exact W|].
    repeat split; auto; intros; simpl; try lia; reflexivity.
  - assert (Hi : In i (adj_of t p)).
    { apply cnt_In. specialize (Hc i). simpl in Hc.
      destruct (N.eq_dec i i); [lia|contradiction]. }
    assert (Hip : i <> p) by (intros ->; apply Hp; now left).
    destruct (wf_remove_edge_total p i t W Hi) as [t1 R1].
    pose proof (wf_remove_edge _ _ _ _ _ W R1) as W1.
    pose proof (remove_edge_cnt _ _ _ _ R1) as C1.
    pose proof (remove_edge_frame _ _ _ _ _ R1) as F1.
    pose proof (remove_edge_true _ _ _ _ R1)
      as (_ & _ & Hn1 & Hr1 & _ & Ht1 & P1).
    destruct (IH t1 W1) as (t' & R & W' & Hn & Hr & Ht & C & F & P).
    { intros H. apply Hp. now right. }
    { intros y. specialize (Hc y). rewrite C1 in Hc. simpl in Hc.
      unfold arc in Hc. rewrite N.eqb_refl in Hc. simpl in Hc.
      destruct (N.eqb_spec p i); [congruence|]. simpl in Hc.
      destruct (N.eq_dec i y) as [->|Hne].
      - rewrite N.eqb_refl in Hc. lia.
      - destruct (N.eqb_spec y i); [congruence|]. lia. }
    exists t'. simpl. unfold bind. rewrite R1.
    split; [exact R|]. split; [exact W'|].
    split; [congruence|]. split; [congruence|].
    split; [simpl; lia|].
    split.
    { intros y. rewrite C1, C. simpl. unfold arc. rewrite N.eqb_refl.
      destruct (N.eqb_spec p i); [congruence|]. simpl.
      destruct (N.eq_dec i y) as [->|Hne].
      - rewrite N.eqb_refl. lia.
      - destruct (N.eqb_spec y i); [congruence|]. lia. }
    split.
    { intros w Hw Hn'.
      rewrite F by (try assumption; intros H; apply Hn'; now right).
      apply F1; [assumption|]. intros ->. apply Hn'. now left. }
    intros w Hw. specialize (P1 w). specialize (P w Hw).
    destruct (N.eqb_spec w p); [contradiction|]. simpl in P1.
    simpl. destruct (N.eq_dec i w) as [->|Hne].
    + rewrite N.eqb_refl in P1. simpl in P1. simpl.
      rewrite P1. apply perm_skip. exact P.
    + destruct (N.eqb_spec w i); [congruence|]. simpl in P1.
      rewrite P1. exact P.
Qed.

(** The loop [BOOST_FOREACH(i, ch) add_edge(n,i);] onto a node [n] that is
    not in [ch]. *)
Lemma add_edges_loop n r :
  forall t,
    n < node_count t -> ~ In n r ->
    (forall c, In c r -> c < node_count t) ->
    exists t',
      foreach r (fun i => add_edge n i) t = Done (tt, t') /\
      node_count t' = node_count t /\ root t' = root t /\
      total_degree t' = (total_degree t + 2 * length r)%nat /\
      adj_of t' n = adj_of t n ++ r /\
      (forall w, w <> n ->
                 adj_of t' w = adj_of t w ++ repeat n (count_occ N.eq_dec r w)).
Proof.
  induction r as [|i r IH]; intros t Hn Hnr Hr.
  - exists t. simpl. unfold ret. repeat split; auto.
    + now rewrite app_nil_r.
    + intros. now rewrite app_nil_r.
  - assert (Hi : i < node_count t) by (apply Hr; now left).
    assert (Hin : i <> n) by (intros ->; apply Hnr; now left).
    destruct (add_edge_total n i t Hn Hi) as [t1 R1].
    pose proof (add_edge_spec _ _ _ _ _ R1)
      as (_ & _ & Hn1 & Hr1 & _ & Ht1 & A1).
    destruct (IH t1) as (t' & R & Hn' & Hr' & Ht' & An & Aw).
    { congruence. }
    { intros H. apply Hnr. now right. }
    { intros c Hc. rewrite Hn1. apply Hr. now right. }
    exists t'. simpl. unfold bind. rewrite R1.
    split; [exact R|]. split; [congruence|]. split; [congruence|].
    split; [simpl; lia|]. split.
    { rewrite An, A1, N.eqb_refl.
      destruct (N.eqb_spec n i); [congruence|].
      rewrite app_nil_r, <- app_assoc. reflexivity. }
    intros w Hw. rewrite Aw, A1 by assumption.
    destruct (N.eqb_spec w n); [contradiction|]. simpl.
    destruct (N.eq_dec i w) as [->|Hne].
    + rewrite N.eqb_refl. simpl. now rewrite <- app_assoc.
    + destruct (N.eqb_spec w i); [congruence|]. now rewrite app_nil_r.
Qed.

Lemma count_occ_filter_neq (x y : N) (l : list N) :
  count_occ N.eq_dec (filter (fun u => negb (u =? x)) l) y
  = if y =? x then 0%nat else count_occ N.eq_dec l y.
Proof.
  induction l as [|a l IH]; simpl.
  - now destruct (y =? x).
  - destruct (N.eqb_spec a x) as [->|Hax]; simpl.
    + rewrite IH. destruct (N.eqb_spec y x) as [->|Hyx]; [reflexivity|].
      destruct (N.eq_dec x y); [congruence|reflexivity].
    + rewrite IH. destruct (N.eq_dec a y) as [->|Hay].
      * destruct (N.eqb_spec y x); [contradiction|reflexivity].
      * reflexivity.
Qed.

Lemma children_vector_eval p x t :
  p < node_count t ->
  children_vector p x t
  = Done (filter (fun u => negb (u =? x)) (adj_of t p), t).
Proof.
  intros Hp. unfold children_vector, bind.
  now rewrite (adjacent_total _ _ Hp).
Qed.

(** C2 (amended): in the prune step shared by [spr], [spr_to_root] and
    [reroot], in a state built by the operations, with [n] a neighbour of
    [pn], [pn] not listed in its own adjacency (no self loop at [pn]) and
    [ch] the neighbours of [pn] other than [n]: the step succeeds and
    every edge from [pn] to a node of [ch] is removed, so [pn] keeps [n]
    only.  With exactly one node in [ch] nothing is added; with exactly
    two, the two are joined directly by a new edge; with more than two, a
    new node is created and joined to each of them (the polytomy is kept
    at the new node). *)
Theorem prune_spec t pn n ch :
  wf t -> pn < node_count t -> ~ In pn (adj_of t pn) ->
  In n (adj_of t pn) ->
  children_vector pn n t = Done (ch, t) ->
  exists t',
    prune pn n t = Done (true, t') /\ wf t' /\
    (forall w, In w (adj_of t' pn) -> w = n) /\
    (forall c, In c ch -> ~ In pn (adj_of t' c)) /\
    match ch with
    | [] => t' = t
    | [c] =>
        node_count t' = node_count t /\
        (total_degree t' + 2 = total_degree t)%nat /\
        Permutation (adj_of t c) (pn :: adj_of t' c) /\
        (forall w, w <> pn -> w <> c -> adj_of t' w = adj_of t w)
    | [c0; c1] =>
        node_count t' = node_count t /\
        (total_degree t' + 2 = total_degree t)%nat /\
        In c1 (adj_of t' c0) /\ In c0 (adj_of t' c1)
    | _ =>
        node_count t' = node_count t + 1 /\
        total_degree t' = total_degree t /\
        adj_of t' (node_count t) = ch /\
        (forall c, In c ch -> In (node_count t) (adj_of t' c))
    end.
Proof.
  intros W Hp Hloop _ Hch.
  rewrite (children_vector_eval _ _ _ Hp) in Hch.
  injection Hch as Hch.
  assert (Hpch : ~ In pn ch).
  { rewrite <- Hch. intros H. apply filter_In in H. tauto. }
  assert (Hcnt : forall i, (count_occ N.eq_dec ch i <= cnt t pn i)%nat).
  { intros i. rewrite <- Hch, count_occ_filter_neq. unfold cnt.
    destruct (i =? n); lia. }
  assert (Hrange : forall c, In c ch -> c < node_count t).
  { intros c Hc. apply (wf_in_range t pn c W).
    rewrite <- Hch in Hc. apply filter_In in Hc. tauto. }
  destruct (remove_edges_loop pn ch t W Hpch Hcnt)
    as (t1 & R1 & W1 & Hn1 & Hr1 & Ht1 & C1 & F1 & P1).
  assert (A1 : forall w, In w (adj_of t1 pn) -> w = n).
  { intros w Hw. apply cnt_In in Hw.
    specialize (C1 w). rewrite <- Hch, count_occ_filter_neq in C1.
    unfold cnt in C1 at 1.
    destruct (N.eqb_spec w n); [assumption|lia]. }
  assert (B1 : forall c, In c ch -> ~ In pn (adj_of t1 c)).
  { intros c Hc H. apply (wf_reciprocal _ W1) in H. apply A1 in H. subst c.
    rewrite <- Hch in Hc. apply filter_In in Hc.
    rewrite N.eqb_refl in Hc. destruct Hc. discriminate. }
  assert (E : prune pn n t
              = (match ch with
                 | [] | [_] => ret true
                 | [c0; c1] => add_edge c0 c1 ;; ret true
                 | _ => n0 <- new_node ;;
                        foreach ch (fun i => add_edge n0 i) ;; ret true
                 end) t1).
  { unfold prune. rewrite (bind_eq _ _ _ _ _ (children_vector_eval _ _ _ Hp)).
    rewrite Hch. rewrite (bind_eq _ _ _ _ _ R1). reflexivity. }
  assert (Wt' : forall t', prune pn n t = Done (true, t') -> wf t')
    by (intros t'; apply preserves_prune; exact W).
  destruct ch as [|c0 [|c1 [|c2 r]]].
  - exists t1. rewrite E. unfold ret. simpl in R1. injection R1 as <-.
    split; [reflexivity|]. split; [exact W|]. repeat split; auto.
  - exists t1. rewrite E. unfold ret.
    split; [reflexivity|]. split; [assumption|]. split; [assumption|].
    split; [assumption|].
    split; [assumption|]. split; [simpl in Ht1; lia|]. split.
    + assert (Hc : c0 <> pn) by (intros ->; apply Hpch; now left).
      specialize (P1 c0 Hc). simpl in P1.
      destruct (N.eq_dec c0 c0); [exact P1|contradiction].
    + intros w Hw Hc. apply F1; [assumption|].
      intros [H|[]]. congruence.
  - destruct (add_edge_total c0 c1 t1) as [t2 R2].
    { rewrite Hn1. apply Hrange. now left. }
    { rewrite Hn1. apply Hrange. right. now left. }
    pose proof (add_edge_spec _ _ _ _ _ R2)
      as (_ & _ & Hn2 & _ & _ & Ht2 & A2).
    assert (H0 : c0 <> pn) by (intros ->; apply Hpch; now left).
    assert (H1 : c1 <> pn) by (intros ->; apply Hpch; right; now left).
    assert (E' : prune pn n t = Done (true, t2)).
    { rewrite E. unfold bind, ret. now rewrite R2. }
    exists t2. split; [exact E'|]. split; [auto|].
    split.
    { intros w. rewrite A2.
      destruct (N.eqb_spec pn c0); [congruence|].
      destruct (N.eqb_spec pn c1); [congruence|].
      rewrite !app_nil_r. apply A1. }
    split.
    { intros c Hc. rewrite A2. intros H.
      apply in_app_or in H. destruct H as [H|H]; [now apply (B1 c)|].
      apply in_app_or in H.
      destruct H as [H|H]; [destruct (c =? c0)|destruct (c =? c1)];
        simpl in H; intuition congruence. }
    split; [congruence|]. split; [simpl in Ht1; lia|].
    split; rewrite A2, N.eqb_refl.
    + apply in_or_app. right. apply in_or_app. left. now left.
    + apply in_or_app. right. apply in_or_app. right. now left.
  - set (ch := c0 :: c1 :: c2 :: r) in *.
    destruct (new_node t1) as [[n0 t2]| | |] eqn:R2; try discriminate.
    pose proof (new_node_Done _ _ _ R2) as (-> & Hn2 & _ & _ & Ht2 & A2).
    destruct (add_edges_loop (node_count t1) ch t2)
      as (t3 & R3 & Hn3 & _ & Ht3 & An & Aw).
    { lia. }
    { intros H. apply Hrange in H. lia. }
    { intros c Hc. apply Hrange in Hc. lia. }
    assert (E' : prune pn n t = Done (true, t3)).
    { rewrite E. unfold bind, ret. now rewrite R2, R3. }
    exists t3. split; [exact E'|]. split; [auto|].
    split.
    { intros w. rewrite Aw by lia.
      rewrite (proj1 (count_occ_not_In N.eq_dec ch pn) Hpch).
      simpl. rewrite app_nil_r, A2. apply A1. }
    split.
    { intros c Hc. assert (c <> node_count t1)
        by (apply Hrange in Hc; lia).
      rewrite Aw, A2 by assumption. intros Hin.
      apply in_app_or in Hin. destruct Hin as [Hin|Hin]; [now apply (B1 c)|].
      apply repeat_spec in Hin. lia. }
    split; [lia|]. split; [lia|].
    split.
    { rewrite <- Hn1, An, A2, adj_of_out by lia. reflexivity. }
    intros c Hc. assert (c <> node_count t1) by (apply Hrange in Hc; lia).
    rewrite <- Hn1, Aw by assumption.
    apply in_or_app. right.
    apply (count_occ_In N.eq_dec) in Hc.
    destruct (count_occ N.eq_dec ch c); [lia|]. now left.
Qed.


(** C2, counterexample.  On the path [0 - 1 - 2], pruning the subtree
    [n = 0] with parent [pn = 1] finds exactly one other neighbour, 2: the
    edge [(1,2)] is removed and nothing is joined (node 2 is left without
    neighbour, also at the end of the whole [spr]).  On the star with
    centre [pn = 1] the two other neighbours 2 and 3 are joined to each
    other and [pn] is no longer their branch point. *)
Lemma prune_joins_only_two_siblings :
  children_vector 1 0 path3 = Done ([2], path3) /\
  prune 1 0 path3 = Done (true, mkTree [[1]; [0]; []] NONODE 1) /\
  spr 0 1 3 4 path3_edge
  = Done (true, mkTree [[1]; [0; 3; 4]; []; [1]; [1]] NONODE 3) /\
  children_vector 1 0 star3 = Done ([2; 3], star3) /\
  prune 1 0 star3 = Done (true, mkTree [[1]; [0]; [3]; [2]] NONODE 2).
Proof. repeat split. Qed.

Lemma wf_star3 : wf star3.
Proof.
  apply (preserves_run 0
           [Onew_node; Onew_node; Onew_node; Onew_node;
            Oadd_edge 0 1; Oadd_edge 1 2; Oadd_edge 1 3]
           empty_tree tt star3 wf_empty_tree).
  reflexivity.
Defined.

Lemma prune_spec_witness :
  wf star3 /\ 1 < node_count star3 /\ ~ In 1 (adj_of star3 1) /\
  In 0 (adj_of star3 1) /\
  children_vector 1 0 star3 = Done ([2; 3], star3) /\
  exists t',
    prune 1 0 star3 = Done (true, t') /\ wf t' /\
    (forall w, In w (adj_of t' 1) -> w = 0) /\
    (forall c, In c [2; 3] -> ~ In 1 (adj_of t' c)) /\
    (node_count t' = node_count star3 /\
     (total_degree t' + 2 = total_degree star3)%nat /\
     In 3 (adj_of t' 2) /\ In 2 (adj_of t' 3)).
Proof.
  assert (H : ~ In 1 (adj_of star3 1)).
  { simpl. intros [H|[H|[H|[]]]]; discriminate. }
  assert (H0 : In 0 (adj_of star3 1)) by (simpl; now left).
  split; [exact wf_star3|]. split; [reflexivity|]. split; [exact H|].
  split; [exact H0|]. split; [reflexivity|].
  exact (prune_spec star3 1 0 [2; 3] wf_star3 eq_refl H H0 eq_refl).
Defined.


(** ** Trimming a leaf of a star *)

Lemma star_facts t c a b d :
  is_star t c a b d ->
  c <> a /\ c <> b /\ c <> d /\ a <> b /\ a <> d /\ b <> d /\
  c < 4 /\ a < 4 /\ b < 4 /\ d < 4.
Proof.
  intros [Hn _ _ Hd Hc Ha Hb Hd'].
  repeat (apply NoDup_cons_iff in Hd; destruct Hd as [? Hd]).
  simpl in *.
  assert (c < node_count t).
  { apply (adj_nonempty_in_range t c a).
    eapply Permutation_in; [apply Permutation_sym, Hc|now left]. }
  assert (a < node_count t)
    by (apply (adj_nonempty_in_range t a c); rewrite Ha; now left).
  assert (b < node_count t)
    by (apply (adj_nonempty_in_range t b c); rewrite Hb; now left).
  assert (d < node_count t)
    by (apply (adj_nonempty_in_range t d c); rewrite Hd'; now left).
  rewrite Hn in *. intuition congruence.
Qed.

Lemma star_cnt t c a b d u v :
  is_star t c a b d ->
  cnt t u v
  = if u =? c then (if (v =? a) || (v =? b) || (v =? d) then 1%nat else 0%nat)
    else if (u =? a) || (u =? b) || (u =? d)
         then (if v =? c then 1%nat else 0%nat) else 0%nat.
Proof.
  intros S. pose proof (star_facts _ _ _ _ _ S)
    as (? & ? & ? & ? & ? & ? & ? & ? & ? & ?).
  destruct S as [Hn _ _ _ Hc Ha Hb Hd]. unfold cnt.
  destruct (N.eqb_spec u c) as [->|Huc].
  - rewrite (proj1 (Permutation_count_occ N.eq_dec _ _) Hc). simpl.
    destruct (N.eq_dec a v), (N.eq_dec b v), (N.eq_dec d v); subst;
      repeat match goal with
             | |- context [?x =? ?y] => destruct (N.eqb_spec x y)
             end; simpl; congruence.
  - destruct (N.eqb_spec u a) as [->|Hua];
      [rewrite Ha|destruct (N.eqb_spec u b) as [->|Hub];
                  [rewrite Hb|destruct (N.eqb_spec u d) as [->|Hud];
                              [rewrite Hd|]]]; simpl;
      try (destruct (N.eq_dec c v), (N.eqb_spec v c); congruence).
    rewrite adj_of_out; [reflexivity|]. rewrite Hn. lia.
Qed.

Lemma star_total_degree t c a b d :
  is_star t c a b d -> total_degree t = 6%nat.
Proof.
  intros S. pose proof (star_facts _ _ _ _ _ S)
    as (? & ? & ? & ? & ? & ? & ? & ? & ? & ?).
  destruct S as [Hn _ _ _ Hc Ha Hb Hd].
  apply Permutation_length in Hc. simpl in Hc.
  apply (f_equal (@length N)) in Ha, Hb, Hd. simpl in Ha, Hb, Hd.
  destruct t as [ns r e]. unfold node_count, total_degree, adj_of in *.
  simpl in *.
  destruct ns as [|n0 [|n1 [|n2 [|n3 [|? ?]]]]]; simpl in Hn; try lia.
  assert (K : forall x, x < 4 -> x = 0 \/ x = 1 \/ x = 2 \/ x = 3) by lia.
  destruct (K c) as [?|[?|[?|?]]]; [assumption|subst c..];
    (destruct (K a) as [?|[?|[?|?]]]; [assumption|subst a..]; try congruence);
    (destruct (K b) as [?|[?|[?|?]]]; [assumption|subst b..]; try congruence);
    (destruct (K d) as [?|[?|[?|?]]]; [assumption|subst d..]; try congruence);
    simpl in *; lia.
Qed.

Lemma star_wf t c a b d : is_star t c a b d -> wf t.
Proof.
  intros S. pose proof (star_facts _ _ _ _ _ S)
    as (? & ? & ? & ? & ? & ? & ? & ? & ? & ?).
  constructor.
  - intros u v. rewrite !(star_cnt t c a b d) by assumption.
    repeat match goal with
           | |- context [?x =? ?y] => destruct (N.eqb_spec x y)
           end; simpl; congruence.
  - intros v. rewrite (star_cnt t c a b d) by assumption. exists 0%nat.
    repeat match goal with
           | |- context [?x =? ?y] => destruct (N.eqb_spec x y)
           end; simpl; congruence.
  - exists 3%nat. rewrite (star_total_degree _ _ _ _ _ S).
    split; [reflexivity|]. now rewrite (star_edges _ _ _ _ _ S).
Qed.

Lemma push_chain_nodes_none l adj t :
  (forall i, In i l -> i < node_count t /\ length (adj_of t i) <> 2%nat) ->
  push_chain_nodes l adj t = Done (adj, t).
Proof.
  revert adj; induction l as [|i r IH]; intros adj H; simpl.
  - reflexivity.
  - destruct (H i (or_introl eq_refl)) as [Hi Hd].
    unfold bind. rewrite (degree_eval _ _ Hi).
    destruct (N.eqb_spec (N.of_nat (length (adj_of t i))) 2); [lia|].
    apply IH. intros j Hj. apply H. now right.
Qed.

Lemma contract_chain_loop_nil f t :
  contract_chain_loop f [] t = Done (true, t).
Proof. destruct f; reflexivity. Qed.

(** A centre left with two leaves is contracted by [contract_chain]. *)
Lemma contract_chain_centre t c x y f :
  wf t -> adj_of t c = [x; y] -> adj_of t x = [c] -> adj_of t y = [c] ->
  c <> root t -> x <> c -> x <> y ->
  exists t',
    contract_chain (S f) c t = Done (true, t') /\
    node_count t' = node_count t /\ root t' = root t /\
    edge_count t' = uint_decr (edge_count t) /\
    adj_of t' c = [] /\ adj_of t' x = [y] /\ adj_of t' y = [x] /\
    (forall w, w <> c -> w <> x -> w <> y -> adj_of t' w = adj_of t w).
Proof.
  intros W Hc Hx Hy Hr Hxc Hxy.
  destruct (contract_chain_node_effect t c x y W Hc Hr Hxc)
    as (t' & R & W' & Hn & Hr' & A & He & _ & _ & _ & P & F).
  destruct (P Hxy) as [Px Py]. rewrite Hx in Px. rewrite Hy in Py.
  assert (Hcn : c < node_count t)
    by (apply (adj_nonempty_in_range t c x); rewrite Hc; now left).
  exists t'. split.
  { unfold contract_chain. simpl. unfold bind.
    rewrite (adjacent_total _ _ Hcn), Hc.
    rewrite push_chain_nodes_none.
    - rewrite R. apply contract_chain_loop_nil.
    - intros i [<-|[<-|[]]]; split.
      + apply (adj_nonempty_in_range t x c). rewrite Hx. now left.
      + rewrite Hx. discriminate.
      + apply (adj_nonempty_in_range t y c). rewrite Hy. now left.
      + rewrite Hy. discriminate. }
  repeat split; auto.
  - apply Permutation_sym in Px.
    apply (Permutation_trans (perm_swap _ _ _)) in Px.
    apply Permutation_cons_inv in Px.
    now apply Permutation_length_1_inv in Px.
  - apply Permutation_sym in Py.
    apply (Permutation_trans (perm_swap _ _ _)) in Py.
    apply Permutation_cons_inv in Py.
    now apply Permutation_length_1_inv in Py.
Qed.

Lemma contract_chain_isolated t c f :
  c < node_count t -> adj_of t c = [] ->
  contract_chain (S f) c t = Done (false, t) /\
  contract_chain_node c t = Done (false, t).
Proof.
  intros Hc Ha.
  assert (E : contract_chain_node c t = Done (false, t)).
  { rewrite (contract_chain_node_unfold _ _ Hc), Ha. reflexivity. }
  split; [|exact E].
  unfold contract_chain. simpl. unfold bind.
  rewrite (adjacent_total _ _ Hc), Ha. simpl. unfold ret. now rewrite E.
Qed.

(** C3, counterexample: on the star with centre 1 and leaves 0, 2, 3,
    [trim_leaf(0)] returns with the centre already contracted: node 1 has
    degree 0, not 2, and the edge [(2,3)] is there. *)
Lemma trim_leaf_star3 :
  trim_leaf 1 0 star3 = Done (true, mkTree [[]; []; [3]; [2]] NONODE 1) /\
  degree 1 (mkTree [[]; []; [3]; [2]] NONODE 1)
  = Done (0, mkTree [[]; []; [3]; [2]] NONODE 1).
Proof. split; reflexivity. Qed.

(** C3 (amended): on an unrooted star with centre [c] and exactly three
    leaves [a], [b], [d], [trim_leaf(a)] returns success and has itself
    contracted the centre: on return [c] has degree 0 and [b], [d] are
    joined by the direct edge [(b,d)]; a chain contraction applied to [c]
    afterwards fails and changes nothing. *)
Theorem trim_leaf_star t c a b d fuel :
  is_star t c a b d ->
  exists t',
    trim_leaf (S fuel) a t = Done (true, t') /\
    degree c t' = Done (0, t') /\
    adj_of t' b = [d] /\ adj_of t' d = [b] /\ adj_of t' a = [] /\
    node_count t' = 4 /\ edge_count t' = 1 /\
    contract_chain (S fuel) c t' = Done (false, t') /\
    contract_chain_node c t' = Done (false, t').
Proof.
  intros S. pose proof (star_wf _ _ _ _ _ S) as W.
  pose proof (star_facts _ _ _ _ _ S)
    as (Hca & Hcb & Hcd & Hab & Had & Hbd & Hc4 & Ha4 & Hb4 & Hd4).
  destruct S as [Hn Hroot He _ Pc Aa Ab Ad].
  assert (Hia : In c (adj_of t a)) by (rewrite Aa; now left).
  destruct (wf_remove_edge_total a c t W Hia) as [t1 R1].
  pose proof (wf_remove_edge _ _ _ _ _ W R1) as W1.
  pose proof (remove_edge_frame _ _ _ _ _ R1) as F1.
  pose proof (remove_edge_true _ _ _ _ R1)
    as (_ & _ & Hn1 & Hr1 & He1 & _ & P1).
  assert (A1a : adj_of t1 a = []).
  { specialize (P1 a). rewrite Aa, N.eqb_refl in P1.
    destruct (N.eqb_spec a c); [congruence|]. simpl in P1.
    apply Permutation_cons_inv in P1. now apply Permutation_nil in P1. }
  assert (A1c : Permutation [b; d] (adj_of t1 c)).
  { specialize (P1 c). rewrite N.eqb_refl in P1.
    destruct (N.eqb_spec c a); [congruence|]. simpl in P1.
    apply (Permutation_cons_inv (a := a)).
    etransitivity; [apply Permutation_sym, Pc|exact P1]. }
  assert (A1b : adj_of t1 b = [c]) by (rewrite F1; auto).
  assert (A1d : adj_of t1 d = [c]) by (rewrite F1; auto).
  assert (Hroot1 : c <> root t1).
  { rewrite Hr1, Hroot. unfold NONODE, UINT_MAX. lia. }
  assert (Hdeg : degree a t = Done (1, t)).
  { rewrite degree_eval by (rewrite Hn; assumption). now rewrite Aa. }
  assert (K : exists x y,
             adj_of t1 c = [x; y] /\ adj_of t1 x = [c] /\ adj_of t1 y = [c] /\
             x <> c /\ x <> y /\ x <> a /\ y <> a /\
             ((x = b /\ y = d) \/ (x = d /\ y = b))).
  { apply Permutation_length_2_inv in A1c. destruct A1c as [E|E].
    - exists b, d. rewrite E. repeat split; auto.
    - exists d, b. rewrite E. repeat split; auto. }
  destruct K as (x & y & A1c' & A1x & A1y & Hxc & Hxy & Hxa & Hya & Hor).
  destruct (contract_chain_centre t1 c x y fuel W1 A1c' A1x A1y Hroot1 Hxc Hxy)
    as (t2 & R2 & Hn2 & Hr2 & He2 & A2c & A2x & A2y & F2).
  assert (Hc2 : c < node_count t2) by (rewrite Hn2, Hn1, Hn; assumption).
  exists t2. split.
  { unfold trim_leaf. unfold bind at 1. rewrite Hdeg.
    change (negb (1 =? 1)) with false. cbv iota.
    unfold bind. rewrite adjacent_total by (rewrite Hn; assumption).
    rewrite Aa, R1, R2. reflexivity. }
  split; [rewrite degree_eval by assumption; now rewrite A2c|].
  split; [destruct Hor as [[-> ->]|[-> ->]]; assumption|].
  split; [destruct Hor as [[-> ->]|[-> ->]]; assumption|].
  split; [rewrite F2; auto|].
  split; [congruence|].
  split; [rewrite He2, He1, He; reflexivity|].
  now apply contract_chain_isolated.
Qed.

Lemma is_star_star3 : is_star star3 1 0 2 3.
Proof.
  constructor; try reflexivity.
  repeat constructor; simpl; intuition discriminate.
Defined.

Lemma trim_leaf_star_witness :
  is_star star3 1 0 2 3 /\
  exists t',
    trim_leaf 1 0 star3 = Done (true, t') /\
    degree 1 t' = Done (0, t') /\
    adj_of t' 2 = [3] /\ adj_of t' 3 = [2] /\ adj_of t' 0 = [] /\
    node_count t' = 4 /\ edge_count t' = 1 /\
    contract_chain 1 1 t' = Done (false, t') /\
    contract_chain_node 1 t' = Done (false, t').
Proof.
  split; [exact is_star_star3|].
  exact (trim_leaf_star star3 1 0 2 3 0 is_star_star3).
Defined.


(** ** Composite operations keep what was done before a failure *)

Lemma succeed_in_turn_app {A : Type} (body : A -> M bool) xs ys t t1 t' :
  succeed_in_turn body xs t t1 -> succeed_in_turn body ys t1 t' ->
  succeed_in_turn body (xs ++ ys) t t'.
Proof.
  revert t; induction xs as [|x r IH]; intros t H1 H2; simpl in *.
  - now subst.
  - destruct H1 as (t2 & E & H1). exists t2. split; [assumption|].
    now apply IH.
Qed.

Lemma foreach_ok_false {A : Type} (body : A -> M bool) l t t' :
  foreach_ok l body t = Done (false, t') ->
  exists done x rest t1,
    l = done ++ x :: rest /\
    succeed_in_turn body done t t1 /\ body x t1 = Done (false, t').
Proof.
  revert t; induction l as [|x r IH]; intros t H; simpl in H.
  - discriminate.
  - apply bind_Done in H. destruct H as ([|] & t1 & E & H).
    + destruct (IH _ H) as (done & y & rest & t2 & -> & S & F).
      exists (x :: done), y, rest, t2. split; [reflexivity|].
      split; [|assumption]. simpl. eauto.
    + apply ret_Done in H. destruct H as [_ ->].
      exists [], x, r, t. simpl. auto.
Qed.

Lemma trim_leaf_false fuel v t t' :
  trim_leaf fuel v t = Done (false, t') -> t' = t.
Proof.
  unfold trim_leaf, degree. intros H. inv_step H.
  destruct (negb (AdjacentList.size (adj_of t v) =? 1)); [now inv_step H|].
  inv_step H. destruct (adj_of t v); [discriminate|].
  inv_step H. congruence.
Qed.

Lemma map_seq_split {A : Type} (f : nat -> A) s n done x rest :
  map f (seq s n) = done ++ x :: rest ->
  done = map f (seq s (length done)) /\ x = f (s + length done)%nat /\
  (length done < n)%nat.
Proof.
  revert s n; induction done as [|y r IH]; intros s n H.
  - destruct n; simpl in H; [discriminate|]. injection H as <- _.
    simpl. rewrite Nat.add_0_r. repeat split. lia.
  - destruct n; simpl in H; [discriminate|]. injection H as <- H.
    destruct (IH _ _ H) as (E1 & E2 & E3). simpl.
    rewrite <- E1, E2. repeat split; f_equal; lia.
Qed.

Lemma push_chain_nodes_state l adj t a t' :
  push_chain_nodes l adj t = Done (a, t') -> t' = t.
Proof.
  revert adj; induction l as [|i r IH]; intros adj H; simpl in H.
  - now inv_step H.
  - unfold degree in H. inv_step H. eauto.
Qed.

Lemma chain_steps_succeed stack t done stack' t' :
  chain_steps stack t done stack' t' ->
  succeed_in_turn contract_chain_node done t t'.
Proof.
  induction 1 as [|u rest t l stack1 t1 done stack' t' _ _ C _ IH]; simpl.
  - reflexivity.
  - exists t1. split; assumption.
Qed.

(** Two runs of successful rounds from the same stack and state: one is
    the beginning of the other. *)
Lemma chain_steps_prefix stack t d1 s1 t1 :
  chain_steps stack t d1 s1 t1 ->
  forall d2 s2 t2,
    chain_steps stack t d2 s2 t2 ->
    (exists more, d2 = d1 ++ more /\ chain_steps s1 t1 more s2 t2) \/
    (exists more, d1 = d2 ++ more /\ chain_steps s2 t2 more s1 t1).
Proof.
  induction 1 as [|u rest t l stack1 ta done stack' t' A P C S IH];
    intros d2 s2 t2 H2.
  - left. exists d2. split; [reflexivity|assumption].
  - inversion H2 as [|u' rest' t0 l' stack1' tb done' s2' t2' A' P' C' S'];
      subst.
    + right. exists (u :: done). split; [reflexivity|].
      econstructor; eassumption.
    + assert (l' = l) by congruence. subst l'.
      assert (stack1' = stack1) by congruence. subst stack1'.
      assert (tb = ta) by congruence. subst tb.
      destruct (IH _ _ _ S') as [(more & -> & M)|(more & -> & M)].
      * left. exists more. split; [reflexivity|assumption].
      * right. exists more. split; [reflexivity|assumption].
Qed.

Lemma contract_chain_loop_steps fuel :
  forall adj t t',
    contract_chain_loop fuel adj t = Done (false, t') ->
    exists done u rest,
      chain_steps adj t done (u :: rest) t' /\
      contract_chain_node u t' = Done (false, t').
Proof.
  induction fuel as [|f IH]; intros [|u rest] t t' H; simpl in H;
    try discriminate.
  apply bind_Done in H. destruct H as (l & ta & A & H).
  pose proof (adjacent_Done _ _ _ _ A) as (-> & _ & _).
  apply bind_Done in H. destruct H as (stack1 & tb & P & H).
  pose proof (push_chain_nodes_state _ _ _ _ _ P) as ->.
  apply bind_Done in H. destruct H as (b & tc & C & H).
  destruct b.
  - destruct (IH _ _ _ H) as (done & w & rest' & S & F).
    exists (u :: done), w, rest'. split; [|assumption].
    econstructor; eassumption.
  - apply ret_Done in H. destruct H as [_ ->].
    pose proof (contract_chain_node_false _ _ _ C) as ->.
    exists [], u, rest. split; [constructor|assumption].
Qed.

Lemma chain_steps_head v t done u rest t' :
  chain_steps [v] t done (u :: rest) t' -> hd_error (done ++ [u]) = Some v.
Proof.
  intros H. inversion H; subst; reflexivity.
Qed.

(** C5: when [contract_chain], [contract_all_chains] or [trim_leaves]
    returns failure, the tree is the one produced by the elementary steps
    that succeeded before the first failing step: those are kept, the
    failing step changes nothing and no step follows it.  For
    [contract_chain] the steps are the rounds of its stack loop: the tree
    returned is the tree after the successful rounds, in the order in
    which the loop takes the nodes off its stack, the node then on top of
    the stack is the one whose contraction fails, and every run of
    successful rounds of the loop is the beginning of this one. *)
Theorem composite_failure_keeps_prefix :
  (forall fuel v t t',
      contract_chain fuel v t = Done (false, t') ->
      exists done u rest,
        chain_steps [v] t done (u :: rest) t' /\
        contract_chain_node u t' = Done (false, t') /\
        succeed_in_turn contract_chain_node done t t' /\
        hd_error (done ++ [u]) = Some v /\
        forall done2 stack2 t2,
          chain_steps [v] t done2 stack2 t2 ->
          exists more,
            done = done2 ++ more /\
            chain_steps stack2 t2 more (u :: rest) t') /\
  (forall t t',
      contract_all_chains t = Done (false, t') ->
      exists k,
        (k < length (nodes23 t))%nat /\
        succeed_in_turn contract_chain_node (map N.of_nat (seq 0 k)) t t' /\
        contract_chain_node (N.of_nat k) t' = Done (false, t')) /\
  (forall fuel leaves t t',
      trim_leaves fuel leaves t = Done (false, t') ->
      exists done v rest,
        leaves = done ++ v :: rest /\
        succeed_in_turn (trim_leaf fuel) done t t' /\
        trim_leaf fuel v t' = Done (false, t')).
Proof.
  split; [|split].
  - intros fuel v t t' H. unfold contract_chain in H.
    destruct (contract_chain_loop_steps _ _ _ _ H) as (done & u & rest & S & F).
    exists done, u, rest. split; [assumption|]. split; [assumption|].
    split; [exact (chain_steps_succeed _ _ _ _ _ S)|].
    split; [exact (chain_steps_head _ _ _ _ _ _ S)|].
    intros done2 stack2 t2 S2.
    destruct (chain_steps_prefix _ _ _ _ _ S _ _ _ S2)
      as [(more & -> & M)|(more & -> & M)].
    + inversion M as [|u' rest' t0 l stack1 t1 done' s' t'' _ _ C _]; subst.
      * exists []. split; [now rewrite !app_nil_r|constructor].
      * rewrite F in C. discriminate.
    + exists more. split; [reflexivity|assumption].
  - intros t t' H. unfold contract_all_chains in H.
    apply foreach_ok_false in H.
    destruct H as (done & x & rest & t1 & E & S & F).
    pose proof (contract_chain_node_false _ _ _ F) as ->.
    apply map_seq_split in E. destruct E as (E1 & -> & E3).
    exists (length done). rewrite <- E1. auto.
  - intros fuel leaves t t' H. unfold trim_leaves in H.
    apply foreach_ok_false in H.
    destruct H as (done & x & rest & t1 & E & S & F).
    pose proof (trim_leaf_false _ _ _ _ F) as ->.
    exists done, x, rest. auto.
Qed.

Lemma composite_failure_keeps_prefix_witness :
  (contract_chain 5 0 path5_rooted
   = Done (false, mkTree [[]; [3; 2]; [4; 1]; [1]; [2]] 2 3) /\
   exists done u rest,
     chain_steps [0] path5_rooted done (u :: rest)
       (mkTree [[]; [3; 2]; [4; 1]; [1]; [2]] 2 3) /\
     contract_chain_node u (mkTree [[]; [3; 2]; [4; 1]; [1]; [2]] 2 3)
     = Done (false, mkTree [[]; [3; 2]; [4; 1]; [1]; [2]] 2 3) /\
     succeed_in_turn contract_chain_node done path5_rooted
       (mkTree [[]; [3; 2]; [4; 1]; [1]; [2]] 2 3) /\
     hd_error (done ++ [u]) = Some 0 /\
     forall done2 stack2 t2,
       chain_steps [0] path5_rooted done2 stack2 t2 ->
       exists more,
         done = done2 ++ more /\
         chain_steps stack2 t2 more (u :: rest)
           (mkTree [[]; [3; 2]; [4; 1]; [1]; [2]] 2 3)) /\
  (contract_all_chains chain0 = Done (false, mkTree [[]; [2]; [1]] NONODE 1) /\
   exists k,
     (k < length (nodes23 chain0))%nat /\
     succeed_in_turn contract_chain_node (map N.of_nat (seq 0 k)) chain0
       (mkTree [[]; [2]; [1]] NONODE 1) /\
     contract_chain_node (N.of_nat k) (mkTree [[]; [2]; [1]] NONODE 1)
     = Done (false, mkTree [[]; [2]; [1]] NONODE 1)) /\
  (trim_leaves 3 [1; 2; 0] chain0 = Done (false, mkTree [[]; []; []] NONODE 0) /\
   exists done v rest,
     [1; 2; 0] = done ++ v :: rest /\
     succeed_in_turn (trim_leaf 3) done chain0 (mkTree [[]; []; []] NONODE 0) /\
     trim_leaf 3 v (mkTree [[]; []; []] NONODE 0)
     = Done (false, mkTree [[]; []; []] NONODE 0)).
Proof.
  destruct composite_failure_keeps_prefix as (H1 & H2 & H3).
  split; [|split].
  - split; [reflexivity|]. apply (H1 5%nat 0 path5_rooted). reflexivity.
  - split; [reflexivity|]. apply (H2 chain0). reflexivity.
  - split; [reflexivity|]. apply (H3 3%nat [1; 2; 0] chain0). reflexivity.
Defined.

(** On the path [3 - 1 - 0 - 2 - 4] rooted at 2, [contract_chain(0)]
    contracts node 0 and then finds the root 2 on top of its stack, above
    node 1: it fails there, and node 1 is never tried. *)
Example contract_chain_stops_at_root :
  chain_steps [0] path5_rooted [0] [2; 1]
    (mkTree [[]; [3; 2]; [4; 1]; [1]; [2]] 2 3) /\
  contract_chain_node 2 (mkTree [[]; [3; 2]; [4; 1]; [1]; [2]] 2 3)
  = Done (false, mkTree [[]; [3; 2]; [4; 1]; [1]; [2]] 2 3).
Proof.
  split; [|reflexivity].
  apply (chain_steps_cons 0 [] path5_rooted [1; 2] [2; 1]
           (mkTree [[]; [3; 2]; [4; 1]; [1]; [2]] 2 3));
    try reflexivity.
  constructor.
Qed.


(** ** Construction of the depth-first iterator *)

(** C9, counterexample: on the empty tree [begin_dfs()] returns an
    iterator; no access outside the node store takes place. *)
Lemma begin_dfs_empty_tree :
  begin_dfs (Iterator_dfs.mkStorage 7 7 INORDER) empty_tree
  = Done (Iterator_dfs.mk 0 7 7 INORDER []) /\
  begin_dfs (Iterator_dfs.mkStorage 7 7 INORDER) empty_tree <> OutOfBounds.
Proof. split; [reflexivity|discriminate]. Qed.

(** C9 (amended): on an empty tree [begin_dfs()] does not run
    [dfs_init()], because the constructor's test [idx != node_size()]
    compares 0 with 0; it reads nothing from the node store and its result
    compares equal to [end_dfs()], so a traversal loop visits nothing.
    [dfs_init()] itself, run on an empty tree, sets the NOTRAVERSAL state
    and then indexes the node store at [UINT_MAX], out of its bounds.  On a
    non-empty tree [begin_dfs()] stays in bounds exactly when the root
    marker is [NONODE] or names an existing node. *)
Theorem begin_dfs_bounds s t :
  (nodes23 t = [] ->
   begin_dfs s t = Done (Iterator_dfs.raw s 0) /\
   (forall it_end, end_dfs s t = Done it_end ->
                   Iterator_dfs.eq (Iterator_dfs.raw s 0) it_end = true) /\
   (forall fuel, traverse fuel t (Iterator_dfs.raw s 0) = Done []) /\
   (forall it, Iterator_dfs.dfs_init t it = OutOfBounds)) /\
  (nodes23 t <> [] ->
   (root t = NONODE \/ root t < node_count t ->
    exists stack,
      begin_dfs s t
      = Done (Iterator_dfs.mk (if root t =? NONODE then 0 else root t)
                0 NONODE PREORDER stack)) /\
   (~ (root t = NONODE \/ root t < node_count t) ->
    begin_dfs s t = OutOfBounds)).
Proof.
  unfold begin_dfs, end_dfs, Iterator_dfs.make, Iterator_dfs.dfs_init,
    Iterator_dfs.push_children, node_count.
  split.
  - intros E. rewrite E. simpl. repeat split.
    + intros it_end H. injection H as <-. reflexivity.
    + intros fuel. destruct fuel; simpl; rewrite E; reflexivity.
  - intros E. destruct (nodes23 t) as [|n0 ns] eqn:En; [contradiction|].
    change (negb (0 =? N.of_nat (length (n0 :: ns)))) with true.
    cbv iota. cbv beta zeta.
    set (r := if root t =? NONODE then 0 else root t).
    change (Iterator_dfs.idx (Iterator_dfs.mk r 0 NONODE PREORDER
              (Iterator_dfs.dfs_stack (Iterator_dfs.raw s 0)))) with r.
    split.
    + intros H.
      assert (Hr : r < N.of_nat (length (n0 :: ns))).
      { unfold r. destruct (N.eqb_spec (root t) NONODE); simpl; [lia|].
        destruct H; [contradiction|assumption]. }
      apply nth_N_lt in Hr. destruct Hr as [adj Hr]. rewrite Hr.
      eexists. reflexivity.
    + intros H.
      assert (Hr : N.of_nat (length (n0 :: ns)) <= r).
      { unfold r. destruct (N.eqb_spec (root t) NONODE) as [Hx|Hx];
          [tauto|]. lia. }
      apply nth_N_None in Hr. rewrite Hr. reflexivity.
Qed.

Lemma begin_dfs_bounds_witness :
  (nodes23 empty_tree = [] /\
   begin_dfs (Iterator_dfs.mkStorage 7 7 INORDER) empty_tree
   = Done (Iterator_dfs.raw (Iterator_dfs.mkStorage 7 7 INORDER) 0) /\
   Iterator_dfs.dfs_init empty_tree
     (Iterator_dfs.raw (Iterator_dfs.mkStorage 7 7 INORDER) 0) = OutOfBounds) /\
  (nodes23 path3 <> [] /\ (root path3 = NONODE \/ root path3 < node_count path3) /\
   exists stack,
     begin_dfs (Iterator_dfs.mkStorage 7 7 INORDER) path3
     = Done (Iterator_dfs.mk 0 0 NONODE PREORDER stack)).
Proof.
  split.
  - split; [reflexivity|].
    destruct (proj1 (begin_dfs_bounds (Iterator_dfs.mkStorage 7 7 INORDER)
                       empty_tree) eq_refl) as (H1 & _ & _ & H4).
    split; [exact H1|apply H4].
  - assert (H : nodes23 path3 <> []) by discriminate.
    split; [exact H|]. split; [left; reflexivity|].
    apply (proj1 (proj2 (begin_dfs_bounds (Iterator_dfs.mkStorage 7 7 INORDER)
                           path3) H)).
    left. reflexivity.
Defined.


(** ** The connectivity scan *)

Lemma nth_set_nth {A : Type} (l : list A) (i j : nat) (x d : A) :
  (i < length l)%nat ->
  nth j (set_nth l i x) d = if Nat.eqb j i then x else nth j l d.
Proof.
  revert i j; induction l as [|y r IH]; intros i j Hi; simpl in Hi; [lia|].
  destruct i as [|i], j as [|j]; simpl; auto.
  apply IH. lia.
Qed.

Lemma mark_larger_spec i adj vis :
  Forall (fun x => x < N.of_nat (length vis)) adj ->
  exists vis',
    mark_larger i adj vis = Done vis' /\ length vis' = length vis /\
    forall j, nth (N.to_nat j) vis' false
              = nth (N.to_nat j) vis false || marked i adj j.
Proof.
  revert vis; induction adj as [|x r IH]; intros vis H.
  - exists vis. simpl. repeat split. intros j. now rewrite orb_false_r.
  - apply Forall_cons_iff in H. destruct H as [Hx Hr]. simpl.
    destruct (N.ltb_spec i x) as [Hix|Hix].
    + destruct (proj1 (nth_N_lt vis x) Hx) as [b Hb]. rewrite Hb.
      destruct (IH (set_nth vis (N.to_nat x) true)) as (vis' & E & L & P).
      { now rewrite set_nth_length. }
      exists vis'. split; [exact E|]. rewrite set_nth_length in L.
      split; [exact L|]. intros j. rewrite P, nth_set_nth by lia.
      unfold marked. simpl.
      destruct (N.eqb_spec x j) as [->|Hne].
      * rewrite Nat.eqb_refl.
        destruct (N.ltb_spec i j); [|lia]. simpl. now rewrite orb_true_r.
      * destruct (Nat.eqb_spec (N.to_nat j) (N.to_nat x)); [lia|].
        reflexivity.
    + destruct (IH vis Hr) as (vis' & E & L & P).
      exists vis'. split; [exact E|]. split; [exact L|].
      intros j. rewrite P. unfold marked. simpl.
      destruct (N.ltb_spec i x); [lia|]. now rewrite andb_false_r.
Qed.

Lemma scan_nodes_spec ns :
  forall i vis,
    Forall (Forall (fun x => x < N.of_nat (length vis))) ns ->
    exists vis',
      scan_nodes i ns vis = Done vis' /\ length vis' = length vis /\
      forall j, nth (N.to_nat j) vis' false
                = nth (N.to_nat j) vis false || marked_from i ns j.
Proof.
  induction ns as [|adj r IH]; intros i vis H.
  - exists vis. simpl. repeat split. intros j. now rewrite orb_false_r.
  - apply Forall_cons_iff in H. destruct H as [Ha Hr]. simpl.
    destruct (mark_larger_spec i adj vis Ha) as (vis1 & E1 & L1 & P1).
    rewrite E1.
    destruct (IH (i + 1) vis1) as (vis' & E & L & P).
    { now rewrite L1. }
    exists vis'. split; [exact E|]. split; [congruence|].
    intros j. rewrite P, P1. now rewrite orb_assoc.
Qed.

Lemma marked_true i adj j :
  marked i adj j = true <-> In j adj /\ i < j.
Proof.
  unfold marked. rewrite existsb_exists. split.
  - intros (x & Hx & H). apply andb_true_iff in H. destruct H as [H1 H2].
    apply N.eqb_eq in H1. apply N.ltb_lt in H2. subst. auto.
  - intros [H1 H2]. exists j. split; [assumption|].
    rewrite N.eqb_refl. now apply N.ltb_lt.
Qed.

Lemma marked_from_true i ns j :
  marked_from i ns j = true <->
  exists k adj, nth_error ns k = Some adj /\ In j adj /\ i + N.of_nat k < j.
Proof.
  revert i; induction ns as [|a r IH]; intros i; simpl.
  - split; [discriminate|]. intros (k & adj & H & _). destruct k; discriminate.
  - rewrite orb_true_iff, marked_true, IH. split.
    + intros [[H1 H2]|(k & adj & H1 & H2 & H3)].
      * exists 0%nat, a. simpl. repeat split; auto. lia.
      * exists (S k), adj. simpl. repeat split; auto. lia.
    + intros ([|k] & adj & H1 & H2 & H3); simpl in H1.
      * injection H1 as ->. left. split; [assumption|lia].
      * right. exists k, adj. repeat split; auto. lia.
Qed.

Lemma In_node_ids t i : In i (node_ids t) <-> i < node_count t.
Proof.
  unfold node_ids, node_count. rewrite in_map_iff. split.
  - intros (k & <- & H). apply in_seq in H. lia.
  - intros H. exists (N.to_nat i). split; [lia|]. apply in_seq. lia.
Qed.

Lemma lower_neighbour_true t j :
  lower_neighbour t j = true <-> exists i, i < j /\ In j (adj_of t i).
Proof.
  unfold lower_neighbour. rewrite existsb_exists. split.
  - intros (i & _ & H). apply andb_true_iff in H. destruct H as [H1 H2].
    apply N.ltb_lt in H1. apply existsb_exists in H2.
    destruct H2 as (x & Hx & E). apply N.eqb_eq in E. subst x. eauto.
  - intros (i & H1 & H2). exists i. split.
    + apply In_node_ids. eapply adj_nonempty_in_range; eauto.
    + apply andb_true_iff. split; [now apply N.ltb_lt|].
      apply existsb_exists. exists j. split; [assumption|apply N.eqb_refl].
Qed.

Lemma adj_of_nth_error t k adj :
  nth_error (nodes23 t) k = Some adj -> adj_of t (N.of_nat k) = adj.
Proof.
  intros H. unfold adj_of.
  assert (E : nth_N (nodes23 t) (N.of_nat k) = Some adj).
  { apply nth_N_Some. now rewrite Nat2N.id. }
  now rewrite E.
Qed.

Lemma marked_from_lower t j :
  marked_from 0 (nodes23 t) j = lower_neighbour t j.
Proof.
  apply eq_true_iff_eq. rewrite marked_from_true, lower_neighbour_true. split.
  - intros (k & adj & H1 & H2 & H3). exists (N.of_nat k).
    rewrite (adj_of_nth_error _ _ _ H1). split; [lia|assumption].
  - intros (i & H1 & H2).
    assert (Hi : i < node_count t) by (eapply adj_nonempty_in_range; eauto).
    exists (N.to_nat i), (adj_of t i). split; [|split; [assumption|lia]].
    unfold adj_of. apply nth_N_lt in Hi. destruct Hi as [l Hl].
    rewrite Hl. now apply nth_N_Some.
Qed.

Lemma visited_bits_spec t :
  nodes23 t <> [] ->
  (forall i j, In j (adj_of t i) -> j < node_count t) ->
  exists vis,
    visited_bits t = Done vis /\ length vis = length (nodes23 t) /\
    forall j, j < node_count t ->
              nth (N.to_nat j) vis false = (j =? 0) || lower_neighbour t j.
Proof.
  intros Hne Hr. unfold visited_bits.
  destruct (nodes23 t) as [|n0 ns] eqn:En; [contradiction|].
  rewrite <- En.
  set (vis0 := set_nth (repeat false (length (nodes23 t))) 0 true).
  assert (L0 : length vis0 = length (nodes23 t))
    by (unfold vis0; now rewrite set_nth_length, repeat_length).
  destruct (scan_nodes_spec (nodes23 t) 0 vis0) as (vis & E & L & P).
  { apply Forall_forall. intros adj Hadj. apply Forall_forall. intros x Hx.
    apply In_nth_error in Hadj. destruct Hadj as [k Hk].
    rewrite L0. apply (Hr (N.of_nat k)).
    now rewrite (adj_of_nth_error _ _ _ Hk). }
  exists vis. split; [exact E|]. split; [congruence|].
  intros j Hj. rewrite P, marked_from_lower. f_equal.
  unfold vis0. rewrite nth_set_nth
    by (rewrite repeat_length, En; simpl; lia).
  destruct (N.eqb_spec j 0) as [->|Hj0]; [reflexivity|].
  destruct (Nat.eqb_spec (N.to_nat j) 0); [lia|].
  apply nth_repeat.
Qed.

Lemma count_unvisited_filter vis :
  forall s c,
    count_unvisited vis c
    = Nat.iter
        (length (filter (fun k => negb (nth (k - s) vis false))
                   (seq s (length vis))))
        uint_incr c.
Proof.
  unfold count_unvisited.
  induction vis as [|b r IH]; intros s c; simpl.
  - reflexivity.
  - rewrite Nat.sub_diag. simpl. rewrite (IH (S s)).
    assert (E : filter (fun k => negb (nth (k - S s) r false))
                  (seq (S s) (length r))
                = filter (fun k =>
                            negb match (k - s)%nat with
                                 | O => b
                                 | S m => nth m r false
                                 end) (seq (S s) (length r))).
    { apply filter_ext_in. intros k Hk. apply in_seq in Hk.
      replace (k - s)%nat with (S (k - S s)) by lia. reflexivity. }
    rewrite E. destruct b; simpl; [reflexivity|].
    rewrite <- Nat.iter_succ_r. reflexivity.
Qed.

Lemma filter_map_length {A B : Type} (f : A -> B) (p : B -> bool) l :
  length (filter p (map f l)) = length (filter (fun x => p (f x)) l).
Proof.
  induction l as [|x r IH]; simpl; [reflexivity|].
  destruct (p (f x)); simpl; congruence.
Qed.

(** The marking loops agree with the wording of the specification. *)
Lemma components_counts_unmarked t :
  nodes23 t <> [] ->
  (forall i j, In j (adj_of t i) -> j < node_count t) ->
  components t = Done (Nat.iter (length (unmarked t)) uint_incr 1, t).
Proof.
  intros Hne Hr. unfold components.
  destruct (visited_bits_spec t Hne Hr) as (vis & E & L & P). rewrite E.
  rewrite (count_unvisited_filter vis 0 1). do 3 f_equal.
  unfold unmarked, node_ids. rewrite filter_map_length, L. f_equal.
  apply filter_ext_in. intros k Hk. apply in_seq in Hk.
  rewrite Nat.sub_0_r. rewrite <- (Nat2N.id k) at 1.
  rewrite P by (unfold node_count; lia). reflexivity.
Qed.


Lemma asc_reach_inv t m j :
  asc_reach t m j -> j = m \/ lower_neighbour t j = true.
Proof.
  destruct 1 as [|i j _ Hlt Hin]; [now left|right].
  apply lower_neighbour_true. eauto.
Qed.

Lemma filter_none {A : Type} (p : A -> bool) l :
  (forall x, In x l -> p x = false) -> filter p l = [].
Proof.
  induction l as [|x r IH]; intros H; simpl; [reflexivity|].
  rewrite (H x (or_introl eq_refl)). apply IH. intros y Hy. apply H. now right.
Qed.


Lemma NoDup_node_ids t : NoDup (node_ids t).
Proof.
  unfold node_ids. apply Finite.Injective_map_NoDup; [|apply seq_NoDup].
  intros x y H. lia.
Qed.




Lemma two_groups_two_paths : two_groups two_paths (fun j => j <? 3) 0 3.
Proof.
  assert (K : forall x, x < 5 -> x = 0 \/ x = 1 \/ x = 2 \/ x = 3 \/ x = 4)
    by lia.
  assert (R1 : asc_reach two_paths 0 1)
    by (apply (asc_step _ _ 0 1); [constructor|reflexivity|now left]).
  assert (R2 : asc_reach two_paths 0 2)
    by (apply (asc_step _ _ 1 2);
        [assumption|reflexivity|right; now left]).
  assert (R4 : asc_reach two_paths 3 4)
    by (apply (asc_step _ _ 3 4); [constructor|reflexivity|now left]).
  constructor.
  - intros i j H. pose proof (adj_nonempty_in_range _ _ _ H) as Hi.
    destruct (K i Hi) as [E|[E|[E|[E|E]]]]; subst i; simpl in H;
      intuition (subst; reflexivity).
  - split; reflexivity.
  - split; reflexivity.
  - intros j Hj E.
    destruct (K j Hj) as [E'|[E'|[E'|[E'|E']]]]; subst j;
      try discriminate; auto; constructor.
  - intros j Hj E.
    destruct (K j Hj) as [E'|[E'|[E'|[E'|E']]]]; subst j;
      try discriminate; auto; constructor.
Defined.



(** ** The events of a traversal tree *)

Lemma rtree_nested_ind (P : rtree -> Prop) :
  (forall v cs, (forall c, In c cs -> P c) -> P (RNode v cs)) ->
  forall r, P r.
Proof.
  intros H. fix IH 1. intros [v cs]. apply H.
  induction cs as [|c cs IHcs]; intros x Hx.
  - destruct Hx.
  - destruct Hx as [<-|Hx]; [apply IH|now apply IHcs].
Qed.

(** The events between Enter and Leave of a node with children [cs]. *)
Lemma events_RNode v cs :
  events (RNode v cs)
  = (v, PREORDER)
      :: match cs with
         | [] => [(v, INORDER)]
         | c :: rest =>
             events c ++ flat_map (fun c' => (v, INORDER) :: events c') rest
         end ++ [(v, POSTORDER)].
Proof. reflexivity. Qed.

Lemma In_separated v cs e :
  In e (flat_map (fun c' => (v, INORDER) :: events c') cs) ->
  e = (v, INORDER) \/ exists c, In c cs /\ In e (events c).
Proof.
  intros H. apply in_flat_map in H. destruct H as (c & Hc & [<-|He]); eauto.
Qed.

Lemma In_body v cs e :
  In e match cs with
       | [] => [(v, INORDER)]
       | c :: rest =>
           events c ++ flat_map (fun c' => (v, INORDER) :: events c') rest
       end ->
  e = (v, INORDER) \/ exists c, In c cs /\ In e (events c).
Proof.
  destruct cs as [|c rest]; simpl.
  - intros [<-|[]]. now left.
  - intros H. apply in_app_or in H. destruct H as [H|H].
    + right. exists c. auto.
    + apply In_separated in H. destruct H as [H|(c' & Hc' & H)]; eauto.
Qed.

Lemma events_ids r x dir : In (x, dir) (events r) -> In x (ids r).
Proof.
  revert x dir. induction r as [v cs IH] using rtree_nested_ind.
  intros x dir H. rewrite events_RNode in H. simpl.
  destruct H as [H|H]; [injection H as <- _; now left|].
  apply in_app_or in H. destruct H as [H|[H|[]]].
  - apply In_body in H. destruct H as [H|(c & Hc & H)].
    + injection H as <- _. now left.
    + right. apply in_flat_map. exists c. split; [assumption|]. eauto.
  - injection H as <- _. now left.
Qed.

Lemma In_body_child v cs c e :
  In c cs -> In e (events c) ->
  In e match cs with
       | [] => [(v, INORDER)]
       | c :: rest =>
           events c ++ flat_map (fun c' => (v, INORDER) :: events c') rest
       end.
Proof.
  destruct cs as [|c0 rest]; intros Hc He; [destruct Hc|].
  apply in_or_app. destruct Hc as [<-|Hc]; [now left|right].
  apply in_flat_map. exists c. split; [assumption|now right].
Qed.

Lemma ids_events r x :
  In x (ids r) ->
  In (x, PREORDER) (events r) /\ In (x, POSTORDER) (events r).
Proof.
  revert x. induction r as [v cs IH] using rtree_nested_ind.
  intros x H. rewrite events_RNode. simpl in H. destruct H as [<-|H].
  - split; [now left|]. right. apply in_or_app. right. now left.
  - apply in_flat_map in H. destruct H as (c & Hc & Hx).
    destruct (IH c Hc x Hx) as [H1 H2].
    split; right; apply in_or_app; left; eapply In_body_child; eauto.
Qed.

Lemma rroot_in_ids r : In (rroot r) (ids r).
Proof. destruct r. now left. Qed.

Lemma subtree_ids s r x : subtree s r -> In x (ids s) -> In x (ids r).
Proof.
  induction 1 as [|v cs c Hc _ IH]; intros H; [assumption|].
  right. apply in_flat_map. exists c. auto.
Qed.

Lemma subtree_of_id r x :
  In x (ids r) -> exists s, subtree s r /\ rroot s = x.
Proof.
  revert x. induction r as [v cs IH] using rtree_nested_ind.
  intros x [<-|H].
  - exists (RNode v cs). split; [constructor|reflexivity].
  - apply in_flat_map in H. destruct H as (c & Hc & Hx).
    destruct (IH c Hc x Hx) as (s & Hs & E).
    exists s. split; [|assumption]. econstructor; eauto.
Qed.

Lemma NoDup_app_inv {A : Type} (l1 l2 : list A) :
  NoDup (l1 ++ l2) ->
  NoDup l1 /\ NoDup l2 /\ forall x, In x l1 -> ~ In x l2.
Proof.
  induction l1 as [|a l1 IH]; simpl; intros H.
  - repeat split; [constructor|assumption|tauto].
  - apply NoDup_cons_iff in H. destruct H as [Ha H].
    destruct (IH H) as (H1 & H2 & H3). repeat split.
    + constructor; [|assumption]. intros Hin. apply Ha.
      apply in_or_app. now left.
    + assumption.
    + intros x [<-|Hx] Hin; [|now apply (H3 x)].
      apply Ha. apply in_or_app. now right.
Qed.

Lemma NoDup_flat_map_child {A B : Type} (f : A -> list B) pre c post :
  NoDup (flat_map f (pre ++ c :: post)) ->
  NoDup (f c) /\
  forall x, In x (f c) -> ~ In x (flat_map f (pre ++ post)).
Proof.
  rewrite !flat_map_app. simpl. intros H.
  apply NoDup_app_inv in H. destruct H as (_ & H & D1).
  apply NoDup_app_inv in H. destruct H as (Hc & _ & D2).
  split; [assumption|]. intros x Hx Hin. apply in_app_or in Hin.
  destruct Hin as [Hin|Hin].
  - apply (D1 x Hin). apply in_or_app. now left.
  - now apply (D2 x).
Qed.

(** The events of a child form one block of the events between Enter and
    Leave of its parent; around it lie Between events of the parent and
    events of the other children. *)
Lemma body_split v pre c post :
  exists B1 B2,
    match pre ++ c :: post with
    | [] => [(v, INORDER)]
    | c0 :: rest =>
        events c0 ++ flat_map (fun c' => (v, INORDER) :: events c') rest
    end = B1 ++ events c ++ B2 /\
    forall e, In e (B1 ++ B2) ->
              e = (v, INORDER) \/
              exists c', In c' (pre ++ post) /\ In e (events c').
Proof.
  destruct pre as [|c0 pre]; simpl.
  - exists [], (flat_map (fun c' => (v, INORDER) :: events c') post).
    split; [reflexivity|]. simpl. apply In_separated.
  - exists (events c0 ++ flat_map (fun c' => (v, INORDER) :: events c') pre
                      ++ [(v, INORDER)]),
           (flat_map (fun c' => (v, INORDER) :: events c') post).
    split.
    + rewrite flat_map_app. simpl. rewrite <- !app_assoc. reflexivity.
    + intros e H. rewrite <- !app_assoc in H.
      apply in_app_or in H. destruct H as [H|H].
      { right. exists c0. split; [now left|assumption]. }
      apply in_app_or in H. destruct H as [H|H].
      { apply In_separated in H. destruct H as [H|(c' & Hc' & H)]; auto.
        right. exists c'. split; [|assumption]. right.
        apply in_or_app. now left. }
      destruct H as [<-|H]; [now left|].
      apply In_separated in H. destruct H as [H|(c' & Hc' & H)]; auto.
      right. exists c'. split; [|assumption]. right.
      apply in_or_app. now right.
Qed.

(** The events of a subtree are one block of the events of the tree, and
    no other event is on a node of that subtree. *)
Lemma subtree_block s r :
  subtree s r -> NoDup (ids r) ->
  exists l1 l2,
    events r = l1 ++ events s ++ l2 /\
    forall x dir, In x (ids s) -> ~ In (x, dir) (l1 ++ l2).
Proof.
  induction 1 as [|v cs c Hc Hs IH]; intros Hnd.
  - exists [], []. rewrite app_nil_r. split; [reflexivity|]. intros x dir _ [].
  - simpl in Hnd. apply NoDup_cons_iff in Hnd. destruct Hnd as [Hv Hnd].
    apply in_split in Hc. destruct Hc as (pre & post & ->).
    destruct (NoDup_flat_map_child ids pre c post Hnd) as [Hndc Hdis].
    destruct (IH Hndc) as (l1 & l2 & E & Hout).
    destruct (body_split v pre c post) as (B1 & B2 & EB & HB).
    exists ((v, PREORDER) :: B1 ++ l1), (l2 ++ B2 ++ [(v, POSTORDER)]).
    split.
    + rewrite events_RNode, EB, E. simpl. rewrite <- !app_assoc. reflexivity.
    + intros x dir Hx Hin.
      assert (Hxc : In x (ids c)) by (eapply subtree_ids; eauto).
      assert (Hxv : x <> v).
      { intros ->. apply Hv. apply in_flat_map. exists c. split; [|assumption].
        apply in_or_app. right. now left. }
      assert (HxB : ~ In (x, dir) (B1 ++ B2)).
      { intros H. apply HB in H. destruct H as [H|(c' & Hc' & H)].
        - injection H as H _. contradiction.
        - apply (Hdis x Hxc). apply in_flat_map. exists c'.
          split; [assumption|]. eapply events_ids; eauto. }
      simpl in Hin. destruct Hin as [H|Hin]; [injection H as H _; congruence|].
      rewrite <- app_assoc in Hin.
      apply in_app_or in Hin. destruct Hin as [H|Hin].
      { apply HxB. apply in_or_app. now left. }
      apply in_app_or in Hin. destruct Hin as [H|Hin].
      { apply (Hout x dir Hx). apply in_or_app. now left. }
      apply in_app_or in Hin. destruct Hin as [H|Hin].
      { apply (Hout x dir Hx). apply in_or_app. now right. }
      apply in_app_or in Hin. destruct Hin as [H|[H|[]]].
      { apply HxB. apply in_or_app. now right. }
      injection H as H _. congruence.
Qed.

Lemma subtree_NoDup s r : subtree s r -> NoDup (ids r) -> NoDup (ids s).
Proof.
  induction 1 as [|v cs c Hc Hs IH]; intros Hnd; [assumption|].
  simpl in Hnd. apply NoDup_cons_iff in Hnd. destruct Hnd as [_ Hnd].
  apply in_split in Hc. destruct Hc as (pre & post & ->).
  apply IH. now apply (NoDup_flat_map_child ids pre c post).
Qed.

Lemma nth_error_once {A : Type} (l1 l2 : list A) (e : A) (k : nat) :
  ~ In e l1 -> ~ In e l2 ->
  nth_error (l1 ++ e :: l2) k = Some e -> k = length l1.
Proof.
  intros H1 H2 H.
  destruct (Nat.lt_trichotomy k (length l1)) as [Hlt|[Heq|Hgt]]; auto.
  - rewrite nth_error_app1 in H by assumption.
    apply nth_error_In in H. contradiction.
  - rewrite nth_error_app2 in H by lia.
    destruct (k - length l1)%nat as [|m] eqn:E; [lia|]. simpl in H.
    apply nth_error_In in H. contradiction.
Qed.

Lemma nth_error_middle {A : Type} (l1 l2 : list A) (e : A) :
  nth_error (l1 ++ e :: l2) (length l1) = Some e.
Proof. rewrite nth_error_app2, Nat.sub_diag by lia. reflexivity. Qed.

(** Enter and Leave of the root of a subtree occur once each, and enclose
    the Enter and Leave events of every node below it. *)
Lemma subtree_enter_leave s r :
  subtree s r -> NoDup (ids r) ->
  exists l1 mid l2,
    events r
    = l1 ++ (rroot s, PREORDER) :: mid ++ (rroot s, POSTORDER) :: l2 /\
    (forall k, nth_error (events r) k = Some (rroot s, PREORDER) ->
               k = length l1) /\
    (forall k, nth_error (events r) k = Some (rroot s, POSTORDER) ->
               k = (length l1 + 1 + length mid)%nat) /\
    (forall y, In y (flat_map ids (rchildren s)) ->
               In (y, PREORDER) mid /\ In (y, POSTORDER) mid).
Proof.
  intros Hs Hnd.
  pose proof (subtree_NoDup _ _ Hs Hnd) as Hnds.
  destruct (subtree_block _ _ Hs Hnd) as (l1 & l2 & E & Hout).
  destruct s as [a cs]. simpl rroot. simpl rchildren.
  rewrite events_RNode in E.
  remember (match cs with
            | [] => [(a, INORDER)]
            | c :: rest =>
                events c ++ flat_map (fun c' => (a, INORDER) :: events c') rest
            end) as mid eqn:Emid.
  simpl in Hnds. apply NoDup_cons_iff in Hnds. destruct Hnds as [Ha _].
  assert (Hmid : forall dir, dir <> INORDER -> ~ In (a, dir) mid).
  { intros dir Hdir H. rewrite Emid in H.
    apply In_body in H. destruct H as [H|(c & Hc & H)].
    - injection H as H. contradiction.
    - apply Ha. apply in_flat_map. exists c. split; [assumption|].
      eapply events_ids; eauto. }
  assert (Hl : forall dir, ~ In (a, dir) l1 /\ ~ In (a, dir) l2).
  { intros dir. specialize (Hout a dir (or_introl eq_refl)).
    split; intros H; apply Hout; apply in_or_app; auto. }
  exists l1, mid, l2. split; [|split; [|split]].
  - rewrite E. simpl. rewrite <- app_assoc. reflexivity.
  - intros k Hk. rewrite E in Hk. simpl in Hk.
    apply nth_error_once in Hk; [assumption|apply Hl|].
    intros H. rewrite <- app_assoc in H. apply in_app_or in H.
    destruct H as [H|[H|H]].
    + now apply (Hmid PREORDER).
    + discriminate.
    + now apply (proj2 (Hl PREORDER)).
  - intros k Hk. rewrite E in Hk.
    match type of Hk with
    | nth_error ?L _ = _ =>
        assert (EE : L = (l1 ++ (a, PREORDER) :: mid) ++ (a, POSTORDER) :: l2)
          by (repeat first [rewrite <- app_assoc | rewrite <- app_comm_cons];
              reflexivity);
        rewrite EE in Hk
    end.
    apply nth_error_once in Hk.
    + rewrite Hk, length_app. simpl. lia.
    + intros H. apply in_app_or in H. destruct H as [H|[H|H]].
      * now apply (proj1 (Hl POSTORDER)).
      * discriminate.
      * now apply (Hmid POSTORDER).
    + apply Hl.
  - intros y Hy. apply in_flat_map in Hy. destruct Hy as (c & Hc & Hy).
    destruct (ids_events c y Hy) as [H1 H2].
    split; rewrite Emid; eapply In_body_child; eauto.
Qed.

(** The order of Enter and Leave events in the events of a tree with
    distinct ids. *)
Lemma events_order r a d :
  NoDup (ids r) -> descendant r a d ->
  exists ia id la ld,
    nth_error (events r) ia = Some (a, PREORDER) /\
    nth_error (events r) id = Some (d, PREORDER) /\
    nth_error (events r) la = Some (a, POSTORDER) /\
    nth_error (events r) ld = Some (d, POSTORDER) /\
    (ia < id)%nat /\ (ld < la)%nat /\
    (forall k, nth_error (events r) k = Some (a, PREORDER) -> k = ia) /\
    (forall k, nth_error (events r) k = Some (d, PREORDER) -> k = id) /\
    (forall k, nth_error (events r) k = Some (a, POSTORDER) -> k = la) /\
    (forall k, nth_error (events r) k = Some (d, POSTORDER) -> k = ld).
Proof.
  intros Hnd (ra & Hra & Ea & Hd). subst a.
  destruct (subtree_enter_leave _ _ Hra Hnd) as (l1 & mid & l2 & E & Ua & Va & M).
  destruct (M d Hd) as [Hpre Hpost].
  assert (Hdr : In d (ids r)).
  { apply (subtree_ids ra r d Hra). destruct ra as [a cs]. now right. }
  destruct (subtree_of_id r d Hdr) as (rd & Hrd & Ed).
  destruct (subtree_enter_leave _ _ Hrd Hnd)
    as (l1' & mid' & l2' & _ & Ud & Vd & _).
  rewrite Ed in Ud, Vd.
  apply In_nth_error in Hpre. destruct Hpre as [k1 Hk1].
  apply In_nth_error in Hpost. destruct Hpost as [k2 Hk2].
  assert (L1 : (k1 < length mid)%nat)
    by (apply nth_error_Some; congruence).
  assert (L2 : (k2 < length mid)%nat)
    by (apply nth_error_Some; congruence).
  assert (P1 : nth_error (events r) (length l1 + 1 + k1) = Some (d, PREORDER)).
  { rewrite E, nth_error_app2 by lia.
    replace (length l1 + 1 + k1 - length l1)%nat with (S k1) by lia.
    simpl. now rewrite nth_error_app1. }
  assert (P2 : nth_error (events r) (length l1 + 1 + k2) = Some (d, POSTORDER)).
  { rewrite E, nth_error_app2 by lia.
    replace (length l1 + 1 + k2 - length l1)%nat with (S k2) by lia.
    simpl. now rewrite nth_error_app1. }
  assert (Pa : nth_error (events r) (length l1) = Some (rroot ra, PREORDER))
    by (rewrite E; apply nth_error_middle).
  assert (Pl : nth_error (events r) (length l1 + 1 + length mid)
               = Some (rroot ra, POSTORDER)).
  { rewrite E, nth_error_app2 by lia.
    replace (length l1 + 1 + length mid - length l1)%nat
      with (S (length mid)) by lia.
    simpl. apply nth_error_middle. }
  exists (length l1), (length l1 + 1 + k1)%nat,
    (length l1 + 1 + length mid)%nat, (length l1 + 1 + k2)%nat.
  repeat split; auto; try lia.
  - intros k Hk. rewrite (Ud _ Hk). symmetry. now apply Ud.
  - intros k Hk. rewrite (Vd _ Hk). symmetry. now apply Vd.
Qed.


(** ** The cursor over the children *)

Lemma children_view_notin s p : ~ In p s -> children_view s p = s.
Proof.
  induction s as [|x r IH]; simpl; intros H; [reflexivity|].
  destruct (N.eqb_spec x p) as [->|Hne]; [exfalso; auto|].
  f_equal. apply IH. tauto.
Qed.

Lemma cursor_at_end s p :
  children_view s p = [] ->
  ChildrenList.eq (ChildrenList.mkIterator s p) (ChildrenList.end_ p)
  = Done (true, ChildrenList.mkIterator [] p).
Proof.
  destruct s as [|x r]; simpl; intros H; [reflexivity|].
  unfold ChildrenList.eq. simpl.
  destruct (N.eqb_spec x p); [|discriminate]. now subst r.
Qed.

Lemma cursor_at_child s p c cs :
  children_view s p = c :: cs -> ~ In p (c :: cs) ->
  exists s',
    ChildrenList.eq (ChildrenList.mkIterator s p) (ChildrenList.end_ p)
    = Done (false, ChildrenList.mkIterator (c :: s') p) /\
    children_view (c :: s') p = c :: cs /\ children_view s' p = cs /\ c <> p.
Proof.
  intros H Hp.
  assert (Hc : c <> p) by (intros ->; apply Hp; now left).
  destruct s as [|x r]; simpl in H; [discriminate|].
  unfold ChildrenList.eq. simpl.
  destruct (N.eqb_spec x p) as [->|Hne].
  - subst r. exists cs. simpl.
    destruct (N.eqb_spec c p); [contradiction|].
    assert (E : children_view cs p = cs)
      by (apply children_view_notin; intros Hin; apply Hp; now right).
    rewrite E. auto.
  - injection H as -> H. exists r. simpl.
    destruct (N.eqb_spec c p); [contradiction|]. rewrite H. auto.
Qed.

Lemma cursor_deref c s p :
  c <> p ->
  ChildrenList.deref (ChildrenList.mkIterator (c :: s) p)
  = Done (c, ChildrenList.mkIterator (c :: s) p).
Proof.
  intros H. unfold ChildrenList.deref. simpl.
  destruct (N.eqb_spec c p); [contradiction|reflexivity].
Qed.

(** ** The stack machine follows the traversal tree *)

Lemma Steps_app t it1 evs1 it2 evs2 it3 :
  Steps t it1 evs1 it2 -> Steps t it2 evs2 it3 ->
  Steps t it1 (evs1 ++ evs2) it3.
Proof.
  induction 1; intros H'; simpl; [assumption|].
  econstructor; eauto.
Qed.

Lemma Steps_one t it it1 :
  Iterator_dfs.dfs_next t it = Done it1 ->
  Iterator_dfs.dfs_stack it1 <> [] ->
  Iterator_dfs.idx it1 < node_count t ->
  Steps t it [(Iterator_dfs.idx it1, Iterator_dfs.direction it1)] it1.
Proof. intros. econstructor; eauto. constructor. Qed.

(** Stepping down from [v] to the child under the cursor. *)
Lemma dfs_next_descend t v lvl par dir s p stk c cs adjc :
  dir = PREORDER \/ dir = INORDER ->
  children_view s p = c :: cs -> ~ In p (c :: cs) ->
  nth_N (nodes23 t) c = Some adjc ->
  exists s',
    Iterator_dfs.dfs_next t (Iterator_dfs.mk v lvl par dir (frame v s p :: stk))
    = Done (Iterator_dfs.mk c (uint_incr lvl) v PREORDER
              (frame c adjc v :: frame v (c :: s') p :: stk)) /\
    children_view s' p = cs.
Proof.
  intros Hdir Hs Hp Hc.
  destruct (cursor_at_child s p c cs Hs Hp) as (s' & E & _ & Hs' & Hcp).
  exists s'. split; [|assumption].
  unfold Iterator_dfs.dfs_next, frame. simpl.
  destruct Hdir as [-> | ->]; rewrite E;
    unfold Iterator_dfs.descend; simpl;
    rewrite (cursor_deref c s' p Hcp);
    unfold Iterator_dfs.push_children; simpl; rewrite Hc; reflexivity.
Qed.

(** A node without children: Enter, Between, Leave. *)
Lemma dfs_next_leaf t v lvl par s p stk :
  children_view s p = [] ->
  Iterator_dfs.dfs_next t
    (Iterator_dfs.mk v lvl par PREORDER (frame v s p :: stk))
  = Done (Iterator_dfs.mk v lvl par INORDER (frame v [] p :: stk)) /\
  Iterator_dfs.dfs_next t
    (Iterator_dfs.mk v lvl par INORDER (frame v [] p :: stk))
  = Done (Iterator_dfs.mk v lvl par POSTORDER (frame v [] p :: stk)).
Proof.
  intros Hs. unfold Iterator_dfs.dfs_next, frame. simpl.
  rewrite (cursor_at_end s p Hs). split; reflexivity.
Qed.

(** Coming back from a child to its parent [v]. *)
Lemma dfs_next_return t c lvl par sc v c' s' p stk :
  Iterator_dfs.dfs_next t
    (Iterator_dfs.mk c lvl par POSTORDER
       (frame c sc v :: frame v (c' :: s') p :: stk))
  = match ChildrenList.eq (ChildrenList.mkIterator s' p) (ChildrenList.end_ p) with
    | Done (b, sec) =>
        Done (Iterator_dfs.mk v (uint_decr lvl)
                (Iterator_dfs.get_parent (frame v (c' :: s') p :: stk))
                (if b then POSTORDER else INORDER)
                (Iterator_dfs.mkItem v sec (ChildrenList.end_ p) :: stk))
    | _ => OutOfBounds
    end.
Proof. reflexivity. Qed.


Lemma unfold_inv t k v p r :
  unfold t (S k) v p = Some r ->
  exists adj rcs,
    nth_N (nodes23 t) v = Some adj /\ r = RNode v rcs /\
    Forall2 (fun c rc => unfold t k c v = Some rc) (children_view adj p) rcs.
Proof.
  simpl. destruct (nth_N (nodes23 t) v) as [adj|]; [|discriminate].
  intros H. exists adj.
  remember (children_view adj p) as cs eqn:Ecs. clear Ecs.
  match type of H with
  | option_map _ (?f cs) = _ => set (below := f) in *
  end.
  destruct (below cs) as [rcs|] eqn:E; [|discriminate].
  injection H as <-. exists rcs. split; [reflexivity|]. split; [reflexivity|].
  revert rcs E. induction cs as [|c rest IH]; intros rcs E; simpl in E.
  - injection E as <-. constructor.
  - destruct (unfold t k c v) as [rc|] eqn:Ec; [|discriminate].
    destruct (below rest) as [rr|] eqn:Er; [|discriminate].
    injection E as <-. constructor; auto.
Qed.

Lemma unfold_rroot t k v p r : unfold t k v p = Some r -> rroot r = v.
Proof.
  destruct k; [discriminate|]. intros H. apply unfold_inv in H.
  destruct H as (adj & rcs & _ & -> & _). reflexivity.
Qed.

Lemma unfold_in_store t k v p r :
  unfold t k v p = Some r ->
  exists adj, nth_N (nodes23 t) v = Some adj /\ adj_of t v = adj /\
              v < node_count t.
Proof.
  destruct k; [discriminate|]. intros H. apply unfold_inv in H.
  destruct H as (adj & rcs & E & _ & _). exists adj.
  split; [assumption|]. split; [unfold adj_of; now rewrite E|].
  apply nth_N_lt. eauto.
Qed.

Lemma events_head r : events r = (rroot r, PREORDER) :: tl (events r).
Proof. destruct r. reflexivity. Qed.

Lemma Forall2_rroot t k v cs rcs :
  Forall2 (fun c rc => unfold t k c v = Some rc) cs rcs ->
  map rroot rcs = cs.
Proof.
  induction 1 as [|c rc cs rcs H _ IH]; simpl; [reflexivity|].
  now rewrite (unfold_rroot _ _ _ _ _ H), IH.
Qed.

Lemma Steps_step t it it1 it2 e evs :
  Iterator_dfs.dfs_next t it = Done it1 ->
  e = (Iterator_dfs.idx it1, Iterator_dfs.direction it1) ->
  Iterator_dfs.dfs_stack it1 <> [] ->
  Iterator_dfs.idx it1 < node_count t ->
  Steps t it1 evs it2 ->
  Steps t it (e :: evs) it2.
Proof. intros H -> H1 H2 H3. econstructor; eauto. Qed.

(** The loop over the children of [v], from the moment the cursor shows
    the children [cs] still to visit. *)
Lemma children_loop t k v p stk :
  v < node_count t ->
  (forall c rc,
      unfold t k c v = Some rc -> hides_parent v rc ->
      forall stk' lvl par,
      exists lvl' par',
        Steps t
          (Iterator_dfs.mk c lvl par PREORDER (frame c (adj_of t c) v :: stk'))
          (tl (events rc))
          (Iterator_dfs.mk c lvl' par' POSTORDER (frame c [] v :: stk'))) ->
  forall cs rcs,
    Forall2 (fun c rc => unfold t k c v = Some rc) cs rcs ->
    (forall rc, In rc rcs -> hides_parent v rc) ->
    ~ In p cs ->
    forall c0 rc0 s lvl par dir,
      dir = PREORDER \/ dir = INORDER ->
      unfold t k c0 v = Some rc0 -> hides_parent v rc0 -> c0 <> p ->
      children_view s p = c0 :: cs ->
      exists lvl' par',
        Steps t
          (Iterator_dfs.mk v lvl par dir (frame v s p :: stk))
          (events rc0 ++ flat_map (fun c' => (v, INORDER) :: events c') rcs
             ++ [(v, POSTORDER)])
          (Iterator_dfs.mk v lvl' par' POSTORDER (frame v [] p :: stk)).
Proof.
  intros Hv IH cs rcs F.
  induction F as [|c1 rc1 cs rcs Hc1 F IHF];
    intros Hh Hp c0 rc0 s lvl par dir Hdir Hc0 Hh0 Hc0p Hs.
  - (* the last child *)
    destruct (unfold_in_store _ _ _ _ _ Hc0) as (adjc & Ec & Ea & Hlt).
    destruct (dfs_next_descend t v lvl par dir s p stk c0 [] adjc Hdir Hs)
      as (s' & D & Hs'); [intros [H|[]]; congruence|assumption|].
    destruct (IH c0 rc0 Hc0 Hh0 (frame v (c0 :: s') p :: stk) (uint_incr lvl) v)
      as (lvl1 & par1 & S1).
    rewrite Ea in S1.
    pose proof (dfs_next_return t c0 lvl1 par1 [] v c0 s' p stk) as R.
    rewrite (cursor_at_end s' p Hs') in R.
    eexists _, _. rewrite (events_head rc0), (unfold_rroot _ _ _ _ _ Hc0).
    simpl. eapply Steps_step; [exact D|reflexivity|discriminate|exact Hlt|].
    eapply Steps_app; [exact S1|].
    eapply Steps_step; [exact R|reflexivity|discriminate|exact Hv|].
    constructor.
  - (* a child followed by another *)
    destruct (unfold_in_store _ _ _ _ _ Hc0) as (adjc & Ec & Ea & Hlt).
    destruct (dfs_next_descend t v lvl par dir s p stk c0 (c1 :: cs) adjc
                Hdir Hs)
      as (s' & D & Hs');
      [intros [H|H]; [congruence|contradiction]|assumption|].
    destruct (IH c0 rc0 Hc0 Hh0 (frame v (c0 :: s') p :: stk) (uint_incr lvl) v)
      as (lvl1 & par1 & S1).
    rewrite Ea in S1.
    pose proof (dfs_next_return t c0 lvl1 par1 [] v c0 s' p stk) as R.
    destruct (cursor_at_child s' p c1 cs Hs' Hp) as (s2 & E2 & V2 & _ & Hc1p).
    rewrite E2 in R.
    destruct (IHF (fun rc H => Hh rc (or_intror H))
                  (fun H => Hp (or_intror H))
                  c1 rc1 (c1 :: s2) (uint_decr lvl1)
                  (Iterator_dfs.get_parent (frame v (c0 :: s') p :: stk))
                  INORDER (or_intror eq_refl) Hc1 (Hh rc1 (or_introl eq_refl))
                  Hc1p V2)
      as (lvl2 & par2 & S2).
    exists lvl2, par2.
    rewrite (events_head rc0), (unfold_rroot _ _ _ _ _ Hc0).
    simpl. eapply Steps_step; [exact D|reflexivity|discriminate|exact Hlt|].
    rewrite <- app_assoc.
    eapply Steps_app; [exact S1|].
    eapply Steps_step; [exact R|reflexivity|discriminate|exact Hv|].
    exact S2.
Qed.

(** From Enter to Leave of [v], the machine emits the events of the tree
    below [v] and comes back to the frame of [v]. *)
Lemma machine_follows_tree t k :
  forall v p r,
    unfold t k v p = Some r -> hides_parent p r ->
    forall stk lvl par,
    exists lvl' par',
      Steps t
        (Iterator_dfs.mk v lvl par PREORDER (frame v (adj_of t v) p :: stk))
        (tl (events r))
        (Iterator_dfs.mk v lvl' par' POSTORDER (frame v [] p :: stk)).
Proof.
  induction k as [|k IH]; intros v p r Hu Hh stk lvl par; [discriminate|].
  destruct (unfold_in_store _ _ _ _ _ Hu) as (adj & _ & Ea & Hv).
  apply unfold_inv in Hu. destruct Hu as (adj' & rcs & En & -> & F).
  assert (adj' = adj) as -> by (unfold adj_of in Ea; rewrite En in Ea; auto).
  subst adj. inversion Hh as [v' cs' Hp Hc]; subst.
  rewrite (Forall2_rroot _ _ _ _ _ F) in Hp.
  remember (children_view (adj_of t v) p) as cs0 eqn:Ecs.
  destruct F as [|c0 rc0 cs rcs Hc0 F].
  - (* no child *)
    destruct (dfs_next_leaf t v lvl par (adj_of t v) p stk) as [D1 D2];
      [auto|].
    exists lvl, par. simpl.
    eapply Steps_step; [exact D1|reflexivity|discriminate|exact Hv|].
    eapply Steps_step; [exact D2|reflexivity|discriminate|exact Hv|].
    constructor.
  - rewrite events_RNode. simpl tl.
    assert (Hrest : forall rc, In rc rcs -> hides_parent v rc)
      by (intros rc Hrc; apply Hc; now right).
    assert (Hpcs : ~ In p cs) by (intros H; apply Hp; now right).
    assert (Hc0p : c0 <> p) by (intros ->; apply Hp; now left).
    destruct (children_loop t k v p stk Hv
                (fun c rc Hu Hh' stk' lvl' par' =>
                   IH c v rc Hu Hh' stk' lvl' par')
                cs rcs F Hrest Hpcs c0 rc0 (adj_of t v) lvl par PREORDER
                (or_introl eq_refl) Hc0 (Hc rc0 (or_introl eq_refl)) Hc0p
                (eq_sym Ecs))
      as (lvl' & par' & S).
    exists lvl', par'. rewrite <- app_assoc. exact S.
Qed.

Lemma NoDup_hides_parent p r : NoDup (p :: ids r) -> hides_parent p r.
Proof.
  revert p. induction r as [v cs IH] using rtree_nested_ind.
  intros p H. apply NoDup_cons_iff in H. destruct H as [Hp Hnd].
  simpl in Hp, Hnd. apply NoDup_cons_iff in Hnd. destruct Hnd as [Hv Hnd].
  constructor.
  - intros H. apply in_map_iff in H. destruct H as (c & <- & Hc).
    apply Hp. right. apply in_flat_map. exists c.
    split; [assumption|apply rroot_in_ids].
  - intros c Hc. apply IH; [assumption|].
    apply in_split in Hc as Hs. destruct Hs as (pre & post & E).
    rewrite E in Hnd.
    apply NoDup_cons_iff. split.
    + intros H. apply Hv. apply in_flat_map. eauto.
    + now apply (NoDup_flat_map_child ids pre c post).
Qed.

Lemma traverse_S f t it :
  traverse (S f) t it
  = if Iterator_dfs.idx it =? N.of_nat (length (nodes23 t)) then Done []
    else match Iterator_dfs.incr t it with
         | Done it' =>
             match traverse f t it' with
             | Done evs =>
                 Done ((Iterator_dfs.idx it, Iterator_dfs.direction it) :: evs)
             | o => o
             end
         | OutOfBounds => OutOfBounds
         | OutOfFuel => OutOfFuel
         | Fatal => Fatal
         end.
Proof. reflexivity. Qed.

(** The loop of a client over the iterator, along the machine. *)
Lemma traverse_Steps t it evs it' :
  Steps t it evs it' -> Iterator_dfs.idx it < node_count t ->
  forall n,
    traverse (length evs + n) t it
    = match traverse n t it' with
      | Done rest =>
          Done (removelast ((Iterator_dfs.idx it, Iterator_dfs.direction it)
                              :: evs) ++ rest)
      | o => o
      end.
Proof.
  induction 1 as [it|it it1 it2 evs D Hs Hi St IH]; intros Hlt n.
  - simpl. destruct (traverse n t it); reflexivity.
  - change (length ((Iterator_dfs.idx it1, Iterator_dfs.direction it1) :: evs)
            + n)%nat with (S (length evs + n)%nat).
    rewrite traverse_S.
    destruct (N.eqb_spec (Iterator_dfs.idx it) (N.of_nat (length (nodes23 t))))
      as [E|_]; [unfold node_count in Hlt; lia|].
    assert (EI : Iterator_dfs.incr t it = Done it1).
    { unfold Iterator_dfs.incr. rewrite D. unfold Iterator_dfs.dfs_end.
      destruct (Iterator_dfs.dfs_stack it1); [contradiction|reflexivity]. }
    rewrite EI, (IH Hi n).
    destruct (traverse n t it2); reflexivity.
Qed.

Lemma events_last r :
  removelast (events r) ++ [(rroot r, POSTORDER)] = events r.
Proof.
  destruct r as [v cs]. rewrite events_RNode. simpl rroot.
  rewrite app_comm_cons, removelast_last. reflexivity.
Qed.

Lemma begin_dfs2_eval s t v p adj :
  nth_N (nodes23 t) v = Some adj ->
  begin_dfs2 s t v p
  = Done (Iterator_dfs.mk v 0 p PREORDER [frame v adj p]).
Proof.
  intros H. unfold begin_dfs2, Iterator_dfs.make2.
  assert (Hlt : v < N.of_nat (length (nodes23 t))) by (apply nth_N_lt; eauto).
  destruct (N.eqb_spec 0 (N.of_nat (length (nodes23 t)))); [lia|]. simpl.
  unfold Iterator_dfs.dfs_init2, Iterator_dfs.push_children. rewrite H.
  reflexivity.
Qed.

Lemma begin_dfs_eval s t adj :
  nth_N (nodes23 t) (if root t =? NONODE then 0 else root t) = Some adj ->
  begin_dfs s t
  = begin_dfs2 s t (if root t =? NONODE then 0 else root t) NONODE.
Proof.
  intros H. rewrite (begin_dfs2_eval _ _ _ _ _ H).
  unfold begin_dfs, Iterator_dfs.make.
  assert (Hlt : (if root t =? NONODE then 0 else root t)
                < N.of_nat (length (nodes23 t))) by (apply nth_N_lt; eauto).
  destruct (N.eqb_spec 0 (N.of_nat (length (nodes23 t)))); [lia|]. simpl.
  unfold Iterator_dfs.dfs_init.
  unfold Iterator_dfs.push_children.
  destruct (nodes23 t) as [|n0 ns] eqn:En; [simpl in Hlt; lia|].
  cbv beta iota zeta. simpl Iterator_dfs.idx. rewrite H. reflexivity.
Qed.

(** The whole loop over a tree that unfolds from [v]: it ends, and what it
    visits are the events of the traversal tree. *)
Lemma traverse_events t depth v p r s :
  unfold t depth v p = Some r -> NoDup (p :: ids r) ->
  exists it,
    begin_dfs2 s t v p = Done it /\
    forall n, (length (events r) <= n)%nat ->
              traverse n t it = Done (events r).
Proof.
  intros Hu Hnd.
  destruct (unfold_in_store _ _ _ _ _ Hu) as (adj & En & Ea & Hv).
  pose proof (unfold_rroot _ _ _ _ _ Hu) as Er.
  exists (Iterator_dfs.mk v 0 p PREORDER [frame v adj p]).
  split; [now apply begin_dfs2_eval|].
  destruct (machine_follows_tree t depth v p r Hu (NoDup_hides_parent _ _ Hnd)
              [] 0 p) as (lvl' & par' & St).
  rewrite Ea in St.
  intros n Hn. pose proof (traverse_Steps _ _ _ _ St Hv) as T.
  assert (L : length (events r) = S (length (tl (events r))))
    by (rewrite (events_head r) at 1; reflexivity).
  replace n with (length (tl (events r)) + S (n - length (events r)))%nat
    by lia.
  rewrite T, traverse_S. simpl Iterator_dfs.idx.
  destruct (N.eqb_spec v (N.of_nat (length (nodes23 t))));
    [unfold node_count in Hv; lia|].
  assert (EI : Iterator_dfs.incr t
                 (Iterator_dfs.mk v lvl' par' POSTORDER [frame v [] p])
               = Done (Iterator_dfs.mk (N.of_nat (length (nodes23 t))) 0
                         UINT_MAX NOTRAVERSAL [])) by reflexivity.
  rewrite EI.
  assert (ET : forall m,
             traverse m t (Iterator_dfs.mk (N.of_nat (length (nodes23 t))) 0
                             UINT_MAX NOTRAVERSAL []) = Done []).
  { intros [|m]; simpl; now rewrite N.eqb_refl. }
  rewrite ET. simpl Iterator_dfs.direction.
  rewrite <- Er at 1. rewrite <- (events_head r).
  rewrite <- Er. now rewrite events_last.
Qed.

(** C7: in the depth-first traversal of a tree started at a root, the
    Enter (PREORDER) event of a node comes strictly before the Enter event
    of each of its descendants, and its Leave (POSTORDER) event strictly
    after their Leave events.  The traversal visits the events of the
    traversal tree and ends; each of the four events occurs once. *)
Theorem dfs_enter_leave_order t depth v p r s a d :
  unfold t depth v p = Some r -> NoDup (p :: ids r) -> descendant r a d ->
  exists it evs,
    begin_dfs2 s t v p = Done it /\
    (p = NONODE -> v = (if root t =? NONODE then 0 else root t) ->
     begin_dfs s t = Done it) /\
    (forall n, (length evs <= n)%nat -> traverse n t it = Done evs) /\
    exists ia id la ld,
      nth_error evs ia = Some (a, PREORDER) /\
      nth_error evs id = Some (d, PREORDER) /\
      nth_error evs la = Some (a, POSTORDER) /\
      nth_error evs ld = Some (d, POSTORDER) /\
      (ia < id)%nat /\ (ld < la)%nat /\
      (forall k, nth_error evs k = Some (a, PREORDER) -> k = ia) /\
      (forall k, nth_error evs k = Some (d, PREORDER) -> k = id) /\
      (forall k, nth_error evs k = Some (a, POSTORDER) -> k = la) /\
      (forall k, nth_error evs k = Some (d, POSTORDER) -> k = ld).
Proof.
  intros Hu Hnd Hd.
  destruct (traverse_events t depth v p r s Hu Hnd) as (it & B & T).
  exists it, (events r). split; [exact B|]. split.
  { intros -> Ev. rewrite <- B.
    destruct (unfold_in_store _ _ _ _ _ Hu) as (adj & En & _ & _).
    rewrite Ev in En. rewrite (begin_dfs_eval s t adj En). now rewrite <- Ev. }
  split; [exact T|].
  apply events_order; [|assumption].
  now apply NoDup_cons_iff in Hnd.
Qed.

Lemma NoDup_bush_tree : NoDup (NONODE :: ids bush_tree).
Proof.
  repeat constructor; simpl; intuition discriminate.
Defined.

Lemma descendant_bush_tree : descendant bush_tree 1 3.
Proof.
  exists (RNode 1 [RNode 2 []; RNode 3 []]). split; [|split].
  - apply (sub_below _ 0 _ (RNode 1 [RNode 2 []; RNode 3 []]));
      [now left|constructor].
  - reflexivity.
  - simpl. auto.
Defined.

Lemma dfs_enter_leave_order_witness :
  unfold bush 3 0 NONODE = Some bush_tree /\
  NoDup (NONODE :: ids bush_tree) /\ descendant bush_tree 1 3 /\
  exists it evs,
    begin_dfs2 (Iterator_dfs.mkStorage 0 0 NOTRAVERSAL) bush 0 NONODE
    = Done it /\
    (NONODE = NONODE -> 0 = (if root bush =? NONODE then 0 else root bush) ->
     begin_dfs (Iterator_dfs.mkStorage 0 0 NOTRAVERSAL) bush = Done it) /\
    (forall n, (length evs <= n)%nat -> traverse n bush it = Done evs) /\
    exists ia id la ld,
      nth_error evs ia = Some (1, PREORDER) /\
      nth_error evs id = Some (3, PREORDER) /\
      nth_error evs la = Some (1, POSTORDER) /\
      nth_error evs ld = Some (3, POSTORDER) /\
      (ia < id)%nat /\ (ld < la)%nat /\
      (forall k, nth_error evs k = Some (1, PREORDER) -> k = ia) /\
      (forall k, nth_error evs k = Some (3, PREORDER) -> k = id) /\
      (forall k, nth_error evs k = Some (1, POSTORDER) -> k = la) /\
      (forall k, nth_error evs k = Some (3, POSTORDER) -> k = ld).
Proof.
  split; [reflexivity|]. split; [exact NoDup_bush_tree|].
  split; [exact descendant_bush_tree|].
  exact (dfs_enter_leave_order bush 3 0 NONODE bush_tree
           (Iterator_dfs.mkStorage 0 0 NOTRAVERSAL) 1 3
           eq_refl NoDup_bush_tree descendant_bush_tree).
Defined.

(** * Further properties of the container *)

(** ** Adding and removing one edge *)

Lemma remove_appended u l : AdjacentList.remove u (l ++ [u]) = Some l.
Proof.
  induction l as [|x r IH]; simpl.
  - now rewrite N.eqb_refl.
  - destruct (N.eqb_spec x u) as [->|Hne].
    + destruct (r ++ [u]) as [|y r'] eqn:E.
      * now destruct r.
      * rewrite <- E. now rewrite last_last, removelast_last.
    + now rewrite IH.
Qed.

Lemma set_adjacent_eval v l t :
  v < node_count t ->
  set_adjacent v l t
  = Done (tt, mkTree (set_nth (nodes23 t) (N.to_nat v) l) (root t)
                (edge_count t)).
Proof.
  intros Hv. unfold set_adjacent.
  apply nth_N_lt in Hv. destruct Hv as [x ->]. reflexivity.
Qed.

Lemma adj_of_set_nth ns r e v l w :
  v < N.of_nat (length ns) ->
  adj_of (mkTree (set_nth ns (N.to_nat v) l) r e) w
  = if w =? v then l else adj_of (mkTree ns r e) w.
Proof.
  intros Hv. unfold adj_of. simpl. rewrite nth_N_set_nth by assumption.
  now destruct (w =? v).
Qed.

Lemma set_nth_same {A : Type} (l : list A) (i : nat) (x : A) :
  nth_error l i = Some x -> set_nth l i x = l.
Proof.
  revert i. induction l as [|y r IH]; intros [|i] H; simpl in *;
    try discriminate; try reflexivity.
  - now injection H as ->.
  - now rewrite IH.
Qed.

Lemma set_nth_twice {A : Type} (l : list A) (i : nat) (x y : A) :
  set_nth (set_nth l i x) i y = set_nth l i y.
Proof.
  revert i. induction l as [|z r IH]; intros [|i]; simpl; try reflexivity.
  now rewrite IH.
Qed.

Lemma set_nth_swap {A : Type} (l : list A) (i j : nat) (x y : A) :
  i <> j -> set_nth (set_nth l i x) j y = set_nth (set_nth l j y) i x.
Proof.
  revert i j. induction l as [|z r IH]; intros [|i] [|j] H; simpl;
    try reflexivity; try congruence.
  rewrite IH; [reflexivity|congruence].
Qed.

Lemma uint_decr_incr e : e < UINT_RANGE -> uint_decr (uint_incr e) = e.
Proof.
  intros H. unfold uint_decr, uint_incr, UINT_MAX, UINT_RANGE in *.
  destruct (N.eq_dec e 4294967295) as [->|Hne]; [reflexivity|].
  rewrite (N.mod_small (e + 1)) by lia.
  replace (e + 1 + 4294967295) with (e + 1 * 4294967296) by lia.
  rewrite N.Div0.mod_add. apply N.mod_small. lia.
Qed.

Lemma adj_of_nth t v :
  v < node_count t -> nth_error (nodes23 t) (N.to_nat v) = Some (adj_of t v).
Proof.
  intros Hv. apply nth_N_lt in Hv as Hx. destruct Hx as [x Hx].
  unfold adj_of. rewrite Hx. now apply nth_N_Some.
Qed.

(** X1: [add_edge(v,u)] followed by [remove_edge(v,u)] gives back the very
    tree it started from, cell for cell, also beside parallel edges and for
    a self loop [v = u]; the removal answers [true]. *)
Theorem add_then_remove_edge t v u :
  v < node_count t -> u < node_count t -> edge_count t < UINT_RANGE ->
  (add_edge v u ;; remove_edge v u) t = Done (true, t).
Proof.
  intros Hv Hu He.
  pose proof (adj_of_nth t v Hv) as Nv. pose proof (adj_of_nth t u Hu) as Nu.
  assert (Hlen : forall w, w < node_count t -> w < N.of_nat (length (nodes23 t)))
    by (intros w Hw; exact Hw).
  destruct t as [ns r e]. simpl in *.
  unfold add_edge, remove_edge.
  repeat rewrite bind_assoc.
  rewrite (bind_eq _ _ _ _ _ (adjacent_total v _ Hv)).
  rewrite bind_assoc.
  rewrite (bind_eq _ _ _ _ _ (set_adjacent_eval v _ _ Hv)). simpl.
  set (t1 := mkTree (set_nth ns (N.to_nat v) _) r e).
  assert (H1 : u < node_count t1)
    by (unfold node_count, t1; simpl; now rewrite set_nth_length).
  rewrite bind_assoc.
  rewrite (bind_eq _ _ _ _ _ (adjacent_total u _ H1)).
  rewrite bind_assoc.
  rewrite (bind_eq _ _ _ _ _ (set_adjacent_eval u _ _ H1)).
  unfold incr_edge_count at 1. unfold bind at 1. simpl.
  set (t2 := mkTree _ r (uint_incr e)).
  assert (H2v : v < node_count t2)
    by (unfold node_count, t2; simpl; now rewrite !set_nth_length).
  assert (H2u : u < node_count t2)
    by (unfold node_count, t2; simpl; now rewrite !set_nth_length).
  rewrite (bind_eq _ _ _ _ _ (adjacent_total v _ H2v)).
  assert (A1 : forall w, adj_of t1 w
               = if w =? v then adj_of (mkTree ns r e) v ++ [u]
                 else adj_of (mkTree ns r e) w).
  { intros w. unfold t1. now rewrite adj_of_set_nth by auto. }
  assert (A2 : forall w, adj_of t2 w
               = if w =? u then adj_of t1 u ++ [v] else adj_of t1 w).
  { intros w. unfold t2, t1.
    rewrite adj_of_set_nth by (rewrite set_nth_length; auto).
    reflexivity. }
  destruct (N.eq_dec v u) as [<-|Hne].
  - (* self loop *)
    rewrite A2, N.eqb_refl, A1, N.eqb_refl.
    unfold AdjacentList.insert. rewrite remove_appended.
    rewrite (bind_eq _ _ _ _ _ (set_adjacent_eval v _ _ H2v)). simpl.
    set (t3 := mkTree _ r (uint_incr e)).
    assert (H3 : v < node_count t3)
      by (unfold node_count, t3; simpl; now rewrite !set_nth_length).
    rewrite (bind_eq _ _ _ _ _ (adjacent_total v _ H3)).
    assert (A3 : adj_of t3 v = adj_of (mkTree ns r e) v ++ [v]).
    { unfold t3. rewrite adj_of_set_nth by (rewrite !set_nth_length; auto).
      now rewrite N.eqb_refl. }
    rewrite A3, remove_appended.
    rewrite (bind_eq _ _ _ _ _ (set_adjacent_eval v _ _ H3)).
    unfold decr_edge_count, bind, ret. simpl.
    rewrite !set_nth_twice, uint_decr_incr by assumption.
    rewrite set_nth_same by exact Nv. reflexivity.
  - rewrite A2. destruct (N.eqb_spec v u) as [E|_]; [contradiction|].
    rewrite A1, N.eqb_refl.
    unfold AdjacentList.insert. rewrite remove_appended.
    rewrite (bind_eq _ _ _ _ _ (set_adjacent_eval v _ _ H2v)). simpl.
    set (t3 := mkTree _ r (uint_incr e)).
    assert (H3 : u < node_count t3)
      by (unfold node_count, t3; simpl; now rewrite !set_nth_length).
    rewrite (bind_eq _ _ _ _ _ (adjacent_total u _ H3)).
    assert (A3 : adj_of t3 u = adj_of (mkTree ns r e) u ++ [v]).
    { unfold t3. rewrite adj_of_set_nth by (rewrite !set_nth_length; auto).
      destruct (N.eqb_spec u v) as [E|_]; [congruence|].
      rewrite A2, N.eqb_refl, A1.
      destruct (N.eqb_spec u v) as [E|_]; [congruence|reflexivity]. }
    rewrite A3, remove_appended.
    rewrite (bind_eq _ _ _ _ _ (set_adjacent_eval u _ _ H3)).
    unfold decr_edge_count, bind, ret. simpl.
    rewrite uint_decr_incr by assumption.
    assert (Hn : N.to_nat v <> N.to_nat u) by lia.
    rewrite (set_nth_swap _ (N.to_nat v) (N.to_nat u)) by assumption.
    rewrite set_nth_twice.
    rewrite (set_nth_swap _ (N.to_nat u) (N.to_nat v)) by lia.
    rewrite set_nth_twice.
    rewrite (set_nth_same ns) by exact Nv.
    rewrite set_nth_same by exact Nu. reflexivity.
Qed.

Lemma add_then_remove_edge_witness :
  1 < node_count star3 /\ 2 < node_count star3 /\
  edge_count star3 < UINT_RANGE /\
  (add_edge 1 2 ;; remove_edge 1 2) star3 = Done (true, star3).
Proof.
  split; [reflexivity|]. split; [reflexivity|]. split; [reflexivity|].
  exact (add_then_remove_edge star3 1 2 eq_refl eq_refl eq_refl).
Defined.

(** X2: on a tree built by the operations, [remove_edge(v,u)] for a node
    [v] of the store is all or nothing: it answers [true] exactly when [u]
    is listed in [adjacent(v)], and then one cell of each direction is gone
    and the counter is decremented; otherwise it answers [false] and the
    tree is untouched. *)
Theorem remove_edge_all_or_nothing t v u :
  wf t -> v < node_count t ->
  exists b t',
    remove_edge v u t = Done (b, t') /\
    (b = true <-> In u (adj_of t v)) /\
    (b = false -> t' = t) /\
    (b = true ->
     wf t' /\ node_count t' = node_count t /\ root t' = root t /\
     edge_count t' = uint_decr (edge_count t) /\
     forall x y, cnt t x y = (arc x y v u + arc x y u v + cnt t' x y)%nat).
Proof.
  intros W Hv.
  destruct (remove_edge_defined v u t Hv (wf_in_range t v u W))
    as (b & t' & R).
  exists b, t'. split; [exact R|].
  destruct b.
  - pose proof (remove_edge_true _ _ _ _ R) as (_ & _ & Hn & Hr & He & _ & P).
    split; [|split; [discriminate|]].
    + split; [intros _|reflexivity].
      specialize (P v). rewrite N.eqb_refl in P.
      eapply Permutation_in; [apply Permutation_sym; exact P|]. now left.
    + intros _. split; [eapply wf_remove_edge; eauto|].
      split; [exact Hn|]. split; [exact Hr|]. split; [exact He|].
      now apply remove_edge_cnt.
  - destruct (wf_remove_edge_false _ _ _ _ W R) as [-> Hnot].
    split; [split; [discriminate|contradiction]|].
    split; [reflexivity|discriminate].
Qed.

Lemma remove_edge_all_or_nothing_witness :
  wf star3 /\ 1 < node_count star3 /\
  exists b t',
    remove_edge 1 2 star3 = Done (b, t') /\
    (b = true <-> In 2 (adj_of star3 1)) /\
    (b = false -> t' = star3) /\
    (b = true ->
     wf t' /\ node_count t' = node_count star3 /\ root t' = root star3 /\
     edge_count t' = uint_decr (edge_count star3) /\
     forall x y, cnt star3 x y = (arc x y 1 2 + arc x y 2 1 + cnt t' x y)%nat).
Proof.
  split; [exact wf_star3|]. split; [reflexivity|].
  exact (remove_edge_all_or_nothing star3 1 2 wf_star3 eq_refl).
Defined.

(** ** Disconnecting a node *)

Lemma disconnect_node_loop v :
  forall fuel t,
    wf t -> v < node_count t -> (length (adj_of t v) <= fuel)%nat ->
    exists t',
      disconnect_node fuel v t = Done (tt, t') /\ wf t' /\
      adj_of t' v = [] /\
      node_count t' = node_count t /\ root t' = root t /\
      forall x y, x <> v -> y <> v -> cnt t' x y = cnt t x y.
Proof.
  induction fuel as [|f IH]; intros t W Hv Hlen.
  - exists t. destruct (adj_of t v) as [|u rest] eqn:E; [|simpl in Hlen; lia].
    simpl. rewrite (bind_eq _ _ _ _ _ (adjacent_total v t Hv)), E.
    split; [reflexivity|]. split; [exact W|]. auto.
  - simpl. rewrite (bind_eq _ _ _ _ _ (adjacent_total v t Hv)).
    destruct (adj_of t v) as [|u rest] eqn:E.
    + exists t. split; [reflexivity|]. split; [exact W|]. auto.
    + assert (Hin : In u (adj_of t v)) by (rewrite E; now left).
      destruct (wf_remove_edge_total v u t W Hin) as [t1 R].
      rewrite (bind_eq _ _ _ _ _ R).
      pose proof (remove_edge_true _ _ _ _ R) as (_ & _ & Hn & Hr & _ & _ & P).
      pose proof (wf_remove_edge _ _ _ _ _ W R) as W1.
      assert (Hl : (length (adj_of t1 v) <= f)%nat).
      { specialize (P v). rewrite N.eqb_refl in P.
        apply Permutation_length in P. rewrite E in P.
        simpl in P, Hlen. rewrite length_app in P. lia. }
      destruct (IH t1 W1 ltac:(now rewrite Hn) Hl)
        as (t' & D & W' & A' & Hn' & Hr' & C').
      exists t'. split; [exact D|]. split; [exact W'|].
      split; [exact A'|]. split; [congruence|]. split; [congruence|].
      intros x y Hx Hy. rewrite (C' x y Hx Hy).
      rewrite (remove_edge_cnt _ _ _ _ R x y). unfold arc.
      destruct (N.eqb_spec x v); [contradiction|].
      destruct (N.eqb_spec y v); [contradiction|].
      rewrite andb_false_r. reflexivity.
Qed.

(** X3: on a tree built by the operations, [disconnect_node(v)] returns
    after at most [degree(v)] rounds of its loop; afterwards [v] has no
    neighbour, no node lists [v], and the cells between other nodes are as
    before. *)
Theorem disconnect_node_isolates t v fuel :
  wf t -> v < node_count t -> (length (adj_of t v) <= fuel)%nat ->
  exists t',
    disconnect_node fuel v t = Done (tt, t') /\ wf t' /\
    degree v t' = Done (0, t') /\
    (forall w, ~ In v (adj_of t' w)) /\
    node_count t' = node_count t /\ root t' = root t /\
    forall x y, x <> v -> y <> v -> cnt t' x y = cnt t x y.
Proof.
  intros W Hv Hl.
  destruct (disconnect_node_loop v fuel t W Hv Hl)
    as (t' & D & W' & A & Hn & Hr & C).
  exists t'. split; [exact D|]. split; [exact W'|].
  split; [rewrite degree_eval by (now rewrite Hn); now rewrite A|].
  split; [|auto].
  intros w Hin. apply (wf_reciprocal t' W') in Hin. now rewrite A in Hin.
Qed.

Lemma disconnect_node_isolates_witness :
  wf star3 /\ 1 < node_count star3 /\ (length (adj_of star3 1) <= 3)%nat /\
  exists t',
    disconnect_node 3 1 star3 = Done (tt, t') /\ wf t' /\
    degree 1 t' = Done (0, t') /\
    (forall w, ~ In 1 (adj_of t' w)) /\
    node_count t' = node_count star3 /\ root t' = root star3 /\
    forall x y, x <> 1 -> y <> 1 -> cnt t' x y = cnt star3 x y.
Proof.
  split; [exact wf_star3|]. split; [reflexivity|]. split; [simpl; lia|].
  exact (disconnect_node_isolates star3 1 3 wf_star3 eq_refl
           (le_n 3)).
Defined.

(** ** Trimming the root *)

Lemma cnt_zero_nil t v : (forall y, cnt t v y = 0%nat) -> adj_of t v = [].
Proof.
  intros H. destruct (adj_of t v) as [|x r] eqn:E; [reflexivity|].
  assert (Hin : In x (adj_of t v)) by (rewrite E; now left).
  apply cnt_In in Hin. rewrite H in Hin. lia.
Qed.

Lemma trim_root_loop_spec :
  forall fuel t,
    wf t -> root t < node_count t -> (total_degree t <= 2 * fuel)%nat ->
    exists t',
      trim_root_loop fuel t = Done (tt, t') /\ wf t' /\
      node_count t' = node_count t /\ root t' < node_count t /\
      length (adj_of t' (root t')) <> 1%nat /\
      (forall x y, (cnt t' x y <= cnt t x y)%nat) /\
      (forall w, adj_of t w = [] -> w <> root t -> root t' <> w) /\
      (length (adj_of t (root t)) = 1%nat ->
       adj_of t' (root t) = [] /\ root t' <> root t).
Proof.
  induction fuel as [|f IH]; intros t W Hr Hf.
  - simpl. unfold get_root at 1. unfold bind at 1.
    rewrite (bind_eq _ _ _ _ _ (degree_eval _ _ Hr)).
    destruct (N.eqb_spec (N.of_nat (length (adj_of t (root t)))) 1) as [E|E].
    + exfalso.
      destruct (adj_of t (root t)) as [|c rest] eqn:Ea; [discriminate|].
      assert (Hin : In (root t) (adj_of t c)).
      { apply (wf_reciprocal t W). rewrite Ea. now left. }
      destruct (wf_remove_edge_total c (root t) t W Hin) as [t1 R].
      pose proof (remove_edge_true _ _ _ _ R) as (_ & _ & _ & _ & _ & T & _).
      lia.
    + exists t. split; [reflexivity|]. split; [exact W|].
      split; [reflexivity|]. split; [exact Hr|].
      split; [lia|]. split; [auto|]. split; [auto|]. intros H. lia.
  - simpl. unfold get_root at 1. unfold bind at 1.
    rewrite (bind_eq _ _ _ _ _ (degree_eval _ _ Hr)).
    destruct (N.eqb_spec (N.of_nat (length (adj_of t (root t)))) 1) as [E|E].
    + rewrite (bind_eq _ _ _ _ _ (adjacent_total _ _ Hr)).
      destruct (adj_of t (root t)) as [|c rest] eqn:Ea; [discriminate|].
      assert (Hin : In (root t) (adj_of t c)).
      { apply (wf_reciprocal t W). rewrite Ea. now left. }
      destruct (wf_remove_edge_total c (root t) t W Hin) as [t1 R].
      rewrite (bind_eq _ _ _ _ _ R).
      pose proof (remove_edge_true _ _ _ _ R)
        as (Hc & _ & Hn & Hrt & _ & T & P).
      pose proof (wf_remove_edge _ _ _ _ _ W R) as W1.
      unfold set_root at 1. unfold bind at 1.
      set (t2 := mkTree (nodes23 t1) c (edge_count t1)).
      assert (W2 : wf t2) by (apply (wf_same_nodes t1); auto).
      assert (N2 : node_count t2 = node_count t) by exact Hn.
      assert (T2 : total_degree t2 = total_degree t1) by reflexivity.
      assert (A2 : forall w, adj_of t2 w = adj_of t1 w) by reflexivity.
      destruct (IH t2 W2 ltac:(simpl; rewrite N2; exact Hc) ltac:(lia))
        as (t' & L & W' & Hn' & Hr' & Hd' & C' & M' & _).
      assert (C1 : forall x y, (cnt t1 x y <= cnt t x y)%nat).
      { intros x y. rewrite (remove_edge_cnt _ _ _ _ R x y). lia. }
      assert (Z1 : forall w, adj_of t w = [] -> adj_of t1 w = []).
      { intros w Hw. apply cnt_zero_nil. intros y. specialize (C1 w y).
        unfold cnt in *. rewrite Hw in C1. simpl in C1. lia. }
      assert (E1 : adj_of t1 (root t) = [] /\ root t <> c).
      { specialize (P (root t)). rewrite N.eqb_refl, Ea in P.
        apply Permutation_length in P. simpl in P, E.
        rewrite length_app in P.
        destruct (N.eqb_spec (root t) c) as [Ec|Ec]; simpl in P; [lia|].
        split; [|exact Ec].
        destruct (adj_of t1 (root t)); [reflexivity|simpl in P; lia]. }
      destruct E1 as [E1 Erc].
      exists t'. split; [exact L|]. split; [exact W'|].
      split; [congruence|]. split; [now rewrite <- N2|].
      split; [exact Hd'|]. split; [|split].
      * intros x y. specialize (C' x y). specialize (C1 x y).
        unfold cnt in *. rewrite A2 in C'. lia.
      * intros w Hw Hwr. apply M'.
        -- rewrite A2. now apply Z1.
        -- simpl. intros ->. rewrite Hw in Hin. contradiction.
      * intros _. split.
        -- apply cnt_zero_nil. intros y.
           specialize (C' (root t) y). unfold cnt in *.
           rewrite A2, E1 in C'. simpl in C'. lia.
        -- apply M'; [now rewrite A2|exact Erc].
    + exists t. split; [reflexivity|]. split; [exact W|].
      split; [reflexivity|]. split; [exact Hr|].
      split; [lia|]. split; [auto|]. split; [auto|]. intros H. lia.
Qed.

(** X4: on a tree built by the operations whose root marker is [NONODE] or
    a node of the store, [trim_root()] returns.  It answers [false] and
    changes nothing when the tree is unrooted or the root does not have
    exactly one neighbour.  Otherwise it answers [true]: the root marker
    has slid to another node, whose degree is not 1, the old root is left
    without neighbours, and edges were only removed. *)
Theorem trim_root_slides t fuel :
  wf t -> root t = NONODE \/ root t < node_count t ->
  (total_degree t <= 2 * fuel)%nat ->
  exists b t',
    trim_root fuel t = Done (b, t') /\
    (b = true <->
     root t <> NONODE /\ degree (root t) t = Done (1, t)) /\
    (b = false -> t' = t) /\
    (b = true ->
     wf t' /\ node_count t' = node_count t /\ root t' < node_count t /\
     root t' <> root t /\
     length (adj_of t' (root t')) <> 1%nat /\
     adj_of t' (root t) = [] /\
     forall x y, (cnt t' x y <= cnt t x y)%nat).
Proof.
  intros W Hroot Hf. unfold trim_root, is_rooted, get_root, bind, ret.
  destruct (N.eqb_spec (root t) NONODE) as [E|E]; simpl.
  - exists false, t. split; [reflexivity|].
    split; [split; [discriminate|tauto]|]. split; [reflexivity|discriminate].
  - destruct Hroot as [Hroot|Hr]; [contradiction|].
    rewrite (degree_eval _ _ Hr).
    destruct (N.eqb_spec (N.of_nat (length (adj_of t (root t)))) 1) as [E1|E1];
      simpl.
    + destruct (trim_root_loop_spec fuel t W Hr Hf)
        as (t' & L & W' & Hn & Hr' & Hd & C & _ & A).
      rewrite L. exists true, t'.
      split; [reflexivity|].
      split; [split; [intros _; split; [exact E|now rewrite E1]|reflexivity]|].
      split; [discriminate|]. intros _.
      destruct A as [A' Hne]; [lia|].
      split; [exact W'|]. split; [exact Hn|]. split; [exact Hr'|].
      split; [exact Hne|split; [exact Hd|split; [exact A'|exact C]]].
    + exists false, t. split; [reflexivity|].
      split; [split; [discriminate|]|split; [reflexivity|discriminate]].
      intros [_ H]. injection H as H. congruence.
Qed.

Lemma wf_stalk : wf stalk.
Proof.
  apply (wf_same_nodes (mkTree (nodes23 stalk) NONODE 4));
    [reflexivity|reflexivity|].
  exact (preserves_run 0
           [Onew_node; Onew_node; Onew_node; Onew_node; Onew_node;
            Oadd_edge 0 1; Oadd_edge 1 2; Oadd_edge 2 3; Oadd_edge 2 4]
           empty_tree tt (mkTree (nodes23 stalk) NONODE 4)
           wf_empty_tree eq_refl).
Qed.

Lemma trim_root_slides_witness :
  wf stalk /\ (root stalk = NONODE \/ root stalk < node_count stalk) /\
  (total_degree stalk <= 2 * 4)%nat /\
  exists b t',
    trim_root 4 stalk = Done (b, t') /\
    (b = true <->
     root stalk <> NONODE /\ degree (root stalk) stalk = Done (1, stalk)) /\
    (b = false -> t' = stalk) /\
    (b = true ->
     wf t' /\ node_count t' = node_count stalk /\
     root t' < node_count stalk /\
     root t' <> root stalk /\
     length (adj_of t' (root t')) <> 1%nat /\
     adj_of t' (root stalk) = [] /\
     forall x y, (cnt t' x y <= cnt stalk x y)%nat).
Proof.
  assert (H : (total_degree stalk <= 2 * 4)%nat) by (vm_compute; lia).
  split; [exact wf_stalk|]. split; [right; reflexivity|].
  split; [exact H|].
  exact (trim_root_slides stalk 4 wf_stalk (or_intror eq_refl) H).
Defined.

(** ** The connectivity test *)

Lemma forallb_nth (vis : list bool) :
  forallb (fun b => b) vis = true <->
  forall k, (k < length vis)%nat -> nth k vis false = true.
Proof.
  induction vis as [|b r IH]; simpl.
  - split; [intros _ k Hk; lia|reflexivity].
  - rewrite andb_true_iff, IH. split.
    + intros [-> H] [|k] Hk; [reflexivity|apply H; lia].
    + intros H. split; [apply (H 0%nat); lia|].
      intros k Hk. apply (H (S k)). lia.
Qed.

Lemma all_marked_asc_reach t :
  (forall j, j < node_count t -> (j =? 0) || lower_neighbour t j = true) <->
  (forall j, j < node_count t -> asc_reach t 0 j).
Proof.
  split.
  - intros H j. pattern j. apply (well_founded_induction N.lt_wf_0).
    clear j. intros j IH Hj.
    specialize (H j Hj) as Hm. apply orb_true_iff in Hm.
    destruct Hm as [Hm|Hm].
    + apply N.eqb_eq in Hm. subst j. constructor.
    + apply lower_neighbour_true in Hm. destruct Hm as (i & Hi & Hin).
      apply (asc_step t 0 i j); [apply IH; lia|exact Hi|exact Hin].
  - intros H j Hj. apply orb_true_iff.
    destruct (asc_reach_inv t 0 j (H j Hj)) as [->|Hl]; [now left|now right].
Qed.

Lemma unmarked_nil t :
  unmarked t = [] <->
  (forall j, j < node_count t -> (j =? 0) || lower_neighbour t j = true).
Proof.
  unfold unmarked. split.
  - intros H j Hj.
    destruct ((j =? 0) || lower_neighbour t j) eqn:E; [reflexivity|].
    assert (Hin : In j (filter
                          (fun j => negb ((j =? 0) || lower_neighbour t j))
                          (node_ids t))).
    { apply filter_In. split; [now apply In_node_ids|now rewrite E]. }
    rewrite H in Hin. contradiction.
  - intros H. apply filter_none. intros j Hj. apply In_node_ids in Hj.
    now rewrite (H j Hj).
Qed.

(** The two scans, read with the id of the node in [adjacent(n)], agree.
    On an empty tree both index bit 0 of an empty bitset.  On a non-empty
    tree whose adjacency cells are node ids, the scan of [is_connected()]
    answers [true] exactly when that of [components()] answers 1, and
    exactly when every node is reached from node 0 along edges that lead
    from a node to a neighbour of larger id. *)
Theorem is_connected_spec t :
  (nodes23 t = [] ->
   is_connected t = OutOfBounds /\ components t = OutOfBounds) /\
  (nodes23 t <> [] ->
   (forall i j, In j (adj_of t i) -> j < node_count t) ->
   node_count t < UINT_RANGE ->
   exists b c,
     is_connected t = Done (b, t) /\ components t = Done (c, t) /\
     (b = true <-> c = 1) /\
     (b = true <-> forall j, j < node_count t -> asc_reach t 0 j)).
Proof.
  split.
  - intros E. unfold is_connected, components, visited_bits.
    now rewrite E.
  - intros Hne Hr Hsz.
    pose proof (components_counts_unmarked t Hne Hr) as C.
    destruct (visited_bits_spec t Hne Hr) as (vis & E & L & P).
    exists (forallb (fun b => b) vis),
           (Nat.iter (length (unmarked t)) uint_incr 1).
    split; [unfold is_connected; now rewrite E|]. split; [exact C|].
    assert (B : forallb (fun b => b) vis = true <-> unmarked t = []).
    { rewrite unmarked_nil, forallb_nth. split.
      - intros H j Hj. rewrite <- (P j Hj). apply H.
        unfold node_count in Hj. lia.
      - intros H k Hk. rewrite <- (Nat2N.id k).
        rewrite P by (unfold node_count; lia).
        apply H. unfold node_count. lia. }
    split.
    + rewrite B.
      assert (Hlen : (length (unmarked t) <= length (nodes23 t))%nat).
      { unfold unmarked.
        etransitivity; [apply filter_length_le|].
        unfold node_ids. now rewrite length_map, length_seq. }
      change 1 with (1 mod UINT_RANGE) at 1.
      rewrite iter_uint_incr.
      unfold node_count in Hsz. split.
      * intros ->. reflexivity.
      * intros H.
        destruct (N.eq_dec (1 + N.of_nat (length (unmarked t))) UINT_RANGE)
          as [Ew|Ew].
        -- rewrite Ew, N.Div0.mod_same in H. discriminate.
        -- unfold UINT_RANGE in *.
           assert (Hb : 1 + N.of_nat (length (unmarked t)) < 4294967296)
             by (clear - Hlen Hsz Ew; lia).
           rewrite (N.mod_small _ _ Hb) in H.
           apply length_zero_iff_nil. lia.
    + rewrite B, unmarked_nil. apply all_marked_asc_reach.
Qed.

Lemma is_connected_spec_witness :
  (nodes23 empty_tree = [] /\
   is_connected empty_tree = OutOfBounds /\
   components empty_tree = OutOfBounds) /\
  (nodes23 two_paths <> [] /\
   (forall i j, In j (adj_of two_paths i) -> j < node_count two_paths) /\
   node_count two_paths < UINT_RANGE /\
   exists b c,
     is_connected two_paths = Done (b, two_paths) /\
     components two_paths = Done (c, two_paths) /\
     (b = true <-> c = 1) /\
     (b = true <-> forall j, j < node_count two_paths ->
                             asc_reach two_paths 0 j)).
Proof.
  assert (H1 : nodes23 two_paths <> []) by discriminate.
  assert (H2 : forall i j, In j (adj_of two_paths i) ->
                           j < node_count two_paths).
  { intros i j. apply (tg_edge _ _ _ _ two_groups_two_paths). }
  assert (H3 : node_count two_paths < UINT_RANGE) by reflexivity.
  split.
  - split; [reflexivity|].
    exact (proj1 (is_connected_spec empty_tree) eq_refl).
  - split; [exact H1|]. split; [exact H2|]. split; [exact H3|].
    exact (proj2 (is_connected_spec two_paths) H1 H2 H3).
Defined.

(** ** The edge primitives, evaluated *)

Lemma node_count_set_nth ns r e i l :
  node_count (mkTree (set_nth ns i l) r e) = node_count (mkTree ns r e).
Proof. unfold node_count. simpl. now rewrite set_nth_length. Qed.

Lemma remove_edge_eval v u t lv lu :
  v < node_count t -> u < node_count t ->
  AdjacentList.remove u (adj_of t v) = Some lv ->
  AdjacentList.remove v (if u =? v then lv else adj_of t u) = Some lu ->
  remove_edge v u t
  = Done (true,
          mkTree (set_nth (set_nth (nodes23 t) (N.to_nat v) lv) (N.to_nat u) lu)
                 (root t) (uint_decr (edge_count t))).
Proof.
  intros Hv Hu Rv Ru. unfold remove_edge.
  rewrite (bind_eq _ _ _ _ _ (adjacent_total v t Hv)), Rv.
  rewrite (bind_eq _ _ _ _ _ (set_adjacent_eval v lv t Hv)).
  destruct t as [ns r e]. simpl nodes23. simpl root. simpl edge_count.
  assert (Hu1 : u < node_count (mkTree (set_nth ns (N.to_nat v) lv) r e))
    by now rewrite node_count_set_nth.
  rewrite (bind_eq _ _ _ _ _ (adjacent_total u _ Hu1)).
  rewrite adj_of_set_nth by exact Hv. rewrite Ru.
  rewrite (bind_eq _ _ _ _ _ (set_adjacent_eval u lu _ Hu1)).
  reflexivity.
Qed.

Lemma remove_edge_eval_absent v u t :
  v < node_count t -> ~ In u (adj_of t v) ->
  remove_edge v u t = Done (false, t).
Proof.
  intros Hv Hn. unfold remove_edge.
  rewrite (bind_eq _ _ _ _ _ (adjacent_total v t Hv)).
  apply remove_None in Hn. now rewrite Hn.
Qed.

Lemma add_edge_eval v u t :
  v < node_count t -> u < node_count t ->
  add_edge v u t
  = Done (tt,
          mkTree (set_nth (set_nth (nodes23 t) (N.to_nat v) (adj_of t v ++ [u]))
                    (N.to_nat u)
                    ((if u =? v then adj_of t v ++ [u] else adj_of t u) ++ [v]))
                 (root t) (uint_incr (edge_count t))).
Proof.
  intros Hv Hu. unfold add_edge.
  rewrite (bind_eq _ _ _ _ _ (adjacent_total v t Hv)).
  rewrite (bind_eq _ _ _ _ _ (set_adjacent_eval v _ t Hv)).
  destruct t as [ns r e]. simpl nodes23. simpl root. simpl edge_count.
  unfold AdjacentList.insert.
  assert (Hu1 : u < node_count
                      (mkTree (set_nth ns (N.to_nat v)
                                 (adj_of (mkTree ns r e) v ++ [u])) r e))
    by now rewrite node_count_set_nth.
  rewrite (bind_eq _ _ _ _ _ (adjacent_total u _ Hu1)).
  rewrite adj_of_set_nth by exact Hv.
  rewrite (bind_eq _ _ _ _ _ (set_adjacent_eval u _ _ Hu1)).
  reflexivity.
Qed.

(** ** A chain contraction that does not return *)

Lemma contract_chain_node_double_loop t v :
  adj_of t v = [v; v] -> v <> root t ->
  exists t',
    contract_chain_node v t = Done (true, t') /\
    adj_of t' v = [v; v] /\ root t' = root t.
Proof.
  intros E Hr.
  assert (Hv : v < node_count t).
  { apply (adj_nonempty_in_range t v v). rewrite E. now left. }
  rewrite (contract_chain_node_unfold v t Hv), E. simpl.
  destruct (N.eqb_spec v (root t)) as [|_]; [contradiction|].
  assert (R1 : AdjacentList.remove v (adj_of t v) = Some [v])
    by (rewrite E; simpl; now rewrite N.eqb_refl).
  assert (R2 : AdjacentList.remove v (if v =? v then [v] else adj_of t v)
               = Some [])
    by (rewrite N.eqb_refl; simpl; now rewrite N.eqb_refl).
  rewrite (bind_eq _ _ _ _ _ (remove_edge_eval v v t [v] [] Hv Hv R1 R2)).
  destruct t as [ns r e]. simpl nodes23. simpl root. simpl edge_count.
  rewrite set_nth_twice.
  set (t1 := mkTree (set_nth ns (N.to_nat v) []) r (uint_decr e)).
  assert (H1 : v < node_count t1)
    by (unfold t1; now rewrite node_count_set_nth).
  assert (A1 : adj_of t1 v = []).
  { unfold t1. rewrite adj_of_set_nth by exact Hv. now rewrite N.eqb_refl. }
  rewrite (bind_eq _ _ _ _ _
             (remove_edge_eval_absent v v t1 H1 ltac:(now rewrite A1))).
  rewrite (bind_eq _ _ _ _ _ (add_edge_eval v v t1 H1 H1)).
  rewrite A1, N.eqb_refl. unfold ret. simpl.
  eexists. split; [reflexivity|]. split; [|reflexivity].
  rewrite set_nth_twice.
  rewrite adj_of_set_nth by (now rewrite set_nth_length).
  now rewrite N.eqb_refl.
Qed.

Lemma contract_chain_loop_spins v :
  forall fuel rest t,
    adj_of t v = [v; v] -> v <> root t ->
    contract_chain_loop fuel (v :: rest) t = OutOfFuel.
Proof.
  induction fuel as [|f IH]; intros rest t E Hr; [reflexivity|].
  assert (Hv : v < node_count t).
  { apply (adj_nonempty_in_range t v v). rewrite E. now left. }
  simpl. rewrite (bind_eq _ _ _ _ _ (adjacent_total v t Hv)), E.
  assert (P : push_chain_nodes [v; v] rest t = Done (v :: v :: rest, t)).
  { simpl. rewrite (bind_eq _ _ _ _ _ (degree_eval v t Hv)), E. simpl.
    rewrite (bind_eq _ _ _ _ _ (degree_eval v t Hv)), E. reflexivity. }
  rewrite (bind_eq _ _ _ _ _ P).
  destruct (contract_chain_node_double_loop t v E Hr) as (t' & C & E' & Hr').
  rewrite (bind_eq _ _ _ _ _ C).
  apply IH; [exact E'|congruence].
Qed.

(** X6: when the adjacency of [v] is a double self loop, [v], [v], and [v]
    is not the root, [contract_chain(v)] never returns: each round
    contracts [v] onto itself, which leaves the loop in place, and pushes
    [v] back twice, so its stack never runs empty. *)
Theorem contract_chain_spins t v fuel :
  adj_of t v = [v; v] -> v <> root t ->
  contract_chain fuel v t = OutOfFuel.
Proof. intros E Hr. now apply contract_chain_loop_spins. Qed.

Lemma contract_chain_spins_witness :
  run 0 [Onew_node; Oadd_edge 0 0] empty_tree = Done (tt, loop1) /\
  adj_of loop1 0 = [0; 0] /\ 0 <> root loop1 /\
  contract_chain 1000 0 loop1 = OutOfFuel.
Proof.
  assert (H : 0 <> root loop1) by discriminate.
  split; [reflexivity|]. split; [reflexivity|]. split; [exact H|].
  exact (contract_chain_spins loop1 0 1000 eq_refl H).
Defined.

(** ** The iterators over node ids *)

Lemma is_leaf_eval v t :
  v < node_count t -> is_leaf v t = Done (leaf_degree t v, t).
Proof.
  intros Hv. unfold is_leaf.
  now rewrite (bind_eq _ _ _ _ _ (degree_eval v t Hv)).
Qed.

Lemma ids_from_end t i :
  (length (nodes23 t) <= i)%nat -> ids_from t i = [].
Proof.
  intros H. unfold ids_from.
  replace (length (nodes23 t) - i)%nat with 0%nat by lia. reflexivity.
Qed.

Lemma ids_from_step t i :
  (i < length (nodes23 t))%nat ->
  ids_from t i = N.of_nat i :: ids_from t (S i).
Proof.
  intros H. unfold ids_from.
  replace (length (nodes23 t) - i)%nat
    with (S (length (nodes23 t) - S i)) by lia.
  reflexivity.
Qed.

Section NodeKinds.

Variable leaf : bool.
Variable t : Tree.
Hypothesis Hsize : node_count t < UINT_RANGE.

Lemma wanted_eval v :
  v < node_count t ->
  Iterator_somenodes.wanted leaf v t = Done (wanted_id leaf t v, t).
Proof.
  intros Hv. unfold Iterator_somenodes.wanted.
  now rewrite (bind_eq _ _ _ _ _ (is_leaf_eval v t Hv)).
Qed.

Lemma uint_incr_small idx :
  idx < node_count t -> uint_incr idx = idx + 1.
Proof.
  intros H. unfold uint_incr. apply N.mod_small.
  unfold UINT_RANGE in *. lia.
Qed.

Lemma somenodes_incr_spec :
  forall k i fuel,
    (S i + k = length (nodes23 t))%nat -> (k < fuel)%nat ->
    Iterator_somenodes.incr leaf fuel (N.of_nat i) t
    = Done (first_wanted leaf t (S i), t).
Proof.
  induction k as [|k IH]; intros i [|f] Hk Hf; try lia.
  - simpl. unfold node_size at 1. unfold bind at 1.
    rewrite uint_incr_small by (unfold node_count; lia).
    destruct (N.ltb_spec (N.of_nat i + 1) (N.of_nat (length (nodes23 t))));
      [lia|].
    unfold first_wanted. rewrite ids_from_end by lia.
    unfold ret, node_count. simpl. do 2 f_equal. lia.
  - simpl. unfold node_size at 1. unfold bind at 1.
    rewrite uint_incr_small by (unfold node_count; lia).
    destruct (N.ltb_spec (N.of_nat i + 1) (N.of_nat (length (nodes23 t))));
      [|lia].
    rewrite (bind_eq _ _ _ _ _
               (wanted_eval (N.of_nat i + 1) ltac:(unfold node_count; lia))).
    unfold first_wanted. rewrite (ids_from_step t (S i)) by lia.
    replace (N.of_nat i + 1) with (N.of_nat (S i)) by lia.
    cbn [filter]. destruct (wanted_id leaf t (N.of_nat (S i))) eqn:Ew.
    + reflexivity.
    + apply IH; lia.
Qed.

Lemma somenodes_make_end fuel :
  Iterator_somenodes.make leaf fuel (node_count t) t = Done (node_count t, t).
Proof.
  unfold Iterator_somenodes.make, node_size, bind, node_count.
  now rewrite N.eqb_refl.
Qed.

Lemma somenodes_make_begin fuel :
  (length (nodes23 t) < fuel)%nat ->
  Iterator_somenodes.make leaf fuel 0 t = Done (first_wanted leaf t 0, t).
Proof.
  intros Hf. unfold Iterator_somenodes.make.
  unfold node_size at 1. unfold bind at 1.
  destruct (N.eqb_spec 0 (N.of_nat (length (nodes23 t)))) as [E|E]; simpl.
  - unfold first_wanted. rewrite ids_from_end by lia.
    unfold ret, node_count. simpl. now rewrite <- E.
  - rewrite (bind_eq _ _ _ _ _
               (wanted_eval 0 ltac:(unfold node_count; lia))).
    unfold first_wanted. rewrite (ids_from_step t 0) by lia.
    cbn [filter]. change (N.of_nat 0) with 0.
    destruct (wanted_id leaf t 0) eqn:Ew; simpl.
    + reflexivity.
    + apply (somenodes_incr_spec (length (nodes23 t) - 1) 0); lia.
Qed.

Lemma somenodes_visit_spec fuel0 :
  (length (nodes23 t) < fuel0)%nat ->
  forall k i fuel,
    (i + k = length (nodes23 t))%nat -> (k < fuel)%nat ->
    visit_ids (n <- node_size ;; Iterator_somenodes.make leaf fuel0 n)
      (Iterator_somenodes.incr leaf fuel0) fuel (first_wanted leaf t i) t
    = Done (filter (wanted_id leaf t) (ids_from t i), t).
Proof.
  intros Hf0.
  assert (End : (n <- node_size ;; Iterator_somenodes.make leaf fuel0 n) t
                = Done (node_count t, t)).
  { unfold node_size at 1. unfold bind at 1. apply somenodes_make_end. }
  induction k as [|k IH]; intros i [|f] Hk Hf; try lia.
  - simpl. rewrite (bind_eq _ _ _ _ _ End).
    unfold first_wanted. rewrite ids_from_end by lia. simpl.
    unfold Iterator_allnodes.neq. now rewrite N.eqb_refl.
  - unfold first_wanted. rewrite (ids_from_step t i) by lia.
    cbn [filter]. destruct (wanted_id leaf t (N.of_nat i)) eqn:Ew.
    + simpl hd. simpl visit_ids. rewrite (bind_eq _ _ _ _ _ End).
      unfold Iterator_allnodes.neq.
      destruct (N.eqb_spec (N.of_nat i) (node_count t)) as [E|_];
        [unfold node_count in E; lia|]. cbn [negb].
      rewrite (bind_eq _ _ _ _ _
                 (somenodes_incr_spec (length (nodes23 t) - S i) i fuel0
                    ltac:(lia) ltac:(lia))).
      rewrite (bind_eq _ _ _ _ _ (IH (S i) f ltac:(lia) ltac:(lia))).
      reflexivity.
    + apply (IH (S i) (S f)); lia.
Qed.

Lemma somenodes_visit fuel :
  (length (nodes23 t) < fuel)%nat ->
  (b <- Iterator_somenodes.make leaf fuel 0 ;;
   visit_ids (n <- node_size ;; Iterator_somenodes.make leaf fuel n)
     (Iterator_somenodes.incr leaf fuel) fuel b) t
  = Done (filter (wanted_id leaf t) (node_ids t), t).
Proof.
  intros Hf. rewrite (bind_eq _ _ _ _ _ (somenodes_make_begin fuel Hf)).
  rewrite (somenodes_visit_spec fuel Hf (length (nodes23 t)) 0 fuel)
    by lia.
  unfold ids_from, node_ids. now rewrite Nat.sub_0_r.
Qed.

Lemma allnodes_visit_spec :
  forall k i fuel,
    (i + k = length (nodes23 t))%nat -> (k < fuel)%nat ->
    visit_ids end_ (fun idx => ret (Iterator_allnodes.incr idx)) fuel
      (N.of_nat i) t
    = Done (ids_from t i, t).
Proof.
  induction k as [|k IH]; intros i [|f] Hk Hf; try lia.
  - simpl. unfold end_, node_size at 1. unfold bind at 1.
    unfold Iterator_allnodes.neq.
    destruct (N.eqb_spec (N.of_nat i) (N.of_nat (length (nodes23 t))));
      [|lia].
    rewrite ids_from_end by lia. reflexivity.
  - simpl. unfold end_, node_size at 1. unfold bind at 1.
    unfold Iterator_allnodes.neq.
    destruct (N.eqb_spec (N.of_nat i) (N.of_nat (length (nodes23 t))));
      [lia|]. cbn [negb].
    unfold ret at 1. unfold bind at 1. unfold Iterator_allnodes.incr.
    rewrite uint_incr_small by (unfold node_count; lia).
    replace (N.of_nat i + 1) with (N.of_nat (S i)) by lia.
    rewrite (bind_eq _ _ _ _ _ (IH (S i) f ltac:(lia) ltac:(lia))).
    rewrite (ids_from_step t i) by lia. reflexivity.
Qed.

End NodeKinds.

(** X7: on a tree of fewer than 2^32 nodes the three id iterators end, and
    between [begin] and [end] the plain iterator visits every node id in
    increasing order, the leaf iterator exactly the ids of degree at most
    one and the internal iterator exactly the ids of degree two or more,
    both in increasing order; so every node is met by exactly one of the
    latter two. *)
Theorem node_iterators_visit t fuel :
  node_count t < UINT_RANGE -> (length (nodes23 t) < fuel)%nat ->
  allnodes fuel t = Done (node_ids t, t) /\
  leafnodes fuel t = Done (filter (leaf_degree t) (node_ids t), t) /\
  internalnodes fuel t
  = Done (filter (fun v => negb (leaf_degree t v)) (node_ids t), t) /\
  forall ls ins,
    leafnodes fuel t = Done (ls, t) -> internalnodes fuel t = Done (ins, t) ->
    Permutation (ls ++ ins) (node_ids t).
Proof.
  intros Hs Hf.
  assert (A : allnodes fuel t = Done (node_ids t, t)).
  { change (allnodes fuel t)
      with (visit_ids end_ (fun idx => ret (Iterator_allnodes.incr idx))
              fuel (N.of_nat 0) t).
    rewrite (allnodes_visit_spec t Hs (length (nodes23 t)) 0 fuel) by lia.
    unfold ids_from, node_ids. now rewrite Nat.sub_0_r. }
  assert (L : leafnodes fuel t = Done (filter (leaf_degree t) (node_ids t), t)).
  { unfold leafnodes, begin_leafnodes, end_leafnodes,
      Iterator_leafnodes.make, Iterator_leafnodes.incr.
    rewrite (somenodes_visit true t Hs fuel Hf).
    rewrite (filter_ext _ (leaf_degree t)); [reflexivity|].
    intros v. unfold wanted_id. now destruct (leaf_degree t v). }
  assert (I : internalnodes fuel t
              = Done (filter (fun v => negb (leaf_degree t v)) (node_ids t), t)).
  { unfold internalnodes, begin_internalnodes, end_internalnodes,
      Iterator_internalnodes.make, Iterator_internalnodes.incr.
    rewrite (somenodes_visit false t Hs fuel Hf).
    rewrite (filter_ext _ (fun v => negb (leaf_degree t v)));
      [reflexivity|].
    intros v. unfold wanted_id. now destruct (leaf_degree t v). }
  split; [exact A|]. split; [exact L|]. split; [exact I|].
  intros ls ins El Ei. rewrite L in El. rewrite I in Ei.
  injection El as <-. injection Ei as <-.
  clear. induction (node_ids t) as [|x r IH]; simpl; [constructor|].
  destruct (leaf_degree t x); simpl.
  - now constructor.
  - apply Permutation_sym, Permutation_cons_app, Permutation_sym, IH.
Qed.

Lemma node_iterators_visit_witness :
  node_count stalk < UINT_RANGE /\ (length (nodes23 stalk) < 6)%nat /\
  allnodes 6 stalk = Done ([0; 1; 2; 3; 4], stalk) /\
  leafnodes 6 stalk = Done ([0; 3; 4], stalk) /\
  internalnodes 6 stalk = Done ([1; 2], stalk) /\
  forall ls ins,
    leafnodes 6 stalk = Done (ls, stalk) ->
    internalnodes 6 stalk = Done (ins, stalk) ->
    Permutation (ls ++ ins) (node_ids stalk).
Proof.
  assert (H : (length (nodes23 stalk) < 6)%nat) by (simpl; lia).
  split; [reflexivity|]. split; [exact H|].
  exact (node_iterators_visit stalk 6 eq_refl H).
Defined.

(** ** The iterators derived from the depth-first iterator *)

Section Selected.

Variable is_candidate : Tree -> Iterator_dfs.t -> outcome bool.
Variable cand : event -> bool.
Variable t : Tree.
Hypothesis cand_ok :
  forall it, Iterator_dfs.idx it < node_count t ->
             is_candidate t it
             = Done (cand (Iterator_dfs.idx it, Iterator_dfs.direction it)).

Lemma selected_traverse_end m it :
  Iterator_dfs.idx it = N.of_nat (length (nodes23 t)) ->
  Iterator_selected.traverse is_candidate m t it = Done [].
Proof. intros E. destruct m; simpl; now rewrite E, N.eqb_refl. Qed.

Lemma selected_traverse_S f it :
  Iterator_dfs.idx it < node_count t ->
  Iterator_selected.traverse is_candidate (S f) t it
  = match Iterator_selected.incr is_candidate (S f) t it with
    | Done it' =>
        match Iterator_selected.traverse is_candidate f t it' with
        | Done evs =>
            Done ((Iterator_dfs.idx it, Iterator_dfs.direction it) :: evs)
        | o => o
        end
    | OutOfBounds => OutOfBounds
    | OutOfFuel => OutOfFuel
    | Fatal => Fatal
    end.
Proof.
  intros H. cbn [Iterator_selected.traverse].
  destruct (N.eqb_spec (Iterator_dfs.idx it) (N.of_nat (length (nodes23 t))))
    as [E|_]; [unfold node_count in H; lia|reflexivity].
Qed.

(** Along the machine, the derived iterator stops at the candidates. *)
Lemma selected_Steps it evs itL itE :
  Steps t it evs itL ->
  Iterator_dfs.dfs_next t itL = Done itE ->
  Iterator_dfs.dfs_end itE = true ->
  forall m, (length evs < m)%nat ->
    exists itc,
      Iterator_selected.incr is_candidate m t it = Done itc /\
      forall m', (length evs <= m')%nat ->
        Iterator_selected.traverse is_candidate m' t itc
        = Done (filter cand evs).
Proof.
  intros St HE Hend.
  induction St as [it|it it1 it2 evs D Hs Hi St IH]; intros m Hm.
  - destruct m as [|f]; [simpl in Hm; lia|].
    eexists. split.
    + cbn [Iterator_selected.incr]. rewrite HE, Hend. reflexivity.
    + intros m' _. now apply selected_traverse_end.
  - destruct m as [|f]; [simpl in Hm; lia|]. simpl in Hm.
    specialize (IH HE).
    cbn [Iterator_selected.incr]. rewrite D.
    assert (Hne : Iterator_dfs.dfs_end it1 = false).
    { unfold Iterator_dfs.dfs_end.
      destruct (Iterator_dfs.dfs_stack it1); [contradiction|reflexivity]. }
    rewrite Hne, (cand_ok it1 Hi). cbn [filter].
    destruct (cand (Iterator_dfs.idx it1, Iterator_dfs.direction it1)).
    + exists it1. split; [reflexivity|].
      intros [|f'] Hm'; [simpl in Hm'; lia|]. simpl in Hm'.
      rewrite (selected_traverse_S f' it1 Hi).
      destruct (IH (S f') ltac:(lia)) as (itc & I & T).
      rewrite I, (T f') by lia. reflexivity.
    + destruct (IH f ltac:(lia)) as (itc & I & T).
      exists itc. split; [exact I|].
      intros m' Hm'. apply T. simpl in Hm'. lia.
Qed.

(** The whole loop of a derived iterator over a tree that unfolds from
    [v]: it visits the candidates among the events of the traversal tree. *)
Lemma selected_events depth v p r s fuel :
  unfold t depth v p = Some r -> NoDup (p :: ids r) ->
  (length (events r) < fuel)%nat ->
  exists it,
    Iterator_selected.make2 is_candidate fuel s 0 t v p = Done it /\
    (p = NONODE -> v = (if root t =? NONODE then 0 else root t) ->
     Iterator_selected.make is_candidate fuel s 0 t = Done it) /\
    Iterator_selected.traverse is_candidate fuel t it
    = Done (filter cand (events r)).
Proof.
  intros Hu Hnd Hf.
  destruct (unfold_in_store _ _ _ _ _ Hu) as (adj & En & Ea & Hv).
  pose proof (unfold_rroot _ _ _ _ _ Hu) as Er.
  pose proof (begin_dfs2_eval s t v p adj En) as B.
  destruct (machine_follows_tree t depth v p r Hu (NoDup_hides_parent _ _ Hnd)
              [] 0 p) as (lvl' & par' & St).
  rewrite Ea in St.
  assert (L : length (events r) = S (length (tl (events r))))
    by (rewrite (events_head r) at 1; reflexivity).
  assert (HE : Iterator_dfs.dfs_next t
                 (Iterator_dfs.mk v lvl' par' POSTORDER [frame v [] p])
               = Done (Iterator_dfs.mk UINT_MAX 0 UINT_MAX NOTRAVERSAL []))
    by reflexivity.
  set (it0 := Iterator_dfs.mk v 0 p PREORDER [frame v adj p]) in *.
  pose proof (selected_Steps _ _ _ _ St HE eq_refl) as Q.
  assert (M2 : Iterator_selected.make2 is_candidate fuel s 0 t v p
               = Iterator_selected.settle is_candidate fuel t (Done it0)).
  { unfold Iterator_selected.make2. unfold begin_dfs2 in B. now rewrite B. }
  assert (M1 : p = NONODE -> v = (if root t =? NONODE then 0 else root t) ->
               Iterator_selected.make is_candidate fuel s 0 t
               = Iterator_selected.settle is_candidate fuel t (Done it0)).
  { intros Hp Ev. unfold Iterator_selected.make.
    assert (En' : nth_N (nodes23 t) (if root t =? NONODE then 0 else root t)
                  = Some adj) by (now rewrite <- Ev).
    pose proof (begin_dfs_eval s t adj En') as B1.
    unfold begin_dfs in B1. rewrite B1, <- Ev.
    unfold begin_dfs2. rewrite <- Hp.
    unfold begin_dfs2 in B. now rewrite B. }
  assert (S0 : exists it,
             Iterator_selected.settle is_candidate fuel t (Done it0) = Done it /\
             Iterator_selected.traverse is_candidate fuel t it
             = Done (filter cand (events r))).
  { unfold Iterator_selected.settle.
    assert (Hi0 : Iterator_dfs.idx it0 < node_count t) by exact Hv.
    destruct (N.eqb_spec (Iterator_dfs.idx it0) (N.of_nat (length (nodes23 t))))
      as [E|_]; [unfold node_count in Hi0; lia|]. cbn [negb].
    rewrite (cand_ok it0 Hi0).
    rewrite (events_head r), Er. cbn [filter].
    change (Iterator_dfs.idx it0, Iterator_dfs.direction it0)
      with (v, PREORDER).
    destruct (cand (v, PREORDER)).
    - exists it0. split; [reflexivity|].
      destruct fuel as [|f]; [lia|].
      rewrite (selected_traverse_S f it0 Hi0).
      destruct (Q (S f) ltac:(lia)) as (itc & I & T).
      rewrite I, (T f) by lia. reflexivity.
    - destruct (Q fuel ltac:(lia)) as (itc & I & T).
      exists itc. split; [exact I|]. apply T. lia. }
  destruct S0 as (it & Es & Et). exists it.
  split; [now rewrite M2|]. split; [|exact Et].
  intros Hp Ev. now rewrite (M1 Hp Ev).
Qed.

End Selected.

Lemma filter_flat_map {A B : Type} (f : B -> bool) (g : A -> list B) l :
  filter f (flat_map g l) = flat_map (fun x => filter f (g x)) l.
Proof.
  induction l as [|x r IH]; simpl; [reflexivity|].
  now rewrite filter_app, IH.
Qed.

Lemma map_flat_map {A B C : Type} (h : B -> C) (g : A -> list B) l :
  map h (flat_map g l) = flat_map (fun x => map h (g x)) l.
Proof.
  induction l as [|x r IH]; simpl; [reflexivity|].
  now rewrite map_app, IH.
Qed.

Lemma flat_map_ext_In {A B : Type} (g g' : A -> list B) l :
  (forall x, In x l -> g x = g' x) -> flat_map g l = flat_map g' l.
Proof.
  induction l as [|x r IH]; intros H; simpl; [reflexivity|].
  rewrite (H x) by now left. rewrite IH; [reflexivity|].
  intros y Hy. apply H. now right.
Qed.

Lemma events_preorder r :
  filter (at_direction PREORDER) (events r)
  = map (fun x => (x, PREORDER)) (ids r).
Proof.
  induction r as [v cs IH] using rtree_nested_ind.
  rewrite events_RNode. cbn [filter at_direction snd same_direction].
  rewrite filter_app. cbn [filter at_direction snd same_direction].
  rewrite app_nil_r. cbn [ids map]. f_equal.
  rewrite map_flat_map.
  destruct cs as [|c rest]; [reflexivity|].
  rewrite filter_app, filter_flat_map. cbn [flat_map]. f_equal.
  - apply IH. now left.
  - apply flat_map_ext_In. intros c' Hc'.
    cbn [filter at_direction snd same_direction]. apply IH. now right.
Qed.

Lemma events_postorder r :
  filter (at_direction POSTORDER) (events r)
  = map (fun x => (x, POSTORDER)) (post_ids r).
Proof.
  induction r as [v cs IH] using rtree_nested_ind.
  rewrite events_RNode. cbn [filter at_direction snd same_direction].
  rewrite filter_app. cbn [filter at_direction snd same_direction].
  cbn [post_ids]. rewrite map_app. cbn [map]. f_equal.
  rewrite map_flat_map.
  destruct cs as [|c rest]; [reflexivity|].
  rewrite filter_app, filter_flat_map. cbn [flat_map]. f_equal.
  - apply IH. now left.
  - apply flat_map_ext_In. intros c' Hc'.
    cbn [filter at_direction snd same_direction]. apply IH. now right.
Qed.

Lemma events_inorder r :
  filter (at_direction INORDER) (events r)
  = map (fun x => (x, INORDER)) (in_ids r).
Proof.
  induction r as [v cs IH] using rtree_nested_ind.
  rewrite events_RNode. cbn [filter at_direction snd same_direction].
  rewrite filter_app. cbn [filter at_direction snd same_direction].
  rewrite app_nil_r. cbn [in_ids].
  destruct cs as [|c rest]; [reflexivity|].
  rewrite filter_app, filter_flat_map, map_app, map_flat_map. f_equal.
  - apply IH. now left.
  - apply flat_map_ext_In. intros c' Hc'.
    cbn [filter at_direction snd same_direction map]. f_equal.
    apply IH. now right.
Qed.

Lemma post_ids_Permutation r : Permutation (post_ids r) (ids r).
Proof.
  induction r as [v cs IH] using rtree_nested_ind. cbn [post_ids ids].
  apply Permutation_trans with (v :: flat_map post_ids cs);
    [apply Permutation_sym, Permutation_cons_append|].
  constructor.
  induction cs as [|c rest IHc]; [constructor|]. cbn [flat_map].
  apply Permutation_app; [apply IH; now left|].
  apply IHc. intros c' Hc'. apply IH. now right.
Qed.

(** X8: started at a node from which the store unfolds into a tree,
    [Iterator_preorder] ends and visits, in the PREORDER state, every node
    of the tree once, a node before the nodes below it: the ids in
    pre-order. *)
Theorem preorder_visits t depth v p r s fuel :
  unfold t depth v p = Some r -> NoDup (p :: ids r) ->
  (length (events r) < fuel)%nat ->
  exists it,
    begin_preorder2 fuel s t v p = Done it /\
    (p = NONODE -> v = (if root t =? NONODE then 0 else root t) ->
     begin_preorder fuel s t = Done it) /\
    traverse_preorder fuel t it = Done (map (fun x => (x, PREORDER)) (ids r)).
Proof.
  intros Hu Hnd Hf.
  destruct (selected_events Iterator_preorder.is_candidate
              (at_direction PREORDER) t (fun it _ => eq_refl)
              depth v p r s fuel Hu Hnd Hf) as (it & B2 & B1 & T).
  exists it. split; [exact B2|]. split; [exact B1|].
  unfold traverse_preorder. now rewrite T, events_preorder.
Qed.

Lemma preorder_visits_witness :
  unfold bush 3 0 NONODE = Some bush_tree /\
  NoDup (NONODE :: ids bush_tree) /\
  (length (events bush_tree) < 16)%nat /\
  exists it,
    begin_preorder2 16 (Iterator_dfs.mkStorage 0 0 NOTRAVERSAL) bush 0 NONODE
    = Done it /\
    (NONODE = NONODE -> 0 = (if root bush =? NONODE then 0 else root bush) ->
     begin_preorder 16 (Iterator_dfs.mkStorage 0 0 NOTRAVERSAL) bush = Done it) /\
    traverse_preorder 16 bush it
    = Done (map (fun x => (x, PREORDER)) (ids bush_tree)).
Proof.
  assert (H : (length (events bush_tree) < 16)%nat) by (simpl; lia).
  split; [reflexivity|]. split; [exact NoDup_bush_tree|]. split; [exact H|].
  exact (preorder_visits bush 3 0 NONODE bush_tree
           (Iterator_dfs.mkStorage 0 0 NOTRAVERSAL) 16
           eq_refl NoDup_bush_tree H).
Defined.

(** X9: started at a node from which the store unfolds into a tree,
    [Iterator_postorder] ends and visits, in the POSTORDER state, every
    node of the tree once, a node after the nodes below it: the ids in
    post-order. *)
Theorem postorder_visits t depth v p r s fuel :
  unfold t depth v p = Some r -> NoDup (p :: ids r) ->
  (length (events r) < fuel)%nat ->
  exists it,
    begin_postorder2 fuel s t v p = Done it /\
    (p = NONODE -> v = (if root t =? NONODE then 0 else root t) ->
     begin_postorder fuel s t = Done it) /\
    traverse_postorder fuel t it
    = Done (map (fun x => (x, POSTORDER)) (post_ids r)) /\
    Permutation (post_ids r) (ids r).
Proof.
  intros Hu Hnd Hf.
  destruct (selected_events Iterator_postorder.is_candidate
              (at_direction POSTORDER) t (fun it _ => eq_refl)
              depth v p r s fuel Hu Hnd Hf) as (it & B2 & B1 & T).
  exists it. split; [exact B2|]. split; [exact B1|].
  split; [|apply post_ids_Permutation].
  unfold traverse_postorder. now rewrite T, events_postorder.
Qed.

Lemma postorder_visits_witness :
  unfold bush 3 0 NONODE = Some bush_tree /\
  NoDup (NONODE :: ids bush_tree) /\
  (length (events bush_tree) < 16)%nat /\
  exists it,
    begin_postorder2 16 (Iterator_dfs.mkStorage 0 0 NOTRAVERSAL) bush 0 NONODE
    = Done it /\
    (NONODE = NONODE -> 0 = (if root bush =? NONODE then 0 else root bush) ->
     begin_postorder 16 (Iterator_dfs.mkStorage 0 0 NOTRAVERSAL) bush = Done it) /\
    traverse_postorder 16 bush it
    = Done (map (fun x => (x, POSTORDER)) (post_ids bush_tree)) /\
    Permutation (post_ids bush_tree) (ids bush_tree).
Proof.
  assert (H : (length (events bush_tree) < 16)%nat) by (simpl; lia).
  split; [reflexivity|]. split; [exact NoDup_bush_tree|]. split; [exact H|].
  exact (postorder_visits bush 3 0 NONODE bush_tree
           (Iterator_dfs.mkStorage 0 0 NOTRAVERSAL) 16
           eq_refl NoDup_bush_tree H).
Defined.

(** X10: started at a node from which the store unfolds into a tree,
    [Iterator_inorder] ends and visits the INORDER states: a node without
    children once, and a node with children once between every two
    consecutive children, so that a node with a single child is not
    visited. *)
Theorem inorder_visits t depth v p r s fuel :
  unfold t depth v p = Some r -> NoDup (p :: ids r) ->
  (length (events r) < fuel)%nat ->
  exists it,
    begin_inorder2 fuel s t v p = Done it /\
    (p = NONODE -> v = (if root t =? NONODE then 0 else root t) ->
     begin_inorder fuel s t = Done it) /\
    traverse_inorder fuel t it
    = Done (map (fun x => (x, INORDER)) (in_ids r)).
Proof.
  intros Hu Hnd Hf.
  destruct (selected_events Iterator_inorder.is_candidate
              (at_direction INORDER) t (fun it _ => eq_refl)
              depth v p r s fuel Hu Hnd Hf) as (it & B2 & B1 & T).
  exists it. split; [exact B2|]. split; [exact B1|].
  unfold traverse_inorder. now rewrite T, events_inorder.
Qed.

Lemma inorder_visits_witness :
  unfold bush 3 0 NONODE = Some bush_tree /\
  NoDup (NONODE :: ids bush_tree) /\
  (length (events bush_tree) < 16)%nat /\
  exists it,
    begin_inorder2 16 (Iterator_dfs.mkStorage 0 0 NOTRAVERSAL) bush 0 NONODE
    = Done it /\
    (NONODE = NONODE -> 0 = (if root bush =? NONODE then 0 else root bush) ->
     begin_inorder 16 (Iterator_dfs.mkStorage 0 0 NOTRAVERSAL) bush = Done it) /\
    traverse_inorder 16 bush it
    = Done (map (fun x => (x, INORDER)) (in_ids bush_tree)).
Proof.
  assert (H : (length (events bush_tree) < 16)%nat) by (simpl; lia).
  split; [reflexivity|]. split; [exact NoDup_bush_tree|]. split; [exact H|].
  exact (inorder_visits bush 3 0 NONODE bush_tree
           (Iterator_dfs.mkStorage 0 0 NOTRAVERSAL) 16
           eq_refl NoDup_bush_tree H).
Defined.

Lemma eulertour_candidate t it :
  Iterator_dfs.idx it < node_count t ->
  Iterator_eulertour.is_candidate t it
  = Done (tour_stop t (Iterator_dfs.idx it, Iterator_dfs.direction it)).
Proof.
  intros H. unfold Iterator_eulertour.is_candidate.
  now rewrite (is_leaf_eval _ _ H).
Qed.

(** X11: started at a node from which the store unfolds into a tree,
    [Iterator_eulertour] ends and visits the events of the depth-first
    traversal at which the node has two or more neighbours or the state is
    INORDER.  So a node with two or more neighbours is visited on entering
    and on leaving it, and a node with at most one neighbour only in the
    INORDER state. *)
Theorem eulertour_visits t depth v p r s fuel :
  unfold t depth v p = Some r -> NoDup (p :: ids r) ->
  (length (events r) < fuel)%nat ->
  exists it evs,
    begin_eulertour2 fuel s t v p = Done it /\
    (p = NONODE -> v = (if root t =? NONODE then 0 else root t) ->
     begin_eulertour fuel s t = Done it) /\
    traverse_eulertour fuel t it = Done evs /\
    evs = filter (tour_stop t) (events r) /\
    (forall x, In x (ids r) -> leaf_degree t x = false ->
               In (x, PREORDER) evs /\ In (x, POSTORDER) evs) /\
    (forall x d, In (x, d) evs -> leaf_degree t x = true -> d = INORDER).
Proof.
  intros Hu Hnd Hf.
  destruct (selected_events Iterator_eulertour.is_candidate
              (tour_stop t) t (eulertour_candidate t)
              depth v p r s fuel Hu Hnd Hf) as (it & B2 & B1 & T).
  exists it, (filter (tour_stop t) (events r)).
  split; [exact B2|]. split; [exact B1|]. split; [exact T|].
  split; [reflexivity|]. split.
  - intros x Hx Hl. destruct (ids_events r x Hx) as [Hpre Hpost].
    split; apply filter_In; (split; [assumption|]);
      unfold tour_stop; simpl; now rewrite Hl.
  - intros x d Hin Hl. apply filter_In in Hin. destruct Hin as [_ Hs].
    unfold tour_stop in Hs. simpl in Hs. rewrite Hl in Hs. simpl in Hs.
    now destruct d.
Qed.

Lemma eulertour_visits_witness :
  unfold bush 3 0 NONODE = Some bush_tree /\
  NoDup (NONODE :: ids bush_tree) /\
  (length (events bush_tree) < 16)%nat /\
  exists it evs,
    begin_eulertour2 16 (Iterator_dfs.mkStorage 0 0 NOTRAVERSAL) bush 0 NONODE
    = Done it /\
    (NONODE = NONODE -> 0 = (if root bush =? NONODE then 0 else root bush) ->
     begin_eulertour 16 (Iterator_dfs.mkStorage 0 0 NOTRAVERSAL) bush = Done it) /\
    traverse_eulertour 16 bush it = Done evs /\
    evs = filter (tour_stop bush) (events bush_tree) /\
    (forall x, In x (ids bush_tree) -> leaf_degree bush x = false ->
               In (x, PREORDER) evs /\ In (x, POSTORDER) evs) /\
    (forall x d, In (x, d) evs -> leaf_degree bush x = true -> d = INORDER).
Proof.
  assert (H : (length (events bush_tree) < 16)%nat) by (simpl; lia).
  split; [reflexivity|]. split; [exact NoDup_bush_tree|]. split; [exact H|].
  exact (eulertour_visits bush 3 0 NONODE bush_tree
           (Iterator_dfs.mkStorage 0 0 NOTRAVERSAL) 16
           eq_refl NoDup_bush_tree H).
Defined.

(** ** Subtree moves on a node with two more neighbours *)

Lemma wf_remove_edge_step t v u :
  wf t -> In u (adj_of t v) ->
  exists t',
    remove_edge v u t = Done (true, t') /\ wf t' /\
    node_count t' = node_count t /\ root t' = root t /\
    total_degree t = (total_degree t' + 2)%nat /\
    forall x y, cnt t x y = (edge_cells x y v u + cnt t' x y)%nat.
Proof.
  intros W Hin. destruct (wf_remove_edge_total v u t W Hin) as [t' R].
  exists t'. split; [exact R|].
  pose proof (remove_edge_true _ _ _ _ R) as (_ & _ & Hn & Hr & _ & T & _).
  split; [eapply wf_remove_edge; eauto|].
  split; [exact Hn|]. split; [exact Hr|]. split; [exact T|].
  intros x y. unfold edge_cells. rewrite (remove_edge_cnt _ _ _ _ R x y). lia.
Qed.

Lemma wf_add_edge_step t v u :
  wf t -> v < node_count t -> u < node_count t ->
  exists t',
    add_edge v u t = Done (tt, t') /\ wf t' /\
    node_count t' = node_count t /\ root t' = root t /\
    total_degree t' = (total_degree t + 2)%nat /\
    forall x y, cnt t' x y = (cnt t x y + edge_cells x y v u)%nat.
Proof.
  intros W Hv Hu. destruct (add_edge_total v u t Hv Hu) as [t' A].
  exists t'. split; [exact A|].
  pose proof (add_edge_spec _ _ _ _ _ A) as (_ & _ & Hn & Hr & _ & T & _).
  split; [eapply wf_add_edge; eauto|].
  split; [exact Hn|]. split; [exact Hr|]. split; [exact T|].
  intros x y. unfold edge_cells. rewrite (add_edge_cnt _ _ _ _ _ A x y). lia.
Qed.

Lemma edge_cells_here v u : (1 <= edge_cells v u v u)%nat.
Proof. unfold edge_cells, arc. rewrite !N.eqb_refl. simpl. lia. Qed.

Lemma edge_cells_away x y v u :
  x <> v -> y <> v -> edge_cells x y v u = 0%nat.
Proof.
  intros Hx Hy. unfold edge_cells, arc.
  destruct (N.eqb_spec x v); [contradiction|].
  destruct (N.eqb_spec y v); [contradiction|].
  now rewrite andb_false_r.
Qed.

Lemma same_degree_same_count t t' :
  wf t -> wf t' -> total_degree t' = total_degree t ->
  edge_count t' = edge_count t.
Proof.
  intros W W' E. rewrite (wf_edge_count t W), (wf_edge_count t' W').
  now rewrite E.
Qed.

(** The prune step at a node [p] with exactly two neighbours [a], [b]
    besides [x]: the edges [(p,a)] and [(p,b)] give way to [(a,b)]. *)
Lemma prune_binary t p x a b :
  wf t -> p < node_count t -> ~ In p (adj_of t p) ->
  children_vector p x t = Done ([a; b], t) ->
  exists t',
    prune p x t = Done (true, t') /\ wf t' /\
    node_count t' = node_count t /\ root t' = root t /\
    (total_degree t' + 2 = total_degree t)%nat /\
    forall i j, (cnt t' i j + edge_cells i j p a + edge_cells i j p b
                 = cnt t i j + edge_cells i j a b)%nat.
Proof.
  intros W Hp Hloop Hch.
  pose proof Hch as Hch'.
  rewrite (children_vector_eval _ _ _ Hp) in Hch'. injection Hch' as Hf.
  assert (Ha : In a (adj_of t p)).
  { assert (H : In a (filter (fun u => negb (u =? x)) (adj_of t p)))
      by (rewrite Hf; now left).
    now apply filter_In in H. }
  assert (Hb : In b (adj_of t p)).
  { assert (H : In b (filter (fun u => negb (u =? x)) (adj_of t p)))
      by (rewrite Hf; right; now left).
    now apply filter_In in H. }
  assert (Hap : a <> p) by (intros ->; contradiction).
  assert (Hbp : b <> p) by (intros ->; contradiction).
  assert (Hc2 : (count_occ N.eq_dec [a; b] b <= cnt t p b)%nat).
  { rewrite <- Hf, count_occ_filter_neq.
    destruct (N.eqb_spec b x) as [->|_]; [|unfold cnt; lia].
    exfalso.
    assert (H : In x (filter (fun u => negb (u =? x)) (adj_of t p)))
      by (rewrite Hf; right; now left).
    apply filter_In in H. destruct H as [_ H]. now rewrite N.eqb_refl in H. }
  destruct (wf_remove_edge_step t p a W Ha)
    as (t1 & R1 & W1 & N1 & Rt1 & T1 & C1).
  assert (Hb1 : In b (adj_of t1 p)).
  { apply cnt_In. specialize (C1 p b). simpl in Hc2.
    unfold edge_cells, arc in C1. rewrite N.eqb_refl in C1.
    destruct (N.eqb_spec p a); [congruence|]. simpl in C1.
    destruct (N.eq_dec a b) as [->|Hab].
    - rewrite N.eqb_refl in C1. simpl in C1.
      destruct (N.eq_dec b b); [|contradiction]. lia.
    - destruct (N.eqb_spec b a); [congruence|]. simpl in C1.
      destruct (N.eq_dec b b); [|contradiction]. lia. }
  destruct (wf_remove_edge_step t1 p b W1 Hb1)
    as (t2 & R2 & W2 & N2 & Rt2 & T2 & C2).
  assert (Ha2 : a < node_count t2)
    by (rewrite N2, N1; exact (wf_in_range t p a W Ha)).
  assert (Hb2 : b < node_count t2)
    by (rewrite N2, N1; exact (wf_in_range t p b W Hb)).
  destruct (wf_add_edge_step t2 a b W2 Ha2 Hb2)
    as (t3 & A3 & W3 & N3 & Rt3 & T3 & C3).
  exists t3. split.
  { unfold prune. rewrite (bind_eq _ _ _ _ _ Hch). simpl foreach_ok.
    rewrite bind_assoc, (bind_eq _ _ _ _ _ R1). cbv iota.
    rewrite bind_assoc, (bind_eq _ _ _ _ _ R2). cbv iota.
    unfold ret at 1. unfold bind at 1. cbn [negb].
    now rewrite (bind_eq _ _ _ _ _ A3). }
  split; [exact W3|]. split; [congruence|]. split; [congruence|].
  split; [lia|].
  intros i j. rewrite C3, (C1 i j), (C2 i j). lia.
Qed.

(** X12: [spr(n,pn,u,v)] on a tree built by the operations, where [pn] has
    exactly two neighbours [a], [b] besides [n], is none of [u], [v] and
    [(u,v)] is an edge: the call succeeds and exchanges the edges
    [(pn,a)], [(pn,b)], [(u,v)] for [(a,b)], [(pn,u)], [(pn,v)], cell for
    cell; the numbers of nodes and edges and the root are as before. *)
Theorem spr_exchanges_edges t n pn u v a b :
  wf t -> pn < node_count t -> ~ In pn (adj_of t pn) ->
  children_vector pn n t = Done ([a; b], t) ->
  pn <> u -> pn <> v -> In v (adj_of t u) ->
  exists t',
    spr n pn u v t = Done (true, t') /\ wf t' /\
    node_count t' = node_count t /\ root t' = root t /\
    edge_count t' = edge_count t /\
    forall x y,
      (cnt t' x y + edge_cells x y pn a + edge_cells x y pn b
       + edge_cells x y u v
       = cnt t x y + edge_cells x y a b + edge_cells x y pn u
         + edge_cells x y pn v)%nat.
Proof.
  intros W Hp Hloop Hch Hu Hv Huv.
  destruct (prune_binary t pn n a b W Hp Hloop Hch)
    as (t1 & P & W1 & N1 & R1 & T1 & C1).
  assert (Hur : u < node_count t) by exact (adj_nonempty_in_range t u v Huv).
  assert (Hvr : v < node_count t) by exact (wf_in_range t u v W Huv).
  assert (Huv1 : In v (adj_of t1 u)).
  { apply cnt_In. apply cnt_In in Huv. specialize (C1 u v).
    rewrite (edge_cells_away u v pn a), (edge_cells_away u v pn b) in C1
      by congruence.
    lia. }
  destruct (wf_remove_edge_step t1 u v W1 Huv1)
    as (t2 & R2 & W2 & N2 & Rt2 & T2 & C2).
  destruct (wf_add_edge_step t2 pn u W2 ltac:(congruence) ltac:(congruence))
    as (t3 & A3 & W3 & N3 & Rt3 & T3 & C3).
  destruct (wf_add_edge_step t3 pn v W3 ltac:(congruence) ltac:(congruence))
    as (t4 & A4 & W4 & N4 & Rt4 & T4 & C4).
  exists t4. split.
  { unfold spr.
    destruct (N.eqb_spec pn u); [contradiction|].
    destruct (N.eqb_spec pn v); [contradiction|].
    rewrite (bind_eq _ _ _ _ _ P). cbn [negb].
    rewrite (bind_eq _ _ _ _ _ R2). cbn [negb].
    rewrite (bind_eq _ _ _ _ _ A3), (bind_eq _ _ _ _ _ A4). reflexivity. }
  split; [exact W4|]. split; [congruence|]. split; [congruence|].
  split; [apply same_degree_same_count; [exact W|exact W4|lia]|].
  intros x y. specialize (C1 x y). rewrite C4, C3. rewrite (C2 x y) in C1. lia.
Qed.

Lemma wf_binary7 : wf binary7.
Proof.
  apply (wf_same_nodes (mkTree (nodes23 binary7) NONODE 6));
    [reflexivity|reflexivity|].
  exact (preserves_run 0
           [Onew_node; Onew_node; Onew_node; Onew_node; Onew_node; Onew_node;
            Onew_node; Oadd_edge 0 1; Oadd_edge 0 2; Oadd_edge 1 3;
            Oadd_edge 1 4; Oadd_edge 2 5; Oadd_edge 2 6]
           empty_tree tt (mkTree (nodes23 binary7) NONODE 6)
           wf_empty_tree eq_refl).
Qed.

Lemma not_in_three (p a b c : N) :
  p <> a -> p <> b -> p <> c -> ~ In p [a; b; c].
Proof. intros Ha Hb Hc [H|[H|[H|[]]]]; congruence. Qed.

Lemma spr_exchanges_edges_witness :
  wf binary7 /\ 1 < node_count binary7 /\ ~ In 1 (adj_of binary7 1) /\
  children_vector 1 3 binary7 = Done ([0; 4], binary7) /\
  1 <> 2 /\ 1 <> 5 /\ In 5 (adj_of binary7 2) /\
  exists t',
    spr 3 1 2 5 binary7 = Done (true, t') /\ wf t' /\
    node_count t' = node_count binary7 /\ root t' = root binary7 /\
    edge_count t' = edge_count binary7 /\
    forall x y,
      (cnt t' x y + edge_cells x y 1 0 + edge_cells x y 1 4
       + edge_cells x y 2 5
       = cnt binary7 x y + edge_cells x y 0 4 + edge_cells x y 1 2
         + edge_cells x y 1 5)%nat.
Proof.
  assert (H1 : ~ In 1 (adj_of binary7 1))
    by (apply not_in_three; discriminate).
  assert (H2 : 1 <> 2) by discriminate.
  assert (H3 : 1 <> 5) by discriminate.
  assert (H4 : In 5 (adj_of binary7 2)) by (simpl; auto).
  split; [exact wf_binary7|]. split; [reflexivity|]. split; [exact H1|].
  split; [reflexivity|]. split; [exact H2|]. split; [exact H3|].
  split; [exact H4|].
  exact (spr_exchanges_edges binary7 3 1 2 5 0 4 wf_binary7 eq_refl H1
           eq_refl H2 H3 H4).
Defined.

(** X13: [reroot(n,pn,u,v)] on a tree built by the operations, where [n]
    has exactly two neighbours [a], [b] besides [pn], is none of [u], [v]
    and [(u,v)] is an edge: the call succeeds and exchanges the edges
    [(n,a)], [(n,b)], [(u,v)] for [(a,b)], [(n,u)], [(n,v)], cell for cell;
    the numbers of nodes and edges and the root marker are as before. *)
Theorem reroot_exchanges_edges t n pn u v a b :
  wf t -> n < node_count t -> ~ In n (adj_of t n) ->
  children_vector n pn t = Done ([a; b], t) ->
  n <> u -> n <> v -> In v (adj_of t u) ->
  exists t',
    reroot n pn u v t = Done (true, t') /\ wf t' /\
    node_count t' = node_count t /\ root t' = root t /\
    edge_count t' = edge_count t /\
    forall x y,
      (cnt t' x y + edge_cells x y n a + edge_cells x y n b
       + edge_cells x y u v
       = cnt t x y + edge_cells x y a b + edge_cells x y n u
         + edge_cells x y n v)%nat.
Proof.
  intros W Hp Hloop Hch Hu Hv Huv.
  destruct (prune_binary t n pn a b W Hp Hloop Hch)
    as (t1 & P & W1 & N1 & R1 & T1 & C1).
  assert (Hur : u < node_count t) by exact (adj_nonempty_in_range t u v Huv).
  assert (Hvr : v < node_count t) by exact (wf_in_range t u v W Huv).
  assert (Huv1 : In v (adj_of t1 u)).
  { apply cnt_In. apply cnt_In in Huv. specialize (C1 u v).
    rewrite (edge_cells_away u v n a), (edge_cells_away u v n b) in C1
      by congruence.
    lia. }
  destruct (wf_remove_edge_step t1 u v W1 Huv1)
    as (t2 & R2 & W2 & N2 & Rt2 & T2 & C2).
  destruct (wf_add_edge_step t2 n u W2 ltac:(congruence) ltac:(congruence))
    as (t3 & A3 & W3 & N3 & Rt3 & T3 & C3).
  destruct (wf_add_edge_step t3 n v W3 ltac:(congruence) ltac:(congruence))
    as (t4 & A4 & W4 & N4 & Rt4 & T4 & C4).
  exists t4. split.
  { unfold reroot.
    destruct (N.eqb_spec n u); [contradiction|].
    destruct (N.eqb_spec n v); [contradiction|].
    rewrite (bind_eq _ _ _ _ _ P). cbn [negb].
    rewrite (bind_eq _ _ _ _ _ R2). cbn [negb].
    rewrite (bind_eq _ _ _ _ _ A3), (bind_eq _ _ _ _ _ A4). reflexivity. }
  split; [exact W4|]. split; [congruence|]. split; [congruence|].
  split; [apply same_degree_same_count; [exact W|exact W4|lia]|].
  intros x y. specialize (C1 x y). rewrite C4, C3. rewrite (C2 x y) in C1. lia.
Qed.

Lemma reroot_exchanges_edges_witness :
  wf binary7 /\ 1 < node_count binary7 /\ ~ In 1 (adj_of binary7 1) /\
  children_vector 1 0 binary7 = Done ([3; 4], binary7) /\
  1 <> 2 /\ 1 <> 6 /\ In 6 (adj_of binary7 2) /\
  exists t',
    reroot 1 0 2 6 binary7 = Done (true, t') /\ wf t' /\
    node_count t' = node_count binary7 /\ root t' = root binary7 /\
    edge_count t' = edge_count binary7 /\
    forall x y,
      (cnt t' x y + edge_cells x y 1 3 + edge_cells x y 1 4
       + edge_cells x y 2 6
       = cnt binary7 x y + edge_cells x y 3 4 + edge_cells x y 1 2
         + edge_cells x y 1 6)%nat.
Proof.
  assert (H1 : ~ In 1 (adj_of binary7 1))
    by (apply not_in_three; discriminate).
  assert (H2 : 1 <> 2) by discriminate.
  assert (H3 : 1 <> 6) by discriminate.
  assert (H4 : In 6 (adj_of binary7 2)) by (simpl; auto).
  split; [exact wf_binary7|]. split; [reflexivity|]. split; [exact H1|].
  split; [reflexivity|]. split; [exact H2|]. split; [exact H3|].
  split; [exact H4|].
  exact (reroot_exchanges_edges binary7 1 0 2 6 3 4 wf_binary7 eq_refl H1
           eq_refl H2 H3 H4).
Defined.

(** X14: [spr_to_root(u,pu)] on a rooted tree built by the operations,
    where neither [u] nor [pu] is the root and [pu] has exactly two
    neighbours [a], [b] besides [u]: the call succeeds, exchanges the edges
    [(pu,a)], [(pu,b)] for [(a,b)] and [(pu,root)], cell for cell, and
    makes [pu] the root; the numbers of nodes and edges are as before. *)
Theorem spr_to_root_exchanges_edges t u pu a b :
  wf t -> root t <> NONODE -> root t < node_count t ->
  u <> root t -> pu <> root t ->
  pu < node_count t -> ~ In pu (adj_of t pu) ->
  children_vector pu u t = Done ([a; b], t) ->
  exists t',
    spr_to_root u pu t = Done (true, t') /\ wf t' /\
    node_count t' = node_count t /\ root t' = pu /\
    edge_count t' = edge_count t /\
    forall x y,
      (cnt t' x y + edge_cells x y pu a + edge_cells x y pu b
       = cnt t x y + edge_cells x y a b + edge_cells x y pu (root t))%nat.
Proof.
  intros W Hrt Hrr Hu Hpu Hp Hloop Hch.
  destruct (prune_binary t pu u a b W Hp Hloop Hch)
    as (t1 & P & W1 & N1 & R1 & T1 & C1).
  destruct (wf_add_edge_step t1 pu (root t) W1 ltac:(congruence)
              ltac:(congruence))
    as (t2 & A2 & W2 & N2 & Rt2 & T2 & C2).
  set (t3 := mkTree (nodes23 t2) pu (edge_count t2)).
  assert (W3 : wf t3) by (apply (wf_same_nodes t2); auto).
  exists t3. split.
  { unfold spr_to_root, is_rooted.
    unfold get_root at 1. unfold bind at 1 2. unfold ret at 1.
    destruct (N.eqb_spec (root t) NONODE); [contradiction|]. cbn [negb].
    unfold get_root at 1. unfold bind at 1.
    destruct (N.eqb_spec u (root t)); [contradiction|].
    destruct (N.eqb_spec pu (root t)); [contradiction|].
    rewrite (bind_eq _ _ _ _ _ P). cbn [negb].
    unfold get_root at 1. unfold bind at 1. rewrite R1.
    rewrite (bind_eq _ _ _ _ _ A2). reflexivity. }
  split; [exact W3|]. split; [unfold t3, node_count in *; simpl; congruence|].
  split; [reflexivity|].
  split; [apply same_degree_same_count;
          [exact W|exact W3|unfold t3, total_degree in *; simpl; lia]|].
  intros x y. specialize (C1 x y).
  change (cnt t3 x y) with (cnt t2 x y). rewrite C2. lia.
Qed.

Lemma spr_to_root_exchanges_edges_witness :
  wf binary7 /\ root binary7 <> NONODE /\
  root binary7 < node_count binary7 /\
  5 <> root binary7 /\ 2 <> root binary7 /\
  2 < node_count binary7 /\ ~ In 2 (adj_of binary7 2) /\
  children_vector 2 5 binary7 = Done ([0; 6], binary7) /\
  exists t',
    spr_to_root 5 2 binary7 = Done (true, t') /\ wf t' /\
    node_count t' = node_count binary7 /\ root t' = 2 /\
    edge_count t' = edge_count binary7 /\
    forall x y,
      (cnt t' x y + edge_cells x y 2 0 + edge_cells x y 2 6
       = cnt binary7 x y + edge_cells x y 0 6
         + edge_cells x y 2 (root binary7))%nat.
Proof.
  assert (H0 : root binary7 <> NONODE) by discriminate.
  assert (H1 : ~ In 2 (adj_of binary7 2))
    by (apply not_in_three; discriminate).
  assert (H2 : 5 <> root binary7) by discriminate.
  assert (H3 : 2 <> root binary7) by discriminate.
  split; [exact wf_binary7|]. split; [exact H0|]. split; [reflexivity|].
  split; [exact H2|]. split; [exact H3|]. split; [reflexivity|].
  split; [exact H1|]. split; [reflexivity|].
  exact (spr_to_root_exchanges_edges binary7 5 2 0 6 wf_binary7 H0 eq_refl
           H2 H3 eq_refl H1 eq_refl).
Defined.

(** ** The subtree move away from a root with two children *)

(** The adjacency of [v] after a successful [remove_edge(v,u)], [v <> u]:
    the answer of [remove] on its adjacency before. *)
Lemma remove_edge_adj v u t t' :
  remove_edge v u t = Done (true, t') -> v <> u ->
  AdjacentList.remove u (adj_of t v) = Some (adj_of t' v).
Proof.
  intros H Hne. unfold remove_edge in H.
  apply bind_Done in H. destruct H as (l & t0 & Ha & H).
  apply adjacent_Done in Ha. destruct Ha as (-> & Hv & <-).
  destruct (AdjacentList.remove u (adj_of t v)) as [lv|] eqn:Rv;
    [|apply ret_Done in H; destruct H; discriminate].
  apply bind_Done in H. destruct H as ([] & t1 & S1 & H).
  apply set_adjacent_Done in S1. destruct S1 as (_ & _ & _ & _ & _ & A1).
  apply bind_Done in H. destruct H as (lu & t2 & Ha & H).
  apply adjacent_Done in Ha. destruct Ha as (-> & Hu & <-).
  destruct (AdjacentList.remove v (adj_of t1 u)) as [lu'|] eqn:Ru;
    [|apply ret_Done in H; destruct H; discriminate].
  apply bind_Done in H. destruct H as ([] & t3 & S3 & H).
  apply set_adjacent_Done in S3. destruct S3 as (_ & _ & _ & _ & _ & A3).
  apply bind_Done in H. destruct H as ([] & t4 & D & H).
  apply decr_edge_count_Done in D. destruct D as (Dn & _ & _).
  apply ret_Done in H. destruct H as [_ ->].
  f_equal. rewrite (same_nodes_adj_of _ _ Dn), A3, A1, N.eqb_refl.
  destruct (N.eqb_spec v u); [contradiction|reflexivity].
Qed.

Lemma no_single_self_loop t v c :
  wf t -> Permutation (adj_of t v) [v; c] -> v = c.
Proof.
  intros W P. destruct (N.eq_dec v c) as [|Hne]; [assumption|exfalso].
  destruct (wf_loops _ W v) as [k Hk]. unfold cnt in Hk.
  rewrite (Permutation_count_occ N.eq_dec) in P. rewrite P in Hk.
  simpl in Hk. destruct (N.eq_dec v v); [|contradiction].
  destruct (N.eq_dec c v); [congruence|]. lia.
Qed.

Lemma spr_from_root_prune_done f mem cur cur1 t :
  ChildrenList.eq cur (ChildrenList.end_ (ChildrenList.parent cur))
  = Done (true, cur1) ->
  spr_from_root_prune f mem cur t = Done (true, t).
Proof. intros H. destruct f; simpl; rewrite H; reflexivity. Qed.

Lemma spr_from_root_prune_step f mem cur cur1 i cur2 t t1 cur3 :
  ChildrenList.eq cur (ChildrenList.end_ (ChildrenList.parent cur))
  = Done (false, cur1) ->
  ChildrenList.deref cur1 = Done (i, cur2) ->
  remove_edge (root t) i t = Done (true, t1) ->
  root t < node_count t1 ->
  ChildrenList.incr
    (ChildrenList.mkIterator
       (skipn (length mem - length (ChildrenList.itr cur2))
          (adj_of t1 (root t) ++ skipn (length (adj_of t1 (root t))) mem))
       (ChildrenList.parent cur)) = Done cur3 ->
  spr_from_root_prune (S f) mem cur t
  = spr_from_root_prune f
      (adj_of t1 (root t) ++ skipn (length (adj_of t1 (root t))) mem) cur3 t1.
Proof.
  intros He Hd R Hr Hi. cbn [spr_from_root_prune]. rewrite He, Hd.
  unfold get_root at 1. unfold bind at 1.
  rewrite (bind_eq _ _ _ _ _ R). cbn [negb].
  rewrite (bind_eq _ _ _ _ _ (adjacent_total (root t) t1 Hr)).
  cbv zeta. rewrite Hi. reflexivity.
Qed.

(** The loop of [spr_from_root] at a root whose adjacency holds [c] and
    one sibling [s], in either order: the edge to [s] is removed. *)
Lemma spr_from_root_prune_binary t c s :
  wf t -> c <> s ->
  adj_of t (root t) = [c; s] \/ adj_of t (root t) = [s; c] ->
  exists t1,
    spr_from_root_prune 2 (adj_of t (root t))
      (ChildrenList.begin (adj_of t (root t)) c) t = Done (true, t1) /\
    wf t1 /\ node_count t1 = node_count t /\ root t1 = root t /\
    total_degree t = (total_degree t1 + 2)%nat /\
    forall x y, cnt t x y = (edge_cells x y (root t) s + cnt t1 x y)%nat.
Proof.
  intros W Hcs Hadj.
  assert (Hs : In s (adj_of t (root t)))
    by (destruct Hadj as [-> | ->]; simpl; auto).
  assert (Hrs : root t <> s).
  { intros E.
    assert (P : Permutation (adj_of t (root t)) [root t; c]).
    { rewrite <- E in Hadj.
      destruct Hadj as [-> | ->]; [apply perm_swap|apply Permutation_refl]. }
    apply (no_single_self_loop t (root t) c W) in P. congruence. }
  destruct (wf_remove_edge_step t (root t) s W Hs)
    as (t1 & R & W1 & N1 & R1 & T1 & C1).
  pose proof (remove_edge_adj _ _ _ _ R Hrs) as A1.
  assert (Hr1 : root t < node_count t1).
  { rewrite N1. apply (adj_nonempty_in_range t (root t) s Hs). }
  assert (E1 : adj_of t1 (root t) = [c]).
  { destruct Hadj as [E|E]; rewrite E in A1; simpl in A1.
    - destruct (N.eqb_spec c s); [contradiction|].
      rewrite N.eqb_refl in A1. simpl in A1. now injection A1.
    - rewrite N.eqb_refl in A1. simpl in A1. now injection A1. }
  assert (Hsc : (s =? c) = false) by (apply N.eqb_neq; congruence).
  exists t1. split; [|auto].
  destruct Hadj as [E|E]; rewrite E.
  - rewrite (spr_from_root_prune_step 1 [c; s] (ChildrenList.begin [c; s] c)
               (ChildrenList.mkIterator [s] c) s
               (ChildrenList.mkIterator [s] c) t t1
               (ChildrenList.mkIterator [] c)).
    + now apply (spr_from_root_prune_done _ _ _ (ChildrenList.mkIterator [] c)).
    + unfold ChildrenList.eq. simpl. now rewrite N.eqb_refl.
    + unfold ChildrenList.deref. simpl. now rewrite Hsc.
    + exact R.
    + exact Hr1.
    + rewrite E1. reflexivity.
  - rewrite (spr_from_root_prune_step 1 [s; c] (ChildrenList.begin [s; c] c)
               (ChildrenList.mkIterator [s; c] c) s
               (ChildrenList.mkIterator [s; c] c) t t1
               (ChildrenList.mkIterator [c] c)).
    + apply (spr_from_root_prune_done _ _ _ (ChildrenList.mkIterator [] c)).
      unfold ChildrenList.eq. simpl. now rewrite N.eqb_refl.
    + unfold ChildrenList.eq. simpl. now rewrite Hsc.
    + unfold ChildrenList.deref. simpl. now rewrite Hsc.
    + exact R.
    + exact Hr1.
    + rewrite E1. reflexivity.
Qed.

(** X15: [spr_from_root(c,r,u,v)] on a rooted tree built by the operations
    whose root has exactly the two neighbours [c] and [s], is none of [u],
    [v], and where [(u,v)] is an edge: the call succeeds, exchanges the
    edges [(root,s)] and [(u,v)] for [(root,u)] and [(root,v)], cell for
    cell, and moves the root marker to [r]; the numbers of nodes and edges
    are as before. *)
Theorem spr_from_root_exchanges_edges t c s r u v :
  wf t -> root t <> NONODE -> c <> s ->
  adj_of t (root t) = [c; s] \/ adj_of t (root t) = [s; c] ->
  root t <> u -> root t <> v -> In v (adj_of t u) ->
  exists t',
    spr_from_root c r u v t = Done (true, t') /\ wf t' /\
    node_count t' = node_count t /\ root t' = r /\
    edge_count t' = edge_count t /\
    forall x y,
      (cnt t' x y + edge_cells x y (root t) s + edge_cells x y u v
       = cnt t x y + edge_cells x y (root t) u
         + edge_cells x y (root t) v)%nat.
Proof.
  intros W Hrt Hcs Hadj Hu Hv Huv.
  destruct (spr_from_root_prune_binary t c s W Hcs Hadj)
    as (t1 & P & W1 & N1 & R1 & T1 & C1).
  assert (Hrr : root t < node_count t).
  { apply (adj_nonempty_in_range t (root t) c).
    destruct Hadj as [-> | ->]; simpl; auto. }
  assert (Hur : u < node_count t) by exact (adj_nonempty_in_range t u v Huv).
  assert (Hvr : v < node_count t) by exact (wf_in_range t u v W Huv).
  assert (Huv1 : In v (adj_of t1 u)).
  { apply cnt_In. apply cnt_In in Huv. specialize (C1 u v).
    rewrite (edge_cells_away u v (root t) s) in C1 by congruence. lia. }
  destruct (wf_remove_edge_step t1 u v W1 Huv1)
    as (t2 & R2 & W2 & N2 & Rt2 & T2 & C2).
  destruct (wf_add_edge_step t2 (root t) u W2 ltac:(congruence)
              ltac:(congruence))
    as (t3 & A3 & W3 & N3 & Rt3 & T3 & C3).
  destruct (wf_add_edge_step t3 (root t) v W3 ltac:(congruence)
              ltac:(congruence))
    as (t4 & A4 & W4 & N4 & Rt4 & T4 & C4).
  set (t5 := mkTree (nodes23 t4) r (edge_count t4)).
  assert (W5 : wf t5) by (apply (wf_same_nodes t4); auto).
  exists t5. split.
  { unfold spr_from_root, is_rooted.
    unfold get_root at 1. unfold bind at 1 2. unfold ret at 1.
    destruct (N.eqb_spec (root t) NONODE); [contradiction|]. cbn [negb].
    unfold get_root at 1. unfold bind at 1.
    destruct (N.eqb_spec (root t) u); [contradiction|].
    destruct (N.eqb_spec (root t) v); [contradiction|]. cbn [orb].
    rewrite (bind_eq _ _ _ _ _ (adjacent_total _ _ Hrr)).
    assert (L2 : length (adj_of t (root t)) = 2%nat)
      by (destruct Hadj as [-> | ->]; reflexivity).
    rewrite L2, (bind_eq _ _ _ _ _ P). cbn [negb].
    rewrite (bind_eq _ _ _ _ _ R2). cbn [negb].
    unfold get_root at 1. unfold bind at 1.
    replace (root t2) with (root t) by congruence.
    rewrite (bind_eq _ _ _ _ _ A3).
    unfold get_root at 1. unfold bind at 1.
    replace (root t3) with (root t) by congruence.
    rewrite (bind_eq _ _ _ _ _ A4). reflexivity. }
  split; [exact W5|]. split; [unfold t5, node_count in *; simpl; congruence|].
  split; [reflexivity|].
  split; [apply same_degree_same_count;
          [exact W|exact W5|unfold t5, total_degree in *; simpl; lia]|].
  intros x y. change (cnt t5 x y) with (cnt t4 x y).
  rewrite C4, C3, (C1 x y), (C2 x y). lia.
Qed.

Lemma spr_from_root_exchanges_edges_witness :
  wf binary7 /\ root binary7 <> NONODE /\ 1 <> 2 /\
  (adj_of binary7 (root binary7) = [1; 2] \/
   adj_of binary7 (root binary7) = [2; 1]) /\
  root binary7 <> 2 /\ root binary7 <> 5 /\ In 5 (adj_of binary7 2) /\
  exists t',
    spr_from_root 1 2 2 5 binary7 = Done (true, t') /\ wf t' /\
    node_count t' = node_count binary7 /\ root t' = 2 /\
    edge_count t' = edge_count binary7 /\
    forall x y,
      (cnt t' x y + edge_cells x y (root binary7) 2 + edge_cells x y 2 5
       = cnt binary7 x y + edge_cells x y (root binary7) 2
         + edge_cells x y (root binary7) 5)%nat.
Proof.
  assert (H0 : root binary7 <> NONODE) by discriminate.
  assert (H1 : 1 <> 2) by discriminate.
  assert (H2 : root binary7 <> 2) by discriminate.
  assert (H3 : root binary7 <> 5) by discriminate.
  assert (H4 : In 5 (adj_of binary7 2)) by (simpl; auto).
  split; [exact wf_binary7|]. split; [exact H0|]. split; [exact H1|].
  split; [left; reflexivity|]. split; [exact H2|]. split; [exact H3|].
  split; [exact H4|].
  exact (spr_from_root_exchanges_edges binary7 1 2 2 2 5 wf_binary7 H0 H1
           (or_introl eq_refl) H2 H3 H4).
Defined.

(** ** The public fields of the depth-first iterator *)

Lemma push_children_Done t v p stk stk' :
  Iterator_dfs.push_children t v p stk = Done stk' ->
  exists w, stk' = w :: stk /\ Iterator_dfs.first w = v.
Proof.
  unfold Iterator_dfs.push_children.
  destruct (nth_N (nodes23 t) v); [|discriminate].
  intros H. injection H as <-. eexists. split; reflexivity.
Qed.

Lemma descend_shape p0 t it w rest it' :
  Iterator_dfs.idx it = Iterator_dfs.first w ->
  Iterator_dfs.lvl it = N.of_nat (length rest) mod UINT_RANGE ->
  Iterator_dfs.descend t it w rest = Done it' ->
  dfs_shape p0 it'.
Proof.
  intros Hi Hl. unfold Iterator_dfs.descend.
  destruct (ChildrenList.deref (Iterator_dfs.second w)) as [[c sec]| | |];
    try discriminate.
  destruct (Iterator_dfs.push_children t c (Iterator_dfs.idx it)
              (Iterator_dfs.mkItem (Iterator_dfs.first w) sec
                 (Iterator_dfs.third w) :: rest)) as [stk| | |] eqn:P;
    try discriminate.
  intros H. injection H as <-.
  apply push_children_Done in P. destruct P as (w1 & -> & F1).
  unfold dfs_shape. simpl. split; [now rewrite F1|].
  split; [rewrite Hl; apply uint_incr_mod|]. left. exact Hi.
Qed.

Lemma dfs_next_shape p0 t it it' :
  dfs_shape p0 it -> Iterator_dfs.dfs_next t it = Done it' ->
  dfs_shape p0 it'.
Proof.
  unfold dfs_shape at 1, Iterator_dfs.dfs_next.
  destruct (Iterator_dfs.dfs_stack it) as [|w rest] eqn:Es.
  - intros _ H. injection H as <-. unfold dfs_shape. now rewrite Es.
  - intros (Hi & Hl & Hp).
    destruct (Iterator_dfs.direction it).
    + destruct (ChildrenList.eq (Iterator_dfs.second w) (Iterator_dfs.third w))
        as [[[|] sec]| | |]; try discriminate.
      * intros H. injection H as <-. unfold dfs_shape. simpl.
        split; [exact Hi|]. split; [exact Hl|].
        destruct Hp as [Hp|Hp]; [left|right]; exact Hp.
      * apply descend_shape; assumption.
    + destruct (ChildrenList.eq (Iterator_dfs.second w) (Iterator_dfs.third w))
        as [[[|] sec]| | |]; try discriminate.
      * intros H. injection H as <-. unfold dfs_shape. simpl.
        split; [exact Hi|]. split; [exact Hl|].
        destruct Hp as [Hp|Hp]; [left|right]; exact Hp.
      * apply descend_shape; assumption.
    + destruct rest as [|w' rest'].
      * intros H. injection H as <-. exact I.
      * destruct (ChildrenList.incr (Iterator_dfs.second w'))
          as [sec1| | |]; try discriminate.
        destruct (ChildrenList.eq sec1 (Iterator_dfs.third w'))
          as [[b sec2]| | |]; try discriminate.
        intros H. injection H as <-. unfold dfs_shape. simpl.
        split; [reflexivity|].
        split; [rewrite Hl; apply uint_decr_mod|]. left. reflexivity.
    + discriminate.
Qed.

Lemma incr_shape p0 t it it' :
  dfs_shape p0 it -> Iterator_dfs.incr t it = Done it' -> dfs_shape p0 it'.
Proof.
  intros Hs. unfold Iterator_dfs.incr.
  destruct (Iterator_dfs.dfs_next t it) as [it1| | |] eqn:D; try discriminate.
  pose proof (dfs_next_shape p0 t it it1 Hs D) as H1.
  unfold Iterator_dfs.dfs_end.
  destruct (Iterator_dfs.dfs_stack it1) eqn:E1; intros H; injection H as <-.
  - exact I.
  - exact H1.
Qed.

Lemma begin_dfs2_shape s t v p it :
  begin_dfs2 s t v p = Done it -> dfs_shape p it.
Proof.
  unfold begin_dfs2, Iterator_dfs.make2.
  destruct (negb (0 =? N.of_nat (length (nodes23 t)))).
  - unfold Iterator_dfs.dfs_init2.
    destruct (Iterator_dfs.push_children t v p
                (Iterator_dfs.dfs_stack (Iterator_dfs.raw s 0)))
      as [stk| | |] eqn:P; try discriminate.
    intros H. injection H as <-.
    apply push_children_Done in P. destruct P as (w & -> & F).
    unfold dfs_shape. simpl. split; [now rewrite F|].
    split; [reflexivity|]. right. split; reflexivity.
  - intros H. injection H as <-. exact I.
Qed.

Lemma begin_dfs_shape s t it :
  begin_dfs s t = Done it -> dfs_shape NONODE it.
Proof.
  unfold begin_dfs, Iterator_dfs.make.
  destruct (negb (0 =? N.of_nat (length (nodes23 t)))).
  - unfold Iterator_dfs.dfs_init.
    destruct (nodes23 t) as [|n0 ns] eqn:En; cbv zeta.
    + destruct (Iterator_dfs.push_children _ _ _ _) as [stk| | |] eqn:P;
        try discriminate.
      intros H. injection H as <-.
      apply push_children_Done in P. destruct P as (w & -> & F).
      unfold dfs_shape. simpl. split; [now rewrite F|].
      split; [reflexivity|]. right. split; reflexivity.
    + destruct (Iterator_dfs.push_children _ _ _ _) as [stk| | |] eqn:P;
        try discriminate.
      intros H. injection H as <-.
      apply push_children_Done in P. destruct P as (w & -> & F).
      unfold dfs_shape. simpl. split; [now rewrite F|].
      split; [reflexivity|]. right. split; reflexivity.
  - intros H. injection H as <-. exact I.
Qed.

Lemma advance_shape p0 t n :
  forall it it', dfs_shape p0 it -> advance n t it = Done it' ->
                 dfs_shape p0 it'.
Proof.
  induction n as [|n IH]; intros it it' Hs H; simpl in H.
  - now injection H as <-.
  - destruct (Iterator_dfs.incr t it) as [it1| | |] eqn:E; try discriminate.
    apply (IH it1 it' (incr_shape p0 t it it1 Hs E) H).
Qed.

(** X17: at every state that [begin_dfs(v,p)], or [begin_dfs()] with
    [p = NONODE], followed by any number of increments reaches with a
    non-empty stack, [idx] is the node of the top frame, [lvl] is the
    number of frames below it (as a 32-bit counter), and [parent] is the
    node of the frame below, [NONODE] when there is none, or still [p]
    while only the start frame is there. *)
Theorem dfs_fields s t v p it0 n it w rest :
  begin_dfs2 s t v p = Done it0 \/ (p = NONODE /\ begin_dfs s t = Done it0) ->
  advance n t it0 = Done it ->
  Iterator_dfs.dfs_stack it = w :: rest ->
  Iterator_dfs.idx it = Iterator_dfs.first w /\
  Iterator_dfs.lvl it = N.of_nat (length rest) mod UINT_RANGE /\
  (Iterator_dfs.parent it = match rest with
                            | [] => NONODE
                            | w' :: _ => Iterator_dfs.first w'
                            end \/
   (rest = [] /\ Iterator_dfs.parent it = p)).
Proof.
  intros B A Es.
  assert (S0 : dfs_shape p it0).
  { destruct B as [B|[-> B]];
      [exact (begin_dfs2_shape _ _ _ _ _ B)|exact (begin_dfs_shape _ _ _ B)]. }
  pose proof (advance_shape p t n it0 it S0 A) as H.
  unfold dfs_shape in H. rewrite Es in H. exact H.
Qed.

Lemma dfs_fields_witness :
  (begin_dfs2 (Iterator_dfs.mkStorage 9 9 NOTRAVERSAL) bush 0 NONODE
   = Done (Iterator_dfs.mk 0 0 NONODE PREORDER [frame 0 [1; 4] NONODE]) \/
   (NONODE = NONODE /\
    begin_dfs (Iterator_dfs.mkStorage 9 9 NOTRAVERSAL) bush
    = Done (Iterator_dfs.mk 0 0 NONODE PREORDER [frame 0 [1; 4] NONODE]))) /\
  advance 2 bush (Iterator_dfs.mk 0 0 NONODE PREORDER [frame 0 [1; 4] NONODE])
  = Done (Iterator_dfs.mk 2 2 1 PREORDER
            [frame 2 [1] 1; frame 1 [2; 3] 0; frame 0 [1; 4] NONODE]) /\
  Iterator_dfs.idx (Iterator_dfs.mk 2 2 1 PREORDER
            [frame 2 [1] 1; frame 1 [2; 3] 0; frame 0 [1; 4] NONODE]) = 2 /\
  Iterator_dfs.lvl (Iterator_dfs.mk 2 2 1 PREORDER
            [frame 2 [1] 1; frame 1 [2; 3] 0; frame 0 [1; 4] NONODE])
  = 2 mod UINT_RANGE.
Proof.
  split; [left; reflexivity|]. split; [reflexivity|].
  destruct (dfs_fields (Iterator_dfs.mkStorage 9 9 NOTRAVERSAL) bush 0 NONODE
              (Iterator_dfs.mk 0 0 NONODE PREORDER [frame 0 [1; 4] NONODE]) 2
              (Iterator_dfs.mk 2 2 1 PREORDER
                 [frame 2 [1] 1; frame 1 [2; 3] 0; frame 0 [1; 4] NONODE])
              (frame 2 [1] 1) [frame 1 [2; 3] 0; frame 0 [1; 4] NONODE]
              (or_introl eq_refl) eq_refl eq_refl) as (Hi & Hl & _).
  split; [exact Hi|exact Hl].
Defined.

(** ** Skipping a subtree *)

Lemma Steps_shape p0 t it evs it' :
  Steps t it evs it' -> dfs_shape p0 it -> dfs_shape p0 it'.
Proof.
  induction 1 as [it|it it1 it2 evs D Hs Hi St IH]; intros H; [exact H|].
  apply IH. exact (dfs_next_shape p0 t it it1 H D).
Qed.

(** X18: [skip()] called in the PREORDER state of a node [v], in a
    traversal over a tree, makes the iterator pass over the subtree of
    [v]: the next two states are the INORDER and the POSTORDER state of
    [v], and from there the traversal goes on exactly as it does after the
    full visit of the subtree. *)
Theorem skip_passes_subtree t k v p r stk lvl par p0 :
  unfold t k v p = Some r -> NoDup (p :: ids r) ->
  dfs_shape p0
    (Iterator_dfs.mk v lvl par PREORDER (frame v (adj_of t v) p :: stk)) ->
  exists skipped after_skip after_visit,
    dfs_skip
      (Iterator_dfs.mk v lvl par PREORDER (frame v (adj_of t v) p :: stk))
    = Done skipped /\
    Steps t skipped [(v, INORDER); (v, POSTORDER)] after_skip /\
    Steps t
      (Iterator_dfs.mk v lvl par PREORDER (frame v (adj_of t v) p :: stk))
      (tl (events r)) after_visit /\
    Iterator_dfs.idx after_skip = v /\ Iterator_dfs.idx after_visit = v /\
    Iterator_dfs.direction after_skip = POSTORDER /\
    Iterator_dfs.direction after_visit = POSTORDER /\
    Iterator_dfs.dfs_stack after_skip = Iterator_dfs.dfs_stack after_visit /\
    Iterator_dfs.lvl after_skip = Iterator_dfs.lvl after_visit /\
    Iterator_dfs.dfs_next t after_skip = Iterator_dfs.dfs_next t after_visit.
Proof.
  intros Hu Hnd Hs.
  destruct (unfold_in_store _ _ _ _ _ Hu) as (adj & En & Ea & Hv).
  destruct (machine_follows_tree t k v p r Hu (NoDup_hides_parent _ _ Hnd)
              stk lvl par) as (lvl' & par' & St).
  destruct (dfs_next_leaf t v lvl par [] p stk eq_refl) as [D1 D2].
  exists (Iterator_dfs.mk v lvl par PREORDER (frame v [] p :: stk)),
         (Iterator_dfs.mk v lvl par POSTORDER (frame v [] p :: stk)),
         (Iterator_dfs.mk v lvl' par' POSTORDER (frame v [] p :: stk)).
  assert (L : lvl' = lvl).
  { pose proof (Steps_shape p0 _ _ _ _ St Hs) as H'.
    unfold dfs_shape in Hs, H'. simpl in Hs, H'.
    destruct Hs as (_ & -> & _). now destruct H' as (_ & -> & _). }
  split; [reflexivity|]. split.
  { apply (Steps_step t _ (Iterator_dfs.mk v lvl par INORDER
                             (frame v [] p :: stk)) _ _
             [(v, POSTORDER)] D1 eq_refl); [discriminate|exact Hv|].
    apply (Steps_step t _ (Iterator_dfs.mk v lvl par POSTORDER
                             (frame v [] p :: stk)) _ _ [] D2 eq_refl);
      [discriminate|exact Hv|constructor]. }
  split; [exact St|].
  repeat (split; [reflexivity|]).
  split; [now rewrite L|].
  subst lvl'. unfold Iterator_dfs.dfs_next. reflexivity.
Qed.

Lemma skip_passes_subtree_witness :
  unfold bush 2 1 0 = Some (RNode 1 [RNode 2 []; RNode 3 []]) /\
  NoDup (0 :: ids (RNode 1 [RNode 2 []; RNode 3 []])) /\
  dfs_shape NONODE
    (Iterator_dfs.mk 1 1 0 PREORDER
       (frame 1 (adj_of bush 1) 0 :: [frame 0 [1; 4] NONODE])) /\
  exists skipped after_skip after_visit,
    dfs_skip
      (Iterator_dfs.mk 1 1 0 PREORDER
         (frame 1 (adj_of bush 1) 0 :: [frame 0 [1; 4] NONODE]))
    = Done skipped /\
    Steps bush skipped [(1, INORDER); (1, POSTORDER)] after_skip /\
    Steps bush
      (Iterator_dfs.mk 1 1 0 PREORDER
         (frame 1 (adj_of bush 1) 0 :: [frame 0 [1; 4] NONODE]))
      (tl (events (RNode 1 [RNode 2 []; RNode 3 []]))) after_visit /\
    Iterator_dfs.idx after_skip = 1 /\ Iterator_dfs.idx after_visit = 1 /\
    Iterator_dfs.direction after_skip = POSTORDER /\
    Iterator_dfs.direction after_visit = POSTORDER /\
    Iterator_dfs.dfs_stack after_skip = Iterator_dfs.dfs_stack after_visit /\
    Iterator_dfs.lvl after_skip = Iterator_dfs.lvl after_visit /\
    Iterator_dfs.dfs_next bush after_skip
    = Iterator_dfs.dfs_next bush after_visit.
Proof.
  assert (H1 : NoDup (0 :: ids (RNode 1 [RNode 2 []; RNode 3 []]))).
  { repeat constructor; simpl; intuition discriminate. }
  assert (H2 : dfs_shape NONODE
                 (Iterator_dfs.mk 1 1 0 PREORDER
                    (frame 1 (adj_of bush 1) 0 :: [frame 0 [1; 4] NONODE]))).
  { unfold dfs_shape. simpl. split; [reflexivity|].
    split; [reflexivity|]. left. reflexivity. }
  split; [reflexivity|]. split; [exact H1|]. split; [exact H2|].
  exact (skip_passes_subtree bush 2 1 0 (RNode 1 [RNode 2 []; RNode 3 []])
           [frame 0 [1; 4] NONODE] 1 0 NONODE eq_refl H1 H2).
Defined.

(** ** The children container and the children vector *)

(** X19: [ChildrenList::exist(v)] holds exactly when [v] is among the
    ids that [children(v,parent,vec)] delivers, and [ChildrenList::size()]
    is the number of those ids exactly when the parent is listed at most
    once in the adjacency. *)
Theorem children_list_agrees adj p :
  (forall v, ChildrenList.exist adj p v = true
             <-> In v (filter (fun u => negb (u =? p)) adj)) /\
  (ChildrenList.size adj p
   = N.of_nat (length (filter (fun u => negb (u =? p)) adj))
   <-> (count_occ N.eq_dec adj p <= 1)%nat).
Proof.
  split.
  - intros v. unfold ChildrenList.exist, AdjacentList.exist.
    rewrite filter_In. destruct (N.eqb_spec v p) as [->|Hne].
    + split; [discriminate|]. intros [_ H]. discriminate.
    + rewrite existsb_exists. split.
      * intros (x & Hx & E). apply N.eqb_eq in E. subst x. now split.
      * intros [Hin _]. exists v. split; [exact Hin|apply N.eqb_refl].
  - assert (Hlen : (length (filter (fun u => negb (u =? p)%N) adj)
                    + count_occ N.eq_dec adj p = length adj)%nat).
    { induction adj as [|x r IH]; [reflexivity|]. simpl.
      destruct (N.eq_dec x p) as [->|Hne].
      - rewrite N.eqb_refl. simpl. lia.
      - destruct (N.eqb_spec x p); [contradiction|]. simpl. lia. }
    assert (Hex : AdjacentList.exist p adj = true
                  <-> (count_occ N.eq_dec adj p > 0)%nat).
    { unfold AdjacentList.exist. rewrite existsb_exists.
      rewrite <- (count_occ_In N.eq_dec). split.
      - intros (x & Hx & E). apply N.eqb_eq in E. now subst x.
      - intros H. exists p. split; [exact H|apply N.eqb_refl]. }
    unfold ChildrenList.size, AdjacentList.size.
    destruct (AdjacentList.exist p adj) eqn:E.
    + assert (count_occ N.eq_dec adj p > 0)%nat by now apply Hex.
      split; intros H0; lia.
    + assert (~ (count_occ N.eq_dec adj p > 0)%nat).
      { intros H0. apply Hex in H0. congruence. }
      split; intros H0; lia.
Qed.

(** ** Contracting all chain nodes *)

Lemma remove_edge_lengths v u t t' :
  remove_edge v u t = Done (true, t') ->
  forall w, length (adj_of t w)
            = ((if (w =? v)%N then 1%nat else 0%nat)
               + (if (w =? u)%N then 1%nat else 0%nat)
               + length (adj_of t' w))%nat.
Proof.
  intros R w.
  pose proof (remove_edge_true _ _ _ _ R) as (_ & _ & _ & _ & _ & _ & P).
  specialize (P w). apply Permutation_length in P.
  rewrite P, !length_app. destruct (w =? v), (w =? u); simpl; lia.
Qed.

Lemma add_edge_lengths v u t a t' :
  add_edge v u t = Done (a, t') ->
  forall w, length (adj_of t' w)
            = (length (adj_of t w) + (if (w =? v)%N then 1%nat else 0%nat)
               + (if (w =? u)%N then 1%nat else 0%nat))%nat.
Proof.
  intros A w.
  pose proof (add_edge_spec _ _ _ _ _ A) as (_ & _ & _ & _ & _ & _ & E).
  rewrite (E w), !length_app. destruct (w =? v), (w =? u); simpl; lia.
Qed.

(** One call of [contract_chain_node] on a well-formed tree: it always
    returns, tells whether [v] was a chain node, and leaves the degree of
    every other node as it was. *)
Lemma contract_chain_node_degrees t v :
  wf t -> v < node_count t ->
  exists b t',
    contract_chain_node v t = Done (b, t') /\ wf t' /\
    node_count t' = node_count t /\ root t' = root t /\
    (b = true <-> length (adj_of t v) = 2%nat /\ v <> root t) /\
    (b = false -> t' = t) /\
    forall w, w <> v -> length (adj_of t' w) = length (adj_of t w).
Proof.
  intros W Hv. rewrite contract_chain_node_unfold by assumption.
  unfold AdjacentList.size.
  destruct (N.of_nat (length (adj_of t v)) =? 2) eqn:Hs; cbn [negb].
  2:{ apply N.eqb_neq in Hs. exists false, t.
      repeat (split; [reflexivity || assumption|]).
      split; [|auto].
      split; [discriminate|]. intros [L _]. rewrite L in Hs. now elim Hs. }
  apply N.eqb_eq in Hs.
  assert (L : length (adj_of t v) = 2%nat) by lia. clear Hs.
  destruct (v =? root t) eqn:Hr.
  { apply N.eqb_eq in Hr. exists false, t.
    repeat (split; [reflexivity || assumption|]).
    split; [|auto].
    split; [discriminate|]. intros [_ N]. contradiction. }
  apply N.eqb_neq in Hr.
  destruct (adj_of t v) as [|l0 [|l1 [|? ?]]] eqn:E; try discriminate.
  clear L.
  assert (I0 : In v (adj_of t l0)).
  { apply (wf_reciprocal _ W). rewrite E. simpl; auto. }
  destruct (wf_remove_edge_step t l0 v W I0)
    as (t1 & R1 & W1 & N1 & Rt1 & _ & C1).
  pose proof (remove_edge_lengths _ _ _ _ R1) as L1.
  destruct (N.eq_dec l0 v) as [E0|N0].
  - (* both cells of [v] are [v] itself *)
    subst l0. assert (l1 = v).
    { symmetry. apply (no_single_self_loop t v l1 W). rewrite E. reflexivity. }
    subst l1.
    assert (Z1 : adj_of t1 v = []).
    { pose proof (L1 v) as H. rewrite E, N.eqb_refl in H. simpl in H.
      apply length_zero_iff_nil. lia. }
    assert (R2 : remove_edge v v t1 = Done (false, t1)).
    { apply remove_edge_eval_absent; [rewrite N1; assumption|].
      rewrite Z1. intros []. }
    destruct (wf_add_edge_step t1 v v W1) as (t2 & A2 & W2 & N2 & Rt2 & _ & _);
      try (rewrite N1; assumption).
    pose proof (add_edge_lengths _ _ _ _ _ A2) as L2.
    exists true, t2.
    split.
    { rewrite (bind_eq _ _ _ _ _ R1). rewrite (bind_eq _ _ _ _ _ R2).
      rewrite (bind_eq _ _ _ _ _ A2). reflexivity. }
    split; [assumption|]. split; [congruence|]. split; [congruence|].
    split; [split; [intros _; split; [reflexivity|assumption]|reflexivity]|].
    split; [discriminate|].
    intros w Hw. rewrite (L2 w), (L1 w).
    apply N.eqb_neq in Hw. rewrite Hw. lia.
  - assert (N1v : l1 <> v).
    { intros ->. apply N0. symmetry.
      apply (no_single_self_loop t v l0 W). rewrite E. apply perm_swap. }
    assert (I1 : In v (adj_of t1 l1)).
    { apply cnt_In.
      pose proof (C1 l1 v) as H.
      assert (Hc : cnt t l1 v = cnt t v l1) by apply (wf_balanced _ W).
      unfold cnt at 2 in Hc. rewrite E in Hc. simpl in Hc.
      destruct (N.eq_dec l1 l1); [|contradiction].
      unfold edge_cells, arc in H. rewrite N.eqb_refl in H.
      assert (Hq : (l1 =? v) = false) by (apply N.eqb_neq; assumption).
      rewrite Hq, andb_true_r in H. cbn [andb] in H.
      destruct (N.eq_dec l0 l1) as [->|Hd].
      + rewrite N.eqb_refl in H. lia.
      + assert (Hq' : (l1 =? l0) = false) by (apply N.eqb_neq; congruence).
        rewrite Hq' in H. lia. }
    destruct (wf_remove_edge_step t1 l1 v W1 I1)
      as (t2 & R2 & W2 & N2 & Rt2 & _ & _).
    pose proof (remove_edge_lengths _ _ _ _ R2) as L2.
    assert (B0 : l0 < node_count t).
    { apply (wf_in_range t v); [assumption|]. rewrite E. simpl; auto. }
    assert (B1 : l1 < node_count t).
    { apply (wf_in_range t v); [assumption|]. rewrite E. simpl; auto. }
    destruct (wf_add_edge_step t2 l0 l1 W2) as (t3 & A3 & W3 & N3 & Rt3 & _ & _);
      try (rewrite N2, N1; assumption).
    pose proof (add_edge_lengths _ _ _ _ _ A3) as L3.
    exists true, t3.
    split.
    { rewrite (bind_eq _ _ _ _ _ R1). rewrite (bind_eq _ _ _ _ _ R2).
      rewrite (bind_eq _ _ _ _ _ A3). reflexivity. }
    split; [assumption|]. split; [congruence|]. split; [congruence|].
    split; [split; [intros _; split; [reflexivity|assumption]|reflexivity]|].
    split; [discriminate|].
    intros w Hw. rewrite (L3 w), (L1 w), (L2 w).
    apply N.eqb_neq in Hw. rewrite Hw.
    destruct (w =? l0), (w =? l1); lia.
Qed.

Lemma contract_all_chains_loop l :
  forall t, wf t -> NoDup l -> (forall i, In i l -> i < node_count t) ->
  exists b t',
    foreach_ok l contract_chain_node t = Done (b, t') /\ wf t' /\
    node_count t' = node_count t /\ root t' = root t /\
    (b = true <->
     forall i, In i l -> length (adj_of t i) = 2%nat /\ i <> root t) /\
    (forall w, ~ In w l -> length (adj_of t' w) = length (adj_of t w)).
Proof.
  induction l as [|i l IH]; intros t W ND B.
  - exists true, t. repeat (split; [reflexivity || assumption|]).
    split; [|reflexivity].
    split; [intros _ ? []|reflexivity].
  - inversion ND as [|? ? Hni ND']; subst.
    destruct (contract_chain_node_degrees t i W (B i (or_introl eq_refl)))
      as (b0 & t1 & C & W1 & N1 & R1 & Hb & Hf & Hl).
    cbn [foreach_ok]. rewrite (bind_eq _ _ _ _ _ C).
    destruct b0.
    + destruct (IH t1 W1 ND') as (b & t' & F & W' & N' & R' & Hb' & Hl').
      { intros j Hj. rewrite N1. apply B. now right. }
      exists b, t'. split; [assumption|]. split; [assumption|].
      split; [congruence|]. split; [congruence|]. split.
      * rewrite Hb'. split.
        -- intros H j [<-|Hj]; [now apply Hb|].
           destruct (H j Hj) as [Hd Hr]. rewrite R1 in Hr.
           rewrite Hl in Hd; [auto|]. intros ->. contradiction.
        -- intros H j Hj. destruct (H j (or_intror Hj)) as [Hd Hr].
           rewrite R1. rewrite Hl; [auto|]. intros ->. contradiction.
      * intros w Hw. rewrite Hl'; [|intros Hi; apply Hw; now right].
        apply Hl. intros ->. apply Hw. now left.
    + exists false, t1. split; [reflexivity|]. split; [assumption|].
      split; [assumption|]. split; [assumption|]. split.
      * split; [discriminate|]. intros H. apply Hb. apply H. now left.
      * intros w _. rewrite (Hf eq_refl). reflexivity.
Qed.

(** X20: on a well-formed tree [contract_all_chains] always returns, and
    it returns [true] exactly when every node of the tree has degree 2 and
    is not the root; the node count and the root are kept, and so is the
    invariant. *)
Theorem contract_all_chains_spec t :
  wf t ->
  exists b t',
    contract_all_chains t = Done (b, t') /\ wf t' /\
    node_count t' = node_count t /\ root t' = root t /\
    (b = true <->
     forall i, i < node_count t ->
               degree i t = Done (2, t) /\ i <> root t).
Proof.
  intros W.
  destruct (contract_all_chains_loop (node_ids t) t W (NoDup_node_ids t))
    as (b & t' & F & W' & N' & R' & Hb & _).
  { intros i Hi. now apply In_node_ids. }
  exists b, t'. split; [exact F|]. split; [assumption|].
  split; [assumption|]. split; [assumption|].
  rewrite Hb. split.
  - intros H i Hi. rewrite degree_eval by assumption.
    destruct (H i) as [Hd Hr]; [now apply In_node_ids|].
    rewrite Hd. split; [reflexivity|assumption].
  - intros H i Hi. apply In_node_ids in Hi.
    destruct (H i Hi) as [Hd Hr]. rewrite degree_eval in Hd by assumption.
    split; [|assumption]. injection Hd. lia.
Qed.

Lemma wf_triangle : wf triangle.
Proof.
  exact (preserves_run 0
           [Onew_node; Onew_node; Onew_node; Oadd_edge 0 1; Oadd_edge 0 2;
            Oadd_edge 1 2]
           empty_tree tt triangle wf_empty_tree eq_refl).
Qed.

Lemma contract_all_chains_spec_witness :
  wf triangle /\
  exists b t',
    contract_all_chains triangle = Done (b, t') /\ wf t' /\
    node_count t' = node_count triangle /\ root t' = root triangle /\
    (b = true <->
     forall i, i < node_count triangle ->
               degree i triangle = Done (2, triangle) /\ i <> root triangle).
Proof.
  split; [exact wf_triangle|].
  apply (contract_all_chains_spec triangle). exact wf_triangle.
Defined.
